(** * modvir.vegind: gridded NDVI aggregation and NDVI -> fPAR conversion

    A shallow embedding of [src/modvir/vegind.py].  NumPy's floating-point
    arrays are modelled bit-exactly with the IEEE-754 specification of the
    standard library ([SpecFloat]): a cell is a [spec_float], an array
    operation is the element-wise IEEE operation at the array's dtype, and a
    Python [float] operand is first converted to that dtype. *)

From Stdlib Require Import ZArith Zpower QArith Qabs Qpower Lia Lqa Bool List String Ascii.
From Stdlib Require Import SpecFloat.
From stdpp Require Import base option list strings gmap.

Local Open Scope Z_scope.

(* ===================================================================== *)
(** * IEEE-754 values, NumPy dtypes and Python floats                     *)
(* ===================================================================== *)

Module Float.

(** The two floating dtypes an NDVI array can have: [np.single], which
    [VegInd.__init__] uses, and NumPy's default [np.float64]. *)
Inductive dtype := float32 | float64.

Definition prec (dt : dtype) : Z :=
  match dt with float32 => 24 | float64 => 53 end.

Definition emax (dt : dtype) : Z :=
  match dt with float32 => 128 | float64 => 1024 end.

Definition zero : spec_float := S754_zero false.
Definition nan : spec_float := S754_nan.

Definition isnan (x : spec_float) : bool :=
  match x with S754_nan => true | _ => false end.

Definition isfinite (x : spec_float) : bool :=
  match x with S754_zero _ | S754_finite _ _ _ => true | _ => false end.

(** Arithmetic at a dtype: correctly rounded, round-to-nearest-even. *)
Definition add (dt : dtype) := SFadd (prec dt) (emax dt).
Definition sub (dt : dtype) := SFsub (prec dt) (emax dt).
Definition mul (dt : dtype) := SFmul (prec dt) (emax dt).
Definition div (dt : dtype) := SFdiv (prec dt) (emax dt).

(** Comparisons do not depend on the format; every comparison with a NaN
    is false. *)
Definition ltb (x y : spec_float) : bool := SFltb x y.
Definition leb (x y : spec_float) : bool := SFleb x y.
Definition gtb (x y : spec_float) : bool := SFltb y x.
Definition geb (x y : spec_float) : bool := SFleb y x.

(** Conversion of an integer to a dtype ([int16 -> float64] and the like). *)
Definition of_Z (dt : dtype) (z : Z) : spec_float :=
  binary_normalize (prec dt) (emax dt) z 0 false.

(** [ndarray.astype(dt)] on one value, and the conversion of a Python
    [float] operand to the dtype of the array it meets. *)
Definition astype (dt : dtype) (x : spec_float) : spec_float :=
  match x with
  | S754_finite s m e => binary_round (prec dt) (emax dt) s m e
  | _ => x
  end.

(** The Python [float] denoted by the decimal literal [n/d]: the binary64
    value nearest to the quotient. *)
Definition lit (n : Z) (d : positive) : spec_float :=
  div float64 (of_Z float64 n) (of_Z float64 (Zpos d)).

(** The rational a finite value stands for ([None] for NaN and the
    infinities). *)
Definition to_Q (x : spec_float) : option Q :=
  match x with
  | S754_zero _ => Some 0%Q
  | S754_finite s m e =>
      Some (inject_Z (cond_Zopp s (Zpos m)) * Qpower 2 e)%Q
  | _ => None
  end.

(** [|x - q| <= tol], false when [x] is not finite. *)
Definition within (tol : Q) (x : spec_float) (q : Q) : bool :=
  match to_Q x with
  | Some v => Qle_bool (Qabs (v - q)) tol
  | None => false
  end.

End Float.


(* ===================================================================== *)
(** * Python values: exceptions, [os.path], [str.join]                    *)
(* ===================================================================== *)

Module Py.

(** The exceptions the module and its callees can raise. *)
Inductive exn :=
| EOFError (msg : string)
| IndexError
| KeyError (key : string)
| ValueError
| FloatingPointError
| OSError.

Inductive result (A : Type) :=
| Ok (a : A)
| Raise (e : exn).
Arguments Ok {A} a.
Arguments Raise {A} e.

Definition bind {A B} (r : result A) (k : A -> result B) : result B :=
  match r with
  | Ok a => k a
  | Raise e => Raise e
  end.

(** [for x in l: acc = f(acc, x)], stopping at the first exception. *)
Fixpoint foldM {A B} (f : A -> B -> result A) (acc : A) (l : list B)
  : result A :=
  match l with
  | [] => Ok acc
  | x :: l' => bind (f acc x) (fun acc' => foldM f acc' l')
  end.

Definition slash : ascii := "/"%char.

(** [s.endswith('/')] *)
Fixpoint ends_with_slash (s : string) : bool :=
  match s with
  | EmptyString => false
  | String c EmptyString => Ascii.eqb c slash
  | String _ s' => ends_with_slash s'
  end.

(** [posixpath.join(a, b)] for a relative second component. *)
Definition path_join (a b : string) : string :=
  match a with
  | EmptyString => b
  | _ => if ends_with_slash a then (a ++ b)%string
         else (a ++ String slash b)%string
  end.

(** [posixpath.basename(p)]: what follows the last slash. *)
Fixpoint basename (p : string) : string :=
  match p with
  | EmptyString => EmptyString
  | String c p' =>
      if Ascii.eqb c slash then basename p'
      else let b := basename p' in
           (* no slash in [p']: the whole of [p] is the base name *)
           if (String.length b =? String.length p')%nat then p else b
  end.

(** [sep.join(l)] *)
Fixpoint join (sep : string) (l : list string) : string :=
  match l with
  | [] => EmptyString
  | [x] => x
  | x :: l' => (x ++ sep ++ join sep l')%string
  end.

(** [sorted(l)] on strings: insertion into code-point order. *)
Fixpoint insert_sorted (x : string) (l : list string) : list string :=
  match l with
  | [] => [x]
  | y :: l' => if String.leb x y then x :: l else y :: insert_sorted x l'
  end.

Definition sorted (l : list string) : list string :=
  fold_right insert_sorted [] l.

End Py.

(* ===================================================================== *)
(** * NumPy: two-dimensional arrays and the operations the module calls   *)
(* ===================================================================== *)

Module Np.
Import Float Py.

(** A 2-D array, row by row. *)
Abbreviation array2 A := (list (list A)).
Abbreviation ndarray := (list (list spec_float)).

(** The length of every row: two arrays have the same shape when these
    agree. *)
Definition dims {A} (a : array2 A) : list nat := fmap length a.

Definition shape {A} (a : array2 A) : nat * nat :=
  (length a, match a with [] => O | r :: _ => length r end).

Definition same_shape {A B} (a : array2 A) (b : array2 B) : bool :=
  bool_decide (dims a = dims b).

Definition cell {A} (a : array2 A) (i j : nat) : option A :=
  a !! i ≫= (fun row => row !! j).

Definition full {A} (nlat nlon : nat) (x : A) : array2 A :=
  replicate nlat (replicate nlon x).

(** [np.zeros((nlat, nlon))] *)
Definition zeros (nlat nlon : nat) : ndarray := full nlat nlon zero.

Definition map1 {A B} (f : A -> B) (a : array2 A) : array2 B :=
  fmap (M := list) (fmap (M := list) f) a.

Definition map2 {A B C} (f : A -> B -> C) (a : array2 A) (b : array2 B)
  : array2 C :=
  zip_with (zip_with f) a b.

(** [np.zeros_like(a)] *)
Definition zeros_like (a : ndarray) : ndarray := map1 (fun _ => zero) a.

(** [out[mask] = rhs[mask]] for arrays of one shape. *)
Definition assign_where (mask : array2 bool) (rhs out : ndarray) : ndarray :=
  map2 (fun (m : bool) (p : spec_float * spec_float) =>
          if m then p.1 else p.2)
       mask (map2 pair rhs out).

(** ** Broadcasting

    Two shapes go together when, axis by axis, the sizes are equal or
    one of them is 1; the result has the larger size (the other one,
    when one of them is 1), and the axis of size 1 is repeated. *)
Definition broadcast_dim (n m : nat) : option nat :=
  if (n =? m)%nat then Some n
  else if (n =? 1)%nat then Some m
  else if (m =? 1)%nat then Some n
  else None.

(** A list of one element, repeated [n] times; any other list as it
    is. *)
Definition stretch {A} (n : nat) (l : list A) : list A :=
  match l with
  | [x] => replicate n x
  | _ => l
  end.

(** Every row has the length of the first: NumPy makes no array of rows
    of different lengths. *)
Definition rectangular {A} (a : array2 A) : bool :=
  forallb (fun row => (length row =? (shape a).2)%nat) a.

(** [f(a, b)] element by element, for an array [a] of shape [sa] and an
    array [b]; [None] when the shapes do not go together. *)
Definition broadcast2 {A B C} (f : A -> B -> C) (sa : nat * nat)
    (a : array2 A) (b : array2 B) : option (array2 C) :=
  n0 ← broadcast_dim sa.1 (shape b).1;
  n1 ← broadcast_dim sa.2 (shape b).2;
  Some (zip_with (fun ra rb => zip_with f (stretch n1 ra) (stretch n1 rb))
                 (stretch n0 a) (stretch n0 b)).

(** ** Indexing with a boolean array

    [a[b]] and [a[b] = ...] with a boolean array [b] of two axes: NumPy
    compares the shapes of [b] and [a] axis by axis and raises
    [IndexError] where they differ, but it does not compare an axis of
    [b] of size 0.  An index with such an axis has no element and
    selects nothing. *)
Definition size0 {A} (a : array2 A) : bool :=
  forallb (fun row => (length row =? 0)%nat) a.

Definition index_fits {A B} (b : array2 A) (a : array2 B) : bool :=
  match b with
  | [] => true
  | _ => (length b =? length a)%nat && (size0 b || same_shape b a)
  end.

(** [np.minimum] and [np.maximum] hand a NaN on from either side. *)
Definition minimum (x y : spec_float) : spec_float :=
  if leb x y || isnan x then x else y.

Definition maximum (x y : spec_float) : spec_float :=
  if geb x y || isnan x then x else y.

(** [a[np.isnan(a)] = 0.] *)
Definition nan_to_zero (x : spec_float) : spec_float :=
  if isnan x then zero else x.

(** ** The floating-point error state

    [np.errstate(divide=..., invalid=...)] decides what a division does
    with a division by zero and with an invalid operation. *)
Inductive errmode := ignore | warn | raise.

Record errstate := { divide : errmode; invalid : errmode }.

(** NumPy's default. *)
Definition errstate_default : errstate :=
  {| divide := warn; invalid := warn |}.

Inductive fpflag := FPdivide | FPinvalid.

(** The flag IEEE division of [x] by [y] at dtype [dt] sets, if any. *)
Definition div_flag (dt : dtype) (x y : spec_float) : option fpflag :=
  if isnan (div dt x y) && negb (isnan x) && negb (isnan y) then Some FPinvalid
  else match x, y with
       | S754_finite _ _ _, S754_zero _ => Some FPdivide
       | _, _ => None
       end.

Definition mode_of (st : errstate) (f : fpflag) : errmode :=
  match f with FPdivide => divide st | FPinvalid => invalid st end.

Inductive fp_outcome (A : Type) :=
| FPok (a : A) (warnings : list fpflag)
| FPraise (f : fpflag).
Arguments FPok {A} a warnings.
Arguments FPraise {A} f.

Definition flag_eqb (f g : fpflag) : bool :=
  match f, g with
  | FPdivide, FPdivide | FPinvalid, FPinvalid => true
  | _, _ => false
  end.

(** The flags the element-wise division sets, in array order. *)
Definition div_flags (dt : dtype) (a b : ndarray) : list fpflag :=
  omap id (concat (map2 (div_flag dt) a b)).

(** Flag [f] is set and the error state handles it in mode [m]. *)
Definition fires (st : errstate) (flags : list fpflag) (m : errmode)
    (f : fpflag) : bool :=
  existsb (flag_eqb f) flags &&
  match mode_of st f, m with
  | ignore, ignore | warn, warn | raise, raise => true
  | _, _ => false
  end.

(** [a / b] under the error state [st]: [FloatingPointError] when a flag
    in mode [raise] is set, else the quotient with one [RuntimeWarning]
    for each kind of flag in mode [warn]. *)
Definition true_divide (st : errstate) (dt : dtype) (a b : ndarray)
  : fp_outcome ndarray :=
  let flags := div_flags dt a b in
  if fires st flags raise FPdivide then FPraise FPdivide
  else if fires st flags raise FPinvalid then FPraise FPinvalid
  else FPok (map2 (div dt) a b)
            (List.filter (fires st flags warn) [FPdivide; FPinvalid]).

End Np.

(* ===================================================================== *)
(** * xarray datasets and the object store                                *)
(* ===================================================================== *)

Module Xr.
Import Float Py Np.

(** A data variable: named dimensions, dtype, values, attributes. *)
Record Variable_ := {
  var_dims : list string;
  var_dtype : dtype;
  var_values : ndarray;
  var_attrs : gmap string string
}.

(** A coordinate axis with its attributes. *)
Record Coord := {
  coord_values : list spec_float;
  coord_attrs : gmap string string
}.

Record Dataset := {
  sizes : gmap string nat;
  coords : gmap string Coord;
  data_vars : gmap string Variable_;
  attrs : gmap string string
}.

(** Python objects live in a store; a dataset is handled by reference, so
    that an in-place update is seen through every alias. *)
Abbreviation ref := positive.
Abbreviation store := (gmap positive Dataset).

(** Computations on the store that may raise. *)
Definition M (A : Type) := store -> store * result A.

Definition retM {A} (a : A) : M A := fun h => (h, Ok a).
Definition throw {A} (e : exn) : M A := fun h => (h, Raise e).
Definition bindM {A B} (m : M A) (k : A -> M B) : M B :=
  fun h => match m h with
           | (h', Ok a) => k a h'
           | (h', Raise e) => (h', Raise e)
           end.
Definition lift {A} (r : result A) : M A := fun h => (h, r).

#[export] Instance M_ret : MRet M := @retM.
#[export] Instance M_bind : MBind M := fun A B k m => bindM m k.

(** Reading the object behind a reference. *)
Definition deref (r : ref) : M Dataset :=
  fun h => match h !! r with
           | Some ds => (h, Ok ds)
           | None => (h, Raise (KeyError "dangling reference"))
           end.

(** Overwriting the object behind a reference, in place. *)
Definition update (r : ref) (ds : Dataset) : M unit :=
  fun h => (<[r := ds]> h, Ok tt).

(** Allocating a new object. *)
Definition alloc (ds : Dataset) : M ref :=
  fun h => let r := fresh (dom h) in (<[r := ds]> h, Ok r).

(** [d[key]], raising [KeyError]. *)
Definition getitem {V} (d : gmap string V) (key : string) : result V :=
  match d !! key with
  | Some v => Ok v
  | None => Raise (KeyError key)
  end.

(** A dimension met for the first time gets its size from the data. *)
Definition set_size (d : string) (n : nat) (s : gmap string nat)
  : gmap string nat :=
  match s !! d with
  | Some _ => s
  | None => <[d := n]> s
  end.

(** [ds.assign(name=(dims, data, attrs))] on a copy [ds]: the new variable
    must fit the sizes the dataset already has for its dimensions. *)
Definition assign2d (ds : Dataset) (name : string) (d0 d1 : string)
    (dt : dtype) (data : ndarray) (vattrs : gmap string string)
  : result Dataset :=
  let fits (d : string) (n : nat) :=
    match sizes ds !! d with
    | Some k => bool_decide (k = n)
    | None => true
    end in
  if fits d0 (length data) && forallb (fun row => fits d1 (length row)) data
  then Ok {| sizes := set_size d1 (shape data).2
                        (set_size d0 (shape data).1 (sizes ds));
             coords := coords ds;
             data_vars := <[name := {| var_dims := [d0; d1]; var_dtype := dt;
                                       var_values := data; var_attrs := vattrs |}]>
                            (data_vars ds);
             attrs := attrs ds |}
  else Raise ValueError.

End Xr.

(* ===================================================================== *)
(** * modvir.vegind                                                       *)
(* ===================================================================== *)

Module Vegind.
Import Float Py Np Xr.

(** ** Granules

    The bands of MODIS granules are [int16] rasters and their quality
    bands [uint8] rasters; [rxr.open_rasterio] hands them over unscaled.
    A granule is modelled after the boolean indexing the module applies
    to it: its aligned pixel arrays, flattened in row-major order, one
    record a pixel, with the coordinates [singrid] gives the pixel. *)
Record Pixel := {
  LAin : spec_float;
  LOin : spec_float;
  redin : Z;
  redqc : Z;
  nirin : Z;
  nirqc : Z
}.

Definition Granule := list Pixel.

(** [int16] arithmetic wraps around. *)
Definition wrap16 (z : Z) : Z := (z + 32768) mod 65536 - 32768.
Definition add16 (x y : Z) : Z := wrap16 (x + y).
Definition sub16 (x y : Z) : Z := wrap16 (x - y).
Definition abs16 (x : Z) : Z := wrap16 (Z.abs x).

Definition int16 (z : Z) : Prop := -32768 <= z <= 32767.
Definition uint8 (z : Z) : Prop := 0 <= z <= 255.

Definition wf_pixel (p : Pixel) : Prop :=
  int16 (redin p) /\ int16 (nirin p) /\ uint8 (redqc p) /\ uint8 (nirqc p).

(** ** What the module takes from outside

    [NTYPE] is [modvir.config.NTYPE]; [edges_lat nlat i] and
    [edges_lon nlon j] are the entries of the two arrays
    [modvir.geometry.edges(nlat, nlon)] returns ([nlat + 1] and
    [nlon + 1] of them); [glob] is the directory listing behind
    [glob.glob], in the order the file system gives; [open_rasterio]
    reads one granule file or raises. *)
Record World := {
  NTYPE : nat;
  edges_lat : nat -> nat -> spec_float;
  edges_lon : nat -> nat -> spec_float;
  glob : string -> list string;
  open_rasterio : string -> result Granule
}.

(** ** Module constants *)

Definition NDVIMIN : spec_float := lit (-3) 10.

Definition NDVI02P : list spec_float := replicate 18 (lit 330 10000).

Definition NDVI98P : list spec_float :=
  [lit 7200 10000; lit 8400 10000; lit 8800 10000; lit 8000 10000;
   lit 8800 10000; lit 8600 10000; lit 7400 10000; lit 7200 10000;
   lit 8000 10000; lit 8000 10000; lit 7200 10000; lit 7800 10000;
   lit 7800 10000; lit 7800 10000; lit 8200 10000; lit 7200 10000;
   lit 7200 10000; lit 7200 10000].

Definition fPMIN : spec_float := lit 1 100.
Definition fPMAX : spec_float := lit 95 100.

(** ** Per-pixel eligibility, [iok] *)

Definition iok (p : Pixel) : bool :=
  negb (abs16 (redin p) =? 32767) &&
  negb (redqc p =? 255) &&
  negb (abs16 (nirin p) =? 32767) &&
  negb (nirqc p =? 255) &&
  leb (mul float64 NDVIMIN (of_Z float64 (add16 (nirin p) (redin p))))
      (of_Z float64 (sub16 (nirin p) (redin p))).

(** ** [np.histogram2d] on explicit bin edges *)

(** [np.any(edges[:-1] > edges[1:])] is false. *)
Fixpoint monotonic (edges : list spec_float) : bool :=
  match edges with
  | e0 :: (e1 :: _) as rest => negb (gtb e0 e1) && monotonic rest
  | _ => true
  end.

(** The bin of [v]: [searchsorted(edges, v, side='right')], with the
    rightmost edge counted into the last bin; [None] for an outlier. *)
Definition bin1d (edges : list spec_float) (v : spec_float) : option nat :=
  let n := if isnan v then length edges
           else length (List.filter (fun e => leb e v) edges) in
  let n := if SFeqb v (List.last edges nan) then pred n else n in
  if (1 <=? n)%nat && (n <=? length edges - 1)%nat then Some (pred n)
  else None.

Definition in_cell (late lone : list spec_float) (i j : nat)
    (xy : spec_float * spec_float) : bool :=
  bool_decide (bin1d late xy.1 = Some i) &&
  bool_decide (bin1d lone xy.2 = Some j).

(** The histogram: a count per bin without weights, else the sum of the
    weights of the samples of the bin, added up in sample order in
    double precision. *)
Definition histogram2d (x y : list spec_float)
    (late lone : list spec_float) (weights : option (list spec_float))
  : result ndarray :=
  if negb (monotonic late && monotonic lone) then Raise ValueError
  else
    Ok (fmap (fun i =>
          fmap (fun j =>
            match weights with
            | None =>
                of_Z float64
                  (Z.of_nat (length (List.filter (in_cell late lone i j)
                                                 (zip x y))))
            | Some ws =>
                fold_left (add float64)
                  (fmap snd (List.filter (fun s => in_cell late lone i j s.1)
                                        (zip (zip x y) ws)))
                  zero
            end)
            (seq 0 (length lone - 1)))
          (seq 0 (length late - 1))).

Section WithWorld.
Context (w : World).

(** [edges(nlat, nlon)] *)
Definition edges (nlat nlon : nat)
  : list spec_float * list spec_float :=
  (fmap (edges_lat w nlat) (seq 0 (S nlat)),
   fmap (edges_lon w nlon) (seq 0 (S nlon))).

(** ** The accumulation loop of [_regrid] *)

Definition Accumulator : Type := ndarray * ndarray * ndarray.

(** What one granule adds: [numgran], [redgran] and [nirgran]. *)
Definition bin_granule (late lone : list spec_float) (dsin : Granule)
  : result Accumulator :=
  let sel := List.filter iok dsin in
  let la := fmap LAin sel in
  let lo := fmap LOin sel in
  bind (histogram2d la lo late lone None) (fun numgran =>
  bind (histogram2d la lo late lone
          (Some (fmap (fun p => of_Z float64 (redin p)) sel))) (fun redgran =>
  bind (histogram2d la lo late lone
          (Some (fmap (fun p => of_Z float64 (nirin p)) sel))) (fun nirgran =>
  Ok (numgran, redgran, nirgran)))).

(** Element-wise sum of two accumulators. *)
Definition merge (a b : Accumulator) : Accumulator :=
  (map2 (add float64) a.1.1 b.1.1,
   map2 (add float64) a.1.2 b.1.2,
   map2 (add float64) a.2 b.2).

(** The body of [for ff in flist]. *)
Definition regrid_step (late lone : list spec_float)
    (acc : Accumulator) (ff : string) : result Accumulator :=
  bind (open_rasterio w ff) (fun dsin =>
  bind (bin_granule late lone dsin) (fun gran =>
  Ok (merge acc gran))).

(** The loop, from the zero accumulators. *)
Definition accumulate (nlat nlon : nat) (flist : list string)
  : result Accumulator :=
  let '(late, lone) := edges nlat nlon in
  foldM (regrid_step late lone)
        (zeros nlat nlon, zeros nlat nlon, zeros nlat nlon) flist.

(** ** What a cell receives

    The eligible pixels of a granule that fall into cell [(i, j)], in
    array order; the histograms of [bin_granule] count them and sum their
    reflectances. *)
Definition cell_pixels (late lone : list spec_float) (i j : nat)
    (dsin : Granule) : list Pixel :=
  List.filter (fun p => in_cell late lone i j (LAin p, LOin p))
              (List.filter iok dsin).

(** What a granule adds to the count and to the sum of a band in cell
    [(i, j)]. *)
Definition gran_count (late lone : list spec_float) (i j : nat)
    (dsin : Granule) : spec_float :=
  of_Z float64 (Z.of_nat (length (cell_pixels late lone i j dsin))).

Definition gran_sum (band : Pixel -> Z) (late lone : list spec_float)
    (i j : nat) (dsin : Granule) : spec_float :=
  fold_left (add float64)
    ((fun p => of_Z float64 (band p)) <$> cell_pixels late lone i j dsin)
    zero.

(** The three arrays of an accumulator have the shape of the grid. *)
Definition acc_dims (nlat nlon : nat) (a : Accumulator) : Prop :=
  dims a.1.1 = replicate nlat nlon /\
  dims a.1.2 = replicate nlat nlon /\
  dims a.2 = replicate nlat nlon.

(** The files of [flist] are read into [grans], one by one. *)
Definition read_all (flist : list string) (grans : list Granule) : Prop :=
  Forall2 (fun ff dsin => open_rasterio w ff = Ok dsin) flist grans.

(** ** The accumulators as integers

    Counts and sums of [int16] reflectances are integers; these are the
    integers a cell holds after a list of granules, and the accumulator
    that holds them converted to double precision. *)
Definition sumZ (l : list Z) : Z := foldr Z.add 0 l.

Definition cell_count (late lone : list spec_float) (i j : nat)
    (dsin : Granule) : Z :=
  Z.of_nat (length (cell_pixels late lone i j dsin)).

Definition cell_total (band : Pixel -> Z) (late lone : list spec_float)
    (i j : nat) (dsin : Granule) : Z :=
  sumZ (band <$> cell_pixels late lone i j dsin).

Definition grid_table (nlat nlon : nat) (f : nat -> nat -> spec_float)
  : ndarray :=
  (fun i => (fun j => f i j) <$> seq 0 nlon) <$> seq 0 nlat.

Definition exact_accumulator (nlat nlon : nat) (grans : list Granule)
  : Accumulator :=
  let late := (edges nlat nlon).1 in
  let lone := (edges nlat nlon).2 in
  (grid_table nlat nlon (fun i j =>
     of_Z float64 (sumZ (cell_count late lone i j <$> grans))),
   grid_table nlat nlon (fun i j =>
     of_Z float64 (sumZ (cell_total redin late lone i j <$> grans))),
   grid_table nlat nlon (fun i j =>
     of_Z float64 (sumZ (cell_total nirin late lone i j <$> grans)))).

(** The number of pixels of a list of granules. *)
Definition total_pixels (grans : list Granule) : Z :=
  sumZ ((fun dsin => Z.of_nat (length dsin)) <$> grans).

(** No readable file of [flist] has an eligible pixel in cell [(i, j)]. *)
Definition no_coverage (nlat nlon : nat) (flist : list string) (i j : nat)
  : Prop :=
  forall ff dsin,
    ff ∈ flist -> open_rasterio w ff = Ok dsin ->
    cell_pixels (edges nlat nlon).1 (edges nlat nlon).2 i j dsin = [].

(** ** NDVI and the mask *)

(** [(nir - red)/(nir + red)] inside
    [np.errstate(divide='ignore', invalid='ignore')]. *)
Definition ndvi_ratio (red nir : ndarray) : fp_outcome ndarray :=
  true_divide {| divide := ignore; invalid := ignore |} float64
    (map2 (sub float64) nir red) (map2 (add float64) nir red).

(** [(ndvi - NDVIMIN)*mask + NDVIMIN] on one cell. *)
Definition blend_cell (ndvi mask : spec_float) : spec_float :=
  add float64 (mul float64 (sub float64 ndvi NDVIMIN) mask) NDVIMIN.

(** The blend of the NDVI array, of shape [(nlat, nlon)], with the mask:
    NumPy broadcasts the two, and raises [ValueError] when their shapes
    do not go together.  A mask that is a number, or has one axis,
    behaves as the array [[[x]]], or [[row]], does. *)
Definition apply_mask (nlat nlon : nat) (ndvi : ndarray)
    (mask : option ndarray) : result ndarray :=
  match mask with
  | None => Ok ndvi
  | Some m =>
      if rectangular m then
        match broadcast2 blend_cell (nlat, nlon) ndvi m with
        | Some ndvi' => Ok ndvi'
        | None => Raise ValueError
        end
      else Raise ValueError
  end.

(** ** [_regrid] *)

Definition _regrid (dsout : ref) (dirin : string) (mask : option ndarray)
  : M ref :=
  ds ← deref dsout;
  nlat ← lift (getitem (sizes ds) "lat");
  nlon ← lift (getitem (sizes ds) "lon");
  let flist := glob w (path_join dirin "*.hdf") in
  if (length flist =? 0)%nat then throw (EOFError "no files to open")
  else
    acc ← lift (accumulate nlat nlon flist);
    let '(num, red, nir) := acc in
    match ndvi_ratio red nir with
    | FPraise _ => throw FloatingPointError
    | FPok ndvi _ =>
        ndvi ← lift (apply_mask nlat nlon ndvi mask);
        var ← lift (getitem (data_vars ds) "NDVI");
        if negb (same_shape ndvi (var_values var)) then throw ValueError
        else
          let var' := {| var_dims := var_dims var;
                         var_dtype := var_dtype var;
                         var_values := map1 (astype (var_dtype var)) ndvi;
                         var_attrs := var_attrs var |} in
          let files := join ", " (fmap basename flist) in
          _ ← update dsout
                {| sizes := sizes ds;
                   coords := coords ds;
                   data_vars := <["NDVI" := var']> (data_vars ds);
                   attrs := <["input_files" := files]> (attrs ds) |};
          mret dsout
    end.

(** ** The conversion policies *)

(** A Python [float] operand, at the dtype of the array it meets. *)
Definition scalar (dt : dtype) (c : spec_float) : spec_float := astype dt c.

Definition one : spec_float := lit 1 1.
Definition half : spec_float := lit 5 10.

(** [srfun] of [_ndvi2fpar_los], at the dtype of its argument. *)
Definition srfun (dt : dtype) (xx : spec_float) : spec_float :=
  div dt (add dt (scalar dt one) xx) (sub dt (scalar dt one) xx).

(** [(x - c0)*(fPMAX - fPMIN)/(c1 - c0) + fPMIN], the affine map both
    [_ndvi2fpar_los] and [_ndvi2fpar_lin] use; [c0], [c1] and the two
    differences are Python floats. *)
Definition rescale (dt : dtype) (c0 c1 : spec_float) (x : spec_float)
  : spec_float :=
  add dt
    (div dt
       (mul dt (sub dt x (scalar dt c0))
               (scalar dt (sub float64 fPMAX fPMIN)))
       (scalar dt (sub float64 c1 c0)))
    (scalar dt fPMIN).

(** [np.maximum(fPMIN, np.minimum(fPMAX, x))] *)
Definition clamp (dt : dtype) (x : spec_float) : spec_float :=
  maximum (scalar dt fPMIN) (minimum (scalar dt fPMAX) x).

(** One turn of [for nn in range(NTYPE)]: the boolean index [ime] meets
    [fpsr], [fpnd] and [fpar], which have the shape of [ndvi]. *)
Definition los_step (dt : dtype) (ndvi : ndarray) (lctype : array2 Z)
    (fpar : ndarray) (nn : nat) : result ndarray :=
  let ime := map1 (fun c => c =? Z.of_nat nn) lctype in
  bind (match NDVI02P !! nn with Some v => Ok v | None => Raise IndexError end)
    (fun N0 =>
  bind (match NDVI98P !! nn with Some v => Ok v | None => Raise IndexError end)
    (fun N1 =>
  let S0 := srfun float64 N0 in
  let S1 := srfun float64 N1 in
  let sr := map1 (fun x => srfun dt (minimum x (scalar dt N1))) ndvi in
  let fpsr := map1 (rescale dt S0 S1) sr in
  let fpnd := map1 (rescale dt N0 N1) ndvi in
  let fpsr := map1 (clamp dt) fpsr in
  let fpnd := map1 (clamp dt) fpnd in
  if index_fits ime fpar then
    Ok (if size0 ime then fpar
        else assign_where ime
               (map2 (fun a b => mul dt (scalar dt half) (add dt a b))
                     fpsr fpnd)
               fpar)
  else Raise IndexError)).

Definition _ndvi2fpar_los (dt : dtype) (ndvi : ndarray) (lctype : array2 Z)
  : result ndarray :=
  let fpar := zeros_like ndvi in
  bind (foldM (los_step dt ndvi lctype) fpar (seq 0 (NTYPE w)))
       (fun fpar => Ok (map1 nan_to_zero fpar)).

Definition _ndvi2fpar_lin (dt : dtype) (ndvi : ndarray) : ndarray :=
  let N0 := lit 10 100 in
  let N1 := lit 80 100 in
  let fpar := map1 (rescale dt N0 N1) ndvi in
  let fpar := map1 (clamp dt) fpar in
  map1 nan_to_zero fpar.

Definition _ndvi2fpar_jojo (dt : dtype) (ndvi : ndarray) : ndarray :=
  let fpar := zeros_like ndvi in
  let N0 := lit 15 100 in
  let N1 := lit 75 100 in
  let iramp := map2 andb (map1 (ltb (scalar dt N0)) ndvi)
                         (map1 (fun x => leb x (scalar dt N1)) ndvi) in
  let ifree := map1 (ltb (scalar dt N1)) ndvi in
  let ramp := map1 (fun x =>
                mul dt (div dt (sub dt x (scalar dt N0))
                               (scalar dt (sub float64 N1 N0)))
                       (scalar dt N1)) ndvi in
  let fpar := assign_where iramp ramp fpar in
  let fpar := assign_where ifree ndvi fpar in
  map1 nan_to_zero fpar.

(** What [_ndvi2fpar_jojo] leaves in one cell. *)
Definition jojo_cell (dt : dtype) (x : spec_float) : spec_float :=
  let N0 := lit 15 100 in
  let N1 := lit 75 100 in
  let fpar := zero in
  let fpar :=
    if ltb (scalar dt N0) x && leb x (scalar dt N1)
    then mul dt (div dt (sub dt x (scalar dt N0))
                        (scalar dt (sub float64 N1 N0)))
                (scalar dt N1)
    else fpar in
  let fpar := if ltb (scalar dt N1) x then x else fpar in
  nan_to_zero fpar.

(** What [_ndvi2fpar_lin] leaves in one cell. *)
Definition lin_cell (dt : dtype) (x : spec_float) : spec_float :=
  nan_to_zero (clamp dt (rescale dt (lit 10 100) (lit 80 100) x)).

(** The value one turn of the loop of [_ndvi2fpar_los] computes for a
    cell of class [nn], whose percentiles are [N0] and [N1]. *)
Definition los_value (dt : dtype) (N0 N1 : spec_float) (x : spec_float)
  : spec_float :=
  let fpsr := clamp dt (rescale dt (srfun float64 N0) (srfun float64 N1)
                          (srfun dt (minimum x (scalar dt N1)))) in
  let fpnd := clamp dt (rescale dt N0 N1 x) in
  mul dt (scalar dt half) (add dt fpsr fpnd).

(** ** The reference map of policy C, in the words of the design

    [ndvi <= N0] gives 0, [N0 < ndvi <= N1] gives
    [(ndvi - N0)/(N1 - N0)*N1], [ndvi > N1] gives [ndvi], and an
    undefined [ndvi] gives 0, with [N0 = 0.15] and [N1 = 0.75]. *)
Definition policy_C_spec (dt : dtype) (ndvi : spec_float) : spec_float :=
  let N0 := lit 15 100 in
  let N1 := lit 75 100 in
  if isnan ndvi then zero
  else if leb ndvi (scalar dt N0) then zero
  else if leb ndvi (scalar dt N1) then
    mul dt (div dt (sub dt ndvi (scalar dt N0))
                   (scalar dt (sub float64 N1 N0)))
           (scalar dt N1)
  else ndvi.

(** The boundary sequence of the design and the two lists of expected
    values: the one the design prints and the one its formula gives. *)
Definition boundary_ndvi (dt : dtype) : ndarray :=
  [fmap (scalar dt)
     [lit (-2) 10; lit 10 100; lit 15 100; lit 5 10; lit 75 100; lit 9 10]].

Definition boundary_fpar_printed : list Q :=
  [0; 0; 0; 4667 # 10000; 75 # 100; 9 # 10]%Q.

Definition boundary_fpar_formula : list Q :=
  [0; 0; 0; 4375 # 10000; 75 # 100; 9 # 10]%Q.

(** Every value of the row is within [tol] of its expected value. *)
Fixpoint all_within (tol : Q) (row : list spec_float) (expected : list Q)
  : bool :=
  match row, expected with
  | [], [] => true
  | x :: row', q :: expected' =>
      within tol x q && all_within tol row' expected'
  | _, _ => false
  end.

(** ** [class VegInd] *)

Definition fPAR_attrs : gmap string string :=
  {[ "long_name" :=
       ("Fraction (absorbed) Photosynthetically Available " ++
        "Radiation (fPAR)")%string;
     "units" := "1"%string ]}.

(** [VegInd.ndvi2fpar]: the policy in use is [_ndvi2fpar_jojo]; the
    result is a new dataset, [self.assign(fPAR=...)]. *)
Definition ndvi2fpar (self : ref) (lctype : array2 Z) : M ref :=
  ds ← deref self;
  var ← lift (getitem (data_vars ds) "NDVI");
  let fpar := _ndvi2fpar_jojo (var_dtype var) (var_values var) in
  ds' ← lift (assign2d ds "fPAR" "lat" "lon" (var_dtype var) fpar fPAR_attrs);
  alloc ds'.

(** [VegInd.regrid] *)
Definition regrid (self : ref) (dirin : string) (mask : option ndarray)
  : M ref :=
  _regrid self dirin mask.

End WithWorld.
End Vegind.

(* ===================================================================== *)
(** * modvir.vegind, continued: the rest of [class VegInd]                *)
(* ===================================================================== *)

Module VegIndClass.
Import Float Py Np Xr Vegind.

(** ** What the class takes from outside

    [centers] is [modvir.geometry.centers]; [Dataset_init] is
    [xr.Dataset.__init__(self, dataset)], the copy constructor of xarray;
    [now_isoformat] is [datetime.now().isoformat()] at the time of the
    call; [super_to_netcdf] is [xr.Dataset.to_netcdf], which writes the
    file and returns what it returns ([None], or the bytes when no path
    is given) or raises. *)
Inductive pyobj :=
| Encoding (enc : gmap string (gmap string (option spec_float)))
| Opaque (repr : string).

Record Env := {
  centers : nat -> nat -> list spec_float * list spec_float;
  Dataset_init : Dataset -> result Dataset;
  now_isoformat : string;
  super_to_netcdf :
    Dataset -> list pyobj -> gmap string pyobj -> result (option string)
}.

(** ** [VegInd.__init__] *)

Definition lat_attrs : gmap string string :=
  {[ "long_name" := "latitude"%string; "units" := "degrees_north"%string ]}.

Definition lon_attrs : gmap string string :=
  {[ "long_name" := "longitude"%string; "units" := "degrees_east"%string ]}.

Definition NDVI_attrs : gmap string string :=
  {[ "long_name" := "Normalized difference vegetation index (NDVI)"%string;
     "units" := "1"%string ]}.

Definition global_attrs : gmap string string :=
  {[ "Conventions" := "CF-1.9"%string;
     "institution" := "NASA Goddard Space Flight Center"%string;
     "contact" := "Brad Weir <brad.weir@nasa.gov>"%string;
     "title" := "MODIS/VIIRS daily vegetation (NDVI/fPAR) data"%string;
     "input_files" := ""%string ]}.

(** [np.nan * np.ones((nlat, nlon))], then [.astype(np.single)] *)
Definition blank (nlat nlon : nat) : ndarray :=
  map1 (astype float32)
       (map1 (mul float64 nan) (full nlat nlon (of_Z float64 1))).

(** The constructor: [VegInd(dataset, nlat, nlon)] makes a new object.
    Without a dataset it is a grid of undefined NDVI in single precision
    over the cell centres; xarray refuses coordinates whose length
    differs from the size of the dimension they index. *)
Definition __init__ (env : Env) (dataset : option Dataset) (nlat nlon : nat)
  : M ref :=
  match dataset with
  | Some ds => ds' ← lift (Dataset_init env ds); alloc ds'
  | None =>
      let '(lat, lon) := centers env nlat nlon in
      let coords : gmap string Coord :=
        {[ "lat" := {| coord_values := astype float32 <$> lat;
                       coord_attrs := lat_attrs |};
           "lon" := {| coord_values := astype float32 <$> lon;
                       coord_attrs := lon_attrs |} ]} in
      if bool_decide (length lat = nlat) && bool_decide (length lon = nlon)
      then
        alloc {| sizes := {[ "lat" := nlat; "lon" := nlon ]};
                 coords := coords;
                 data_vars :=
                   {[ "NDVI" := {| var_dims := ["lat"; "lon"]%string;
                                   var_dtype := float32;
                                   var_values := blank nlat nlon;
                                   var_attrs := NDVI_attrs |} ]};
                 attrs := global_attrs |}
      else throw ValueError
  end.

(** ** [VegInd.to_netcdf] *)

(** [self.variables]: the names of the data variables and of the
    coordinates. *)
Definition variables (ds : Dataset) : gset string :=
  dom (data_vars ds) ∪ dom (coords ds).

(** [{var: {'_FillValue': None} for var in self.variables}] *)
Definition default_encoding (ds : Dataset)
  : gmap string (gmap string (option spec_float)) :=
  gset_to_gmap {[ "_FillValue"%string := None ]} (variables ds).

Definition to_netcdf (env : Env) (self : ref) (args : list pyobj)
    (kwargs : gmap string pyobj) : M (option string) :=
  ds ← deref self;
  let ds1 :=
    {| sizes := sizes ds;
       coords := coords ds;
       data_vars := data_vars ds;
       attrs := <["history" := ("Created on " ++ now_isoformat env)%string]>
                  (attrs ds) |} in
  _ ← update self ds1;
  let kwargs :=
    match kwargs !! "encoding" with
    | Some _ => kwargs
    | None => <["encoding" := Encoding (default_encoding ds1)]> kwargs
    end in
  lift (super_to_netcdf env ds1 args kwargs).

(** ** Conditions the properties below are stated with *)

(** [np.histogram2d] accepts the bin edges of the grid. *)
Definition edges_monotonic (w : World) (nlat nlon : nat) : bool :=
  monotonic (edges w nlat nlon).1 && monotonic (edges w nlat nlon).2.

(** The dataset is a grid of [nlat] by [nlon] cells with an NDVI
    variable of that shape. *)
Definition grid_dataset (ds : Dataset) (nlat nlon : nat) : Prop :=
  sizes ds !! "lat" = Some nlat /\ sizes ds !! "lon" = Some nlon /\
  exists var,
    data_vars ds !! "NDVI" = Some var /\
    dims (var_values var) = replicate nlat nlon.

(** The mask, if there is one, broadcasts to the shape of the grid:
    each of its axes has the size of the grid's, or size 1. *)
Definition mask_fits (nlat nlon : nat) (mask : option ndarray) : bool :=
  match mask with
  | None => true
  | Some m =>
      rectangular m &&
      ((length m =? 1)%nat || (length m =? nlat)%nat) &&
      (((shape m).2 =? 1)%nat || ((shape m).2 =? nlon)%nat)
  end.

(** An eligible pixel has no negative reflectance (the valid range of
    the bands is 0 to 32766). *)
Definition nonneg_if_eligible (p : Pixel) : Prop :=
  iok p = true -> 0 <= redin p /\ 0 <= nirin p.

(** The same world with another directory listing: [glob] promises no
    order, so two runs may see the same files in different orders. *)
Definition with_glob (w : World) (listing : string -> list string) : World :=
  {| NTYPE := NTYPE w;
     edges_lat := edges_lat w;
     edges_lon := edges_lon w;
     glob := listing;
     open_rasterio := open_rasterio w |}.

(** A value of dtype [dt]: its mantissa and exponent fit the format. *)
Definition is_value (dt : dtype) (x : spec_float) : Prop :=
  valid_binary (prec dt) (emax dt) x = true.

End VegIndClass.

(* ===================================================================== *)
(** * Concrete worlds and stores, for the examples                        *)
(* ===================================================================== *)

Module Examples.
Import Float Py Np Xr Vegind.

(** A 1 x 1 grid covering the globe. *)
Definition lat_edge (nlat i : nat) : spec_float :=
  of_Z float64 (-90 + 180 * Z.of_nat i).
Definition lon_edge (nlon j : nat) : spec_float :=
  of_Z float64 (-180 + 360 * Z.of_nat j).

Definition px (la lo : Z) (red rqc nir nqc : Z) : Pixel :=
  {| LAin := of_Z float64 la; LOin := of_Z float64 lo;
     redin := red; redqc := rqc; nirin := nir; nirqc := nqc |}.

Definition world_two : World :=
  {| NTYPE := 18;
     edges_lat := lat_edge;
     edges_lon := lon_edge;
     glob := fun _ => ["/data/b.hdf"; "/data/a.hdf"]%string;
     open_rasterio := fun ff =>
       if String.eqb ff "/data/a.hdf" then Ok [px 10 20 100 0 300 0]
       else Ok [px 11 21 200 0 400 1; px 0 0 32767 255 32767 255] |}.

Definition world_empty : World :=
  {| NTYPE := 18;
     edges_lat := lat_edge;
     edges_lon := lon_edge;
     glob := fun _ => [];
     open_rasterio := fun _ => Raise OSError |}.

Definition blank : Dataset :=
  {| sizes := {[ "lat" := 1%nat; "lon" := 1%nat ]};
     coords := ∅;
     data_vars :=
       {[ "NDVI" := {| var_dims := ["lat"; "lon"]%string;
                       var_dtype := float32;
                       var_values := [[nan]];
                       var_attrs := ∅ |} ]};
     attrs := {[ "input_files" := ""%string ]} |}.

Definition store0 : store := {[ 1%positive := blank ]}.

End Examples.

(* ===================================================================== *)
(** * Facts about arrays                                                  *)
(* ===================================================================== *)

Module ArrayFacts.
Import Float Py Np.

Lemma cell_map1 {A B} (f : A -> B) (a : array2 A) i j :
  cell (map1 f a) i j = f <$> cell a i j.
Proof.
  unfold cell, map1. rewrite list_lookup_fmap.
  destruct (a !! i) as [row|]; simpl; [|done].
  by rewrite list_lookup_fmap.
Qed.

Lemma cell_map2 {A B C} (f : A -> B -> C) (a : array2 A) (b : array2 B) i j :
  cell (map2 f a b) i j =
  match cell a i j, cell b i j with
  | Some x, Some y => Some (f x y)
  | _, _ => None
  end.
Proof.
  unfold cell, map2. rewrite lookup_zip_with.
  destruct (a !! i) as [ra|]; simpl; [|done].
  destruct (b !! i) as [rb|]; simpl; [|by destruct (ra !! j)].
  rewrite lookup_zip_with.
  destruct (ra !! j); simpl; [|done]. by destruct (rb !! j).
Qed.

Lemma cell_assign_where mask rhs out i j :
  cell (assign_where mask rhs out) i j =
  match cell mask i j, cell rhs i j, cell out i j with
  | Some m, Some r, Some o => Some (if m then r else o)
  | _, _, _ => None
  end.
Proof.
  unfold assign_where. rewrite !cell_map2.
  destruct (cell mask i j), (cell rhs i j), (cell out i j); done.
Qed.

Lemma dims_map1 {A B} (f : A -> B) (a : array2 A) :
  dims (map1 f a) = dims a.
Proof.
  unfold dims, map1. rewrite <- list_fmap_compose.
  apply list_fmap_ext. intros _ row _. simpl. by rewrite length_fmap.
Qed.

Lemma dims_map2 {A B C} (f : A -> B -> C) (a : array2 A) (b : array2 B) :
  dims a = dims b -> dims (map2 f a b) = dims a.
Proof.
  unfold dims, map2. revert b.
  induction a as [|ra a IH]; intros [|rb b] H; simpl in *; try done.
  injection H as Hr Ht. f_equal; [|by apply IH].
  rewrite length_zip_with. lia.
Qed.

Lemma dims_full {A} nlat nlon (x : A) :
  dims (full nlat nlon x) = replicate nlat nlon.
Proof.
  unfold dims, full. by rewrite fmap_replicate, length_replicate.
Qed.

Lemma cell_full {A} nlat nlon (x : A) i j :
  (i < nlat)%nat -> (j < nlon)%nat -> cell (full nlat nlon x) i j = Some x.
Proof.
  intros Hi Hj. unfold cell, full.
  rewrite lookup_replicate_2 by done. simpl.
  by rewrite lookup_replicate_2.
Qed.

Lemma cell_dims_some {A B} (a : array2 A) (b : array2 B) i j :
  dims a = dims b -> is_Some (cell a i j) -> is_Some (cell b i j).
Proof.
  unfold dims, cell. intros Hd [x Hx].
  destruct (a !! i) as [ra|] eqn:Ha; simpl in Hx; [|done].
  assert (Hl : (length <$> a) !! i = Some (length ra)).
  { by rewrite list_lookup_fmap, Ha. }
  rewrite Hd, list_lookup_fmap in Hl.
  destruct (b !! i) as [rb|]; simpl in *; [|done].
  injection Hl as Hl. apply lookup_lt_is_Some. rewrite Hl.
  apply lookup_lt_is_Some. eauto.
Qed.

(** ** Broadcasting *)

Lemma stretch_id {A} n (l : list A) : length l = n -> stretch n l = l.
Proof. intros <-. by destruct l as [|x [|y l]]. Qed.

Lemma broadcast_dim_stretch {A B} (a : list A) (b : list B) n :
  broadcast_dim (length a) (length b) = Some n ->
  length (stretch n a) = n /\ length (stretch n b) = n.
Proof.
  unfold broadcast_dim.
  destruct (Nat.eqb_spec (length a) (length b)) as [E|E].
  { intros [= <-]. by rewrite !stretch_id. }
  destruct (Nat.eqb_spec (length a) 1) as [Ea|Ea].
  { intros [= <-]. destruct a as [|x [|? ?]]; try done. cbn [stretch].
    rewrite length_replicate. split; [done|]. by rewrite stretch_id. }
  destruct (Nat.eqb_spec (length b) 1) as [Eb|Eb]; [|done].
  intros [= <-]. destruct b as [|y [|? ?]]; try done. cbn [stretch].
  rewrite length_replicate. split; [|done]. by rewrite stretch_id.
Qed.

Lemma broadcast_dim_fits n m :
  m = 1%nat \/ m = n -> broadcast_dim n m = Some n.
Proof.
  intros H. unfold broadcast_dim.
  destruct (Nat.eqb_spec n m) as [E|E]; [done|].
  destruct (Nat.eqb_spec n 1) as [E1|E1]; [lia|].
  destruct (Nat.eqb_spec m 1) as [E2|E2]; [done|lia].
Qed.

Lemma elem_of_stretch {A} n (l : list A) x : x ∈ stretch n l -> x ∈ l.
Proof.
  destruct l as [|y [|z l]]; cbn [stretch]; try done.
  intros H. apply elem_of_replicate in H as [-> _]. by left.
Qed.

Lemma dims_replicate {A} (a : array2 A) n k :
  dims a = replicate n k <->
  length a = n /\ Forall (fun row => length row = k) a.
Proof.
  unfold dims. split.
  - intros H. split.
    + by rewrite <- (length_fmap length a), H, length_replicate.
    + apply Forall_forall. intros row Hrow.
      assert (Hin : length row ∈ length <$> a) by (by apply list_elem_of_fmap_2).
      rewrite H in Hin. by apply elem_of_replicate in Hin as [-> _].
  - intros [<- Hf]. induction Hf as [|row a Hrow _ IH]; [done|].
    cbn. by rewrite Hrow, IH.
Qed.

Lemma rectangular_rows {A} (b : array2 A) rb :
  rectangular b = true -> rb ∈ b -> length rb = (shape b).2.
Proof.
  unfold rectangular. rewrite forallb_forall. intros H Hin.
  apply Nat.eqb_eq, H. by apply list_elem_of_In.
Qed.

(** The rows of a broadcast result. *)
Lemma broadcast2_rows {A B C} (f : A -> B -> C) k (a : array2 A)
    (b : array2 B) n0 n1 row :
  Forall (fun ra => length ra = k) a -> rectangular b = true ->
  broadcast_dim k (shape b).2 = Some n1 ->
  row ∈ zip_with (fun ra rb => zip_with f (stretch n1 ra) (stretch n1 rb))
                 (stretch n0 a) (stretch n0 b) ->
  length row = n1.
Proof.
  intros Fa Hb E1 Hin.
  apply elem_of_lookup_zip_with in Hin as (i & ra & rb & -> & Hra & Hrb).
  apply list_elem_of_lookup_2, elem_of_stretch in Hra.
  apply list_elem_of_lookup_2, elem_of_stretch in Hrb.
  rewrite Forall_forall in Fa.
  rewrite <- (Fa ra Hra), <- (rectangular_rows b rb Hb Hrb) in E1.
  destruct (broadcast_dim_stretch ra rb n1 E1) as [S1 S2].
  rewrite length_zip_with. lia.
Qed.

Lemma broadcast2_cells {A B C} (f : A -> B -> C) n k (a : array2 A)
    (b : array2 B) r :
  dims a = replicate n k -> rectangular b = true ->
  broadcast2 f (n, k) a b = Some r -> dims r = replicate n k ->
  forall i j x, cell a i j = Some x -> exists y, cell r i j = Some (f x y).
Proof.
  intros Ha Hb Hr Hd i j x Hx.
  apply dims_replicate in Ha as [La Fa]. apply dims_replicate in Hd as [Lr Fr].
  unfold broadcast2 in Hr. cbn [fst snd] in Hr.
  destruct (broadcast_dim n (shape b).1) as [n0|] eqn:E0; [|done].
  destruct (broadcast_dim k (shape b).2) as [n1|] eqn:E1; [|done].
  cbn in Hr. injection Hr as <-.
  assert (E0' : broadcast_dim (length a) (length b) = Some n0) by (by rewrite La).
  destruct (broadcast_dim_stretch a b n0 E0') as [S0a S0b].
  rewrite length_zip_with, S0a, S0b in Lr.
  assert (n0 = n) by lia. subst n0.
  rewrite (stretch_id n a) in * by done.
  unfold cell in *. destruct (a !! i) as [ra|] eqn:Hra; [|done]. cbn in Hx.
  destruct (lookup_lt_is_Some_2 (stretch n b) i) as [rb Hrb].
  { rewrite S0b, <- La. eapply lookup_lt_Some; eauto. }
  rewrite lookup_zip_with, Hra. cbn. rewrite Hrb. cbn.
  assert (Lra : length ra = k).
  { rewrite Forall_forall in Fa. eapply Fa, list_elem_of_lookup_2; eauto. }
  assert (Lrb : length rb = (shape b).2).
  { apply rectangular_rows; [done|].
    eapply elem_of_stretch, list_elem_of_lookup_2; eauto. }
  assert (n1 = k).
  { assert (Fa' := Fa). rewrite Forall_forall in Fr.
    rewrite <- (Fr (zip_with f (stretch n1 ra) (stretch n1 rb))).
    - symmetry.
      eapply (broadcast2_rows f k a b n n1); [exact Fa|exact Hb|exact E1|].
      rewrite (stretch_id n a) by done.
      eapply list_elem_of_lookup_2. rewrite lookup_zip_with, Hra. cbn.
      by rewrite Hrb.
    - eapply list_elem_of_lookup_2. rewrite lookup_zip_with, Hra. cbn.
      by rewrite Hrb. }
  subst n1. rewrite (stretch_id k ra) by done.
  rewrite <- Lrb in E1. rewrite <- Lra in E1 at 1.
  destruct (broadcast_dim_stretch ra rb _ E1) as [_ S1b].
  destruct (lookup_lt_is_Some_2 (stretch k rb) j) as [y Hy].
  { rewrite S1b, <- Lra. eapply lookup_lt_Some; eauto. }
  exists y. rewrite lookup_zip_with, Hx. cbn. by rewrite Hy.
Qed.

Lemma broadcast2_fits {A B C} (f : A -> B -> C) n k (a : array2 A)
    (b : array2 B) :
  dims a = replicate n k -> rectangular b = true ->
  length b = 1%nat \/ length b = n ->
  (shape b).2 = 1%nat \/ (shape b).2 = k ->
  exists r, broadcast2 f (n, k) a b = Some r /\ dims r = replicate n k.
Proof.
  intros Ha Hb H0 H1. apply dims_replicate in Ha as [La Fa]. subst n.
  unfold broadcast2. cbn [fst snd].
  pose proof (broadcast_dim_fits (length a) (length b) H0) as E0.
  pose proof (broadcast_dim_fits k _ H1) as E1.
  change (shape b).1 with (length b). rewrite E0, E1. cbn.
  eexists. split; [done|]. apply dims_replicate. split.
  - destruct (broadcast_dim_stretch a b _ E0) as [S0a S0b].
    rewrite length_zip_with. lia.
  - apply Forall_forall. intros row Hrow.
    by apply (broadcast2_rows f k a b (length a) k row).
Qed.

(** ** Boolean indices *)

Lemma size0_cell {A} (a : array2 A) i j : size0 a = true -> cell a i j = None.
Proof.
  unfold size0, cell. rewrite forallb_forall. intros H.
  destruct (a !! i) as [row|] eqn:E; [|done]. cbn.
  apply list_elem_of_lookup_2, list_elem_of_In, H, Nat.eqb_eq in E.
  by destruct row.
Qed.

Lemma size0_map1 {A B} (f : A -> B) (a : array2 A) :
  size0 (map1 f a) = size0 a.
Proof.
  unfold size0, map1. induction a as [|row a IH]; [done|].
  cbn. by rewrite IH, length_fmap.
Qed.

Lemma same_shape_dims {A B C} (a : array2 A) (b : array2 B) (c : array2 C) :
  dims b = dims c -> same_shape a b = same_shape a c.
Proof. unfold same_shape. by intros ->. Qed.

Lemma length_dims {A} (a : array2 A) : length (dims a) = length a.
Proof. apply length_fmap. Qed.

(** The test depends on the shapes only. *)
Lemma index_fits_dims {A B C D} (b : array2 A) (b' : array2 B)
    (a : array2 C) (a' : array2 D) :
  dims b = dims b' -> dims a = dims a' ->
  index_fits b a = index_fits b' a'.
Proof.
  intros Hb Ha. unfold index_fits.
  assert (Hl : length b = length b') by (by rewrite <- !length_dims, Hb).
  assert (Hs : size0 b = size0 b').
  { unfold size0. clear Hl. revert b' Hb.
    induction b as [|r b IH]; intros [|r' b'] H; try done.
    cbn in *. injection H as -> H. by rewrite (IH b'). }
  assert (Hla : length a = length a') by (by rewrite <- !length_dims, Ha).
  unfold same_shape. rewrite Hb, Ha, Hl, Hs, Hla.
  destruct b as [|? ?], b' as [|? ?]; done.
Qed.

Lemma index_fits_same {A B} (b : array2 A) (a : array2 B) :
  dims b = dims a -> index_fits b a = true.
Proof.
  intros H. unfold index_fits. destruct b as [|r b]; [done|].
  rewrite <- (length_dims (r :: b)), H, length_dims, Nat.eqb_refl.
  unfold same_shape. rewrite bool_decide_eq_true_2 by done.
  by rewrite orb_true_r.
Qed.

(** An index that fits and has an element has the shape of the array. *)
Lemma index_fits_shape {A B} (b : array2 A) (a : array2 B) :
  index_fits b a = true -> size0 b = false -> dims b = dims a.
Proof.
  unfold index_fits. destruct b as [|r b]; [done|].
  intros H Hs. rewrite Hs in H. apply andb_prop in H as [_ H].
  unfold same_shape in H. by case_bool_decide.
Qed.

End ArrayFacts.

(* ===================================================================== *)
(** * Facts about IEEE-754 comparison and rounding                        *)
(* ===================================================================== *)

Module FloatFacts.
Import Float.

(** ** Comparison *)

(** Case analysis on every comparison of exponents and mantissas. *)
Ltac cases_compare :=
  repeat match goal with
  | H : context [Pos.compare_cont Eq ?a ?b] |- _ =>
      change (Pos.compare_cont Eq a b) with (Pos.compare a b) in H
  | |- context [Pos.compare_cont Eq ?a ?b] =>
      change (Pos.compare_cont Eq a b) with (Pos.compare a b)
  | H : context [Z.compare ?a ?b] |- _ =>
      destruct (Z.compare_spec a b); simpl in H
  | H : context [Pos.compare ?a ?b] |- _ =>
      destruct (Pos.compare_spec a b); simpl in H
  | |- context [Z.compare ?a ?b] =>
      destruct (Z.compare_spec a b); simpl
  | |- context [Pos.compare ?a ?b] =>
      destruct (Pos.compare_spec a b); simpl
  end.

Lemma SFcompare_antisym x y :
  SFcompare y x = CompOpp <$> SFcompare x y.
Proof.
  destruct x as [sx|sx| |sx mx ex], y as [sy|sy| |sy my ey]; simpl;
    try destruct sx; try destruct sy; simpl; try reflexivity;
    cases_compare; subst; try reflexivity; lia.
Qed.

Lemma SFcompare_nan_iff x y :
  SFcompare x y = None <-> isnan x = true \/ isnan y = true.
Proof.
  destruct x as [sx|sx| |sx mx ex], y as [sy|sy| |sy my ey]; simpl;
    try destruct sx; try destruct sy; simpl; intuition discriminate.
Qed.

Lemma ltb_leb_false x y : ltb x y = true -> leb y x = false.
Proof.
  unfold ltb, leb, SFltb, SFleb. rewrite (SFcompare_antisym x y).
  destruct (SFcompare x y) as [[]|]; simpl; congruence.
Qed.

Lemma leb_ltb_false x y : leb x y = true -> ltb y x = false.
Proof.
  unfold ltb, leb, SFltb, SFleb. rewrite (SFcompare_antisym x y).
  destruct (SFcompare x y) as [[]|]; simpl; congruence.
Qed.

Lemma leb_false_ltb x y :
  isnan x = false -> isnan y = false -> leb x y = false -> ltb y x = true.
Proof.
  unfold ltb, leb, SFltb, SFleb. intros Hx Hy.
  rewrite (SFcompare_antisym x y).
  destruct (SFcompare x y) as [[]|] eqn:E; simpl; try congruence.
  apply SFcompare_nan_iff in E. destruct E; congruence.
Qed.

Lemma leb_nan_l y : leb nan y = false.
Proof. reflexivity. Qed.

Lemma leb_nan_r x : leb x nan = false.
Proof. by destruct x as [[]|[]| |[]]. Qed.

Lemma ltb_nan_l y : ltb nan y = false.
Proof. reflexivity. Qed.

Lemma ltb_nan_r x : ltb x nan = false.
Proof. by destruct x as [[]|[]| |[]]. Qed.

Lemma leb_ltb_trans x y z :
  leb x y = true -> ltb y z = true -> ltb x z = true.
Proof.
  unfold ltb, leb, SFltb, SFleb.
  destruct x as [sx|sx| |sx mx ex], y as [sy|sy| |sy my ey],
           z as [sz|sz| |sz mz ez]; simpl;
    try destruct sx; try destruct sy; try destruct sz; simpl;
    try congruence; intros H1 H2;
    cases_compare; subst; try congruence; try lia.
Qed.

Lemma ltb_leb_trans x y z :
  ltb x y = true -> leb y z = true -> ltb x z = true.
Proof.
  unfold ltb, leb, SFltb, SFleb.
  destruct x as [sx|sx| |sx mx ex], y as [sy|sy| |sy my ey],
           z as [sz|sz| |sz mz ez]; simpl;
    try destruct sx; try destruct sy; try destruct sz; simpl;
    try congruence; intros H1 H2;
    cases_compare; subst; try congruence; try lia.
Qed.

Lemma ltb_irrefl x : ltb x x = false.
Proof.
  unfold ltb, SFltb.
  destruct x as [sx|sx| |sx mx ex]; simpl; try destruct sx; simpl;
    try reflexivity; rewrite Z.compare_refl;
    change (Pos.compare_cont Eq mx mx) with (Pos.compare mx mx);
    by rewrite Pos.compare_refl.
Qed.

(** ** Rounding never makes a NaN out of a non-negative mantissa *)

Lemma shr_1_nonneg mrs : 0 <= shr_m mrs -> 0 <= shr_m (shr_1 mrs).
Proof.
  destruct mrs as [m r s]. simpl.
  destruct m as [|[p|p|]|p]; simpl; lia.
Qed.

Lemma iter_pos_nonneg n mrs :
  0 <= shr_m mrs -> 0 <= shr_m (SpecFloat.iter_pos shr_1 n mrs).
Proof.
  revert mrs. induction n as [n IH|n IH|]; intros mrs H; simpl.
  - apply IH, IH, shr_1_nonneg, H.
  - apply IH, IH, H.
  - apply shr_1_nonneg, H.
Qed.

Lemma shr_nonneg mrs e n : 0 <= shr_m mrs -> 0 <= shr_m (shr mrs e n).1.
Proof.
  intros H. unfold shr. destruct n; simpl; auto using iter_pos_nonneg.
Qed.

Lemma shr_record_of_loc_m m l : shr_m (shr_record_of_loc m l) = m.
Proof. by destruct l as [|[]]. Qed.

Lemma shr_fexp_nonneg prec emax m e l :
  0 <= m -> 0 <= shr_m (shr_fexp prec emax m e l).1.
Proof.
  intros H. unfold shr_fexp. apply shr_nonneg.
  by rewrite shr_record_of_loc_m.
Qed.

Lemma round_nearest_even_nonneg m l : 0 <= m -> 0 <= round_nearest_even m l.
Proof.
  intros H. unfold round_nearest_even.
  destruct l as [|[]]; try destruct (Z.even m); lia.
Qed.

Lemma binary_round_aux_not_nan prec emax s m e l :
  0 <= m -> isnan (binary_round_aux prec emax s m e l) = false.
Proof.
  intros H. unfold binary_round_aux.
  pose proof (shr_fexp_nonneg prec emax m e l H) as H1.
  destruct (shr_fexp prec emax m e l) as [mrs' e'] eqn:E1. simpl in H1.
  pose proof (shr_fexp_nonneg prec emax
                (round_nearest_even (shr_m mrs') (loc_of_shr_record mrs'))
                e' loc_Exact
                (round_nearest_even_nonneg _ _ H1)) as H2.
  destruct (shr_fexp prec emax _ e' loc_Exact) as [mrs'' e''] eqn:E2.
  simpl in H2.
  destruct (shr_m mrs'') as [|p|p]; try reflexivity; [|lia].
  by destruct (e'' <=? emax - prec).
Qed.

Lemma binary_normalize_not_nan prec emax m e sz :
  isnan (binary_normalize prec emax m e sz) = false.
Proof.
  unfold binary_normalize, binary_round.
  destruct m as [|p|p]; [reflexivity| |];
    destruct (shl_align _ _ _) as [mz ez];
    by apply binary_round_aux_not_nan.
Qed.

Lemma add_not_nan dt x y :
  isfinite x = true -> isfinite y = true -> isnan (add dt x y) = false.
Proof.
  unfold add. destruct x as [sx|sx| |sx mx ex], y as [sy|sy| |sy my ey];
    simpl; try discriminate; intros _ _;
    try (destruct sx, sy; reflexivity); try reflexivity.
  apply binary_normalize_not_nan.
Qed.

Lemma sub_not_nan dt x y :
  isfinite x = true -> isfinite y = true -> isnan (sub dt x y) = false.
Proof.
  unfold sub. destruct x as [sx|sx| |sx mx ex], y as [sy|sy| |sy my ey];
    simpl; try discriminate; intros _ _;
    try (destruct sx, sy; reflexivity); try reflexivity.
  apply binary_normalize_not_nan.
Qed.

(** Division by, and multiplication with, a finite non-zero value keep a
    non-NaN value non-NaN. *)
Lemma div_not_nan dt x sy my ey :
  isnan x = false -> isnan (div dt x (S754_finite sy my ey)) = false.
Proof.
  unfold div. destruct x as [sx|sx| |sx mx ex]; simpl; try done.
  intros _. unfold SFdiv_core_binary.
  destruct (Z.div_eucl _ _) as [q r] eqn:E.
  apply binary_round_aux_not_nan.
  assert (Hq : q = (fst (Z.div_eucl
     match (ex - ey - Z.min (fexp (prec dt) (emax dt)
              (Zdigits2 (Z.pos mx) + ex - (Zdigits2 (Z.pos my) + ey))) (ex - ey))
     with 0 => Z.pos mx | Z.pos _ => Z.shiftl (Z.pos mx) (ex - ey - Z.min (fexp (prec dt) (emax dt)
              (Zdigits2 (Z.pos mx) + ex - (Zdigits2 (Z.pos my) + ey))) (ex - ey)) | Z.neg _ => 0 end
     (Z.pos my)))) by (by rewrite E).
  rewrite Hq. change (fst (Z.div_eucl ?a ?b)) with (a / b).
  apply Z.div_pos; [|done].
  destruct (ex - ey - _) eqn:Es; try lia.
  apply Z.shiftl_nonneg. lia.
Qed.

Lemma mul_not_nan dt x sy my ey :
  isnan x = false -> isnan (mul dt x (S754_finite sy my ey)) = false.
Proof.
  unfold mul. destruct x as [sx|sx| |sx mx ex]; simpl; try done.
  intros _. by apply binary_round_aux_not_nan.
Qed.

End FloatFacts.

(* ===================================================================== *)
(** * The conversion policies, cell by cell                               *)
(* ===================================================================== *)

Module PolicyFacts.
Import Float Py Np Vegind ArrayFacts FloatFacts.

#[local] Arguments lit : simpl never.
#[local] Arguments scalar : simpl never.
#[local] Arguments add : simpl never.
#[local] Arguments sub : simpl never.
#[local] Arguments mul : simpl never.
#[local] Arguments div : simpl never.

Lemma scalar_N0 dt : exists m e, scalar dt (lit 15 100) = S754_finite false m e.
Proof. destruct dt; vm_compute; eauto. Qed.

Lemma scalar_N1 dt : exists m e, scalar dt (lit 75 100) = S754_finite false m e.
Proof. destruct dt; vm_compute; eauto. Qed.

Lemma scalar_N1_N0 dt :
  exists m e, scalar dt (sub float64 (lit 75 100) (lit 15 100))
              = S754_finite false m e.
Proof. destruct dt; vm_compute; eauto. Qed.

Lemma N1_N0_order dt :
  ltb (scalar dt (lit 75 100)) (scalar dt (lit 15 100)) = false.
Proof. by destruct dt; vm_compute. Qed.

Lemma jojo_cells dt (ndvi : ndarray) i j :
  cell (_ndvi2fpar_jojo dt ndvi) i j = jojo_cell dt <$> cell ndvi i j.
Proof.
  unfold _ndvi2fpar_jojo, zeros_like.
  rewrite cell_map1, !cell_assign_where, !cell_map2, !cell_map1.
  destruct (cell ndvi i j) as [x|]; [|done].
  cbn [fmap option_fmap option_map fst snd].
  unfold jojo_cell.
  destruct (ltb (scalar dt (lit 75 100)) x);
    destruct (ltb (scalar dt (lit 15 100)) x && leb x (scalar dt (lit 75 100)));
    reflexivity.
Qed.

Lemma lin_cells dt (ndvi : ndarray) i j :
  cell (_ndvi2fpar_lin dt ndvi) i j = lin_cell dt <$> cell ndvi i j.
Proof.
  unfold _ndvi2fpar_lin. rewrite !cell_map1.
  by destruct (cell ndvi i j).
Qed.

(** A value between the thresholds is finite. *)
Lemma ramp_input_finite dt x :
  ltb (scalar dt (lit 15 100)) x = true ->
  leb x (scalar dt (lit 75 100)) = true ->
  isfinite x = true.
Proof.
  destruct (scalar_N0 dt) as (m0 & e0 & ->).
  destruct (scalar_N1 dt) as (m1 & e1 & ->).
  by destruct x as [[]|[]| |[]].
Qed.

Lemma ramp_not_nan dt x :
  isfinite x = true ->
  isnan (mul dt (div dt (sub dt x (scalar dt (lit 15 100)))
                        (scalar dt (sub float64 (lit 75 100) (lit 15 100))))
                (scalar dt (lit 75 100))) = false.
Proof.
  intros Hx.
  destruct (scalar_N0 dt) as (m0 & e0 & E0).
  destruct (scalar_N1 dt) as (m1 & e1 & ->).
  destruct (scalar_N1_N0 dt) as (md & ed & ->).
  apply mul_not_nan, div_not_nan, sub_not_nan; [done|by rewrite E0].
Qed.

(** The code and the reference map agree on every value. *)
Lemma jojo_cell_spec dt x : jojo_cell dt x = policy_C_spec dt x.
Proof.
  unfold jojo_cell, policy_C_spec.
  destruct (isnan x) eqn:Hnan.
  { destruct x; try discriminate.
    by rewrite ltb_nan_r, leb_nan_l, ltb_nan_r. }
  assert (Hc0 : isnan (scalar dt (lit 15 100)) = false)
    by (by destruct (scalar_N0 dt) as (? & ? & ->)).
  assert (Hc1 : isnan (scalar dt (lit 75 100)) = false)
    by (by destruct (scalar_N1 dt) as (? & ? & ->)).
  destruct (leb x (scalar dt (lit 15 100))) eqn:H0.
  - rewrite (leb_ltb_false _ _ H0). simpl.
    destruct (ltb (scalar dt (lit 75 100)) x) eqn:H1; [|done].
    pose proof (ltb_leb_trans _ _ _ H1 H0) as H.
    by rewrite N1_N0_order in H.
  - rewrite (leb_false_ltb _ _ Hnan Hc0 H0). simpl.
    destruct (leb x (scalar dt (lit 75 100))) eqn:H1.
    + rewrite (leb_ltb_false _ _ H1).
      unfold nan_to_zero. rewrite ramp_not_nan; [done|].
      apply (ramp_input_finite dt); [|done].
      by apply leb_false_ltb.
    + rewrite (leb_false_ltb _ _ Hnan Hc1 H1).
      unfold nan_to_zero. by rewrite Hnan.
Qed.

End PolicyFacts.

(* ===================================================================== *)
(** * The methods of [VegInd] on the object store                         *)
(* ===================================================================== *)

Module StoreFacts.
Import Float Py Np Xr Vegind ArrayFacts.

(** [VegInd.ndvi2fpar], step by step. *)
Lemma ndvi2fpar_run (self : ref) (lctype : array2 Z) (h : store) :
  ndvi2fpar self lctype h =
  match h !! self with
  | None => (h, Raise (KeyError "dangling reference"))
  | Some ds =>
      match data_vars ds !! "NDVI" with
      | None => (h, Raise (KeyError "NDVI"))
      | Some var =>
          match assign2d ds "fPAR" "lat" "lon" (var_dtype var)
                  (_ndvi2fpar_jojo (var_dtype var) (var_values var))
                  fPAR_attrs with
          | Raise e => (h, Raise e)
          | Ok ds' => (<[fresh (dom h) := ds']> h, Ok (fresh (dom h)))
          end
      end
  end.
Proof.
  unfold ndvi2fpar, mbind, M_bind, bindM, deref, lift, alloc, getitem.
  destruct (h !! self) as [ds|]; [|done].
  destruct (data_vars ds !! "NDVI") as [var|]; [|done].
  by destruct (assign2d _ _ _ _ _ _ _).
Qed.

Lemma assign2d_ok ds name d0 d1 dt data vattrs ds' :
  assign2d ds name d0 d1 dt data vattrs = Ok ds' ->
  coords ds' = coords ds /\ attrs ds' = attrs ds /\
  data_vars ds' =
    <[name := {| var_dims := [d0; d1]; var_dtype := dt;
                 var_values := data; var_attrs := vattrs |}]> (data_vars ds).
Proof.
  unfold assign2d. destruct (_ && _); [|done].
  intros [= <-]. done.
Qed.

Lemma fresh_ref_unused (h : store) : h !! fresh (dom h) = None.
Proof. apply not_elem_of_dom, is_fresh. Qed.

(** [_regrid], step by step: every failure leaves the store as it was. *)
Lemma _regrid_run (w : World) (dsout : ref) (dirin : string)
    (mask : option ndarray) (h : store) :
  _regrid w dsout dirin mask h =
  match h !! dsout with
  | None => (h, Raise (KeyError "dangling reference"))
  | Some ds =>
    match sizes ds !! "lat" with
    | None => (h, Raise (KeyError "lat"))
    | Some nlat =>
      match sizes ds !! "lon" with
      | None => (h, Raise (KeyError "lon"))
      | Some nlon =>
        let flist := glob w (path_join dirin "*.hdf") in
        if (length flist =? 0)%nat
        then (h, Raise (EOFError "no files to open"))
        else
          match accumulate w nlat nlon flist with
          | Raise e => (h, Raise e)
          | Ok (num, red, nir) =>
            match ndvi_ratio red nir with
            | FPraise _ => (h, Raise FloatingPointError)
            | FPok ndvi _ =>
              match apply_mask nlat nlon ndvi mask with
              | Raise e => (h, Raise e)
              | Ok ndvi' =>
                match data_vars ds !! "NDVI" with
                | None => (h, Raise (KeyError "NDVI"))
                | Some var =>
                  if negb (same_shape ndvi' (var_values var))
                  then (h, Raise ValueError)
                  else
                    (<[dsout :=
                         {| sizes := sizes ds;
                            coords := coords ds;
                            data_vars :=
                              <["NDVI" :=
                                  {| var_dims := var_dims var;
                                     var_dtype := var_dtype var;
                                     var_values :=
                                       map1 (astype (var_dtype var)) ndvi';
                                     var_attrs := var_attrs var |}]>
                                (data_vars ds);
                            attrs :=
                              <["input_files" :=
                                  join ", " (basename <$> flist)]>
                                (attrs ds) |}]> h,
                     Ok dsout)
                end
              end
            end
          end
      end
    end
  end.
Proof.
  unfold _regrid, mbind, M_bind, bindM, deref, lift, throw, update, getitem,
    mret, M_ret, retM.
  destruct (h !! dsout) as [ds|]; [|done].
  destruct (sizes ds !! "lat") as [nlat|]; [|done].
  destruct (sizes ds !! "lon") as [nlon|]; [|done].
  cbv zeta.
  destruct (length _ =? 0)%nat; [done|].
  destruct (accumulate w nlat nlon _) as [[[num red] nir]|e]; [|done].
  destruct (ndvi_ratio red nir) as [ndvi ws|f]; [|done].
  destruct (apply_mask nlat nlon ndvi mask) as [ndvi'|e]; [|done].
  destruct (data_vars ds !! "NDVI") as [var|]; [|done].
  by destruct (negb _).
Qed.

End StoreFacts.

(* ===================================================================== *)
(** * The accumulation loop                                               *)
(* ===================================================================== *)

Module AggFacts.
Import Float Py Np Xr Vegind ArrayFacts.

Lemma zip_fmap_same {A B C} (f : A -> B) (g : A -> C) (l : list A) :
  zip (f <$> l) (g <$> l) = (fun a => (f a, g a)) <$> l.
Proof.
  induction l as [|a l IH]; [done|].
  rewrite !fmap_cons. cbn [zip_with]. by rewrite IH.
Qed.

Lemma filter_fmap {A B} (P : B -> bool) (f : A -> B) (l : list A) :
  List.filter P (f <$> l) = f <$> List.filter (fun a => P (f a)) l.
Proof.
  induction l as [|a l IH]; [done|].
  rewrite fmap_cons. cbn [List.filter].
  destruct (P (f a)); rewrite ?fmap_cons; by rewrite IH.
Qed.

Lemma edges_length w nlat nlon :
  length (edges w nlat nlon).1 = S nlat /\
  length (edges w nlat nlon).2 = S nlon.
Proof. unfold edges. simpl. by rewrite !length_fmap, !length_seq. Qed.

(** ** One histogram *)

Lemma dims_table {A B C} (g : A -> B -> C) (k : list A) (l : list B) :
  dims ((fun a => g a <$> l) <$> k) = replicate (length k) (length l).
Proof.
  unfold dims. induction k as [|a k IH]; [done|].
  rewrite !fmap_cons, length_fmap, IH. done.
Qed.

Lemma histogram2d_dims x y late lone ws H :
  histogram2d x y late lone ws = Ok H ->
  dims H = replicate (length late - 1)%nat (length lone - 1)%nat.
Proof.
  unfold histogram2d. destruct (negb _); [done|]. intros [= <-].
  by rewrite dims_table, !length_seq.
Qed.

Lemma histogram2d_cell x y late lone ws H i j :
  histogram2d x y late lone ws = Ok H ->
  (i < length late - 1)%nat -> (j < length lone - 1)%nat ->
  cell H i j =
  Some match ws with
       | None =>
           of_Z float64
             (Z.of_nat (length (List.filter (in_cell late lone i j) (zip x y))))
       | Some ws =>
           fold_left (add float64)
             (snd <$> List.filter (fun s => in_cell late lone i j s.1)
                                  (zip (zip x y) ws))
             zero
       end.
Proof.
  unfold histogram2d. destruct (negb _); [done|]. intros [= <-] Hi Hj.
  unfold cell. rewrite list_lookup_fmap, lookup_seq_lt by done. simpl.
  by rewrite list_lookup_fmap, lookup_seq_lt.
Qed.

Lemma histogram2d_ok x y late lone ws :
  monotonic late && monotonic lone = true ->
  exists H, histogram2d x y late lone ws = Ok H.
Proof. unfold histogram2d. intros ->. simpl. eauto. Qed.

(** ** One granule *)

Lemma bin_granule_inv late lone dsin num red nir :
  bin_granule late lone dsin = Ok (num, red, nir) ->
  (dims num = replicate (length late - 1)%nat (length lone - 1)%nat /\
   dims red = replicate (length late - 1)%nat (length lone - 1)%nat /\
   dims nir = replicate (length late - 1)%nat (length lone - 1)%nat) /\
  forall i j,
    (i < length late - 1)%nat -> (j < length lone - 1)%nat ->
    cell num i j = Some (gran_count late lone i j dsin) /\
    cell red i j = Some (gran_sum redin late lone i j dsin) /\
    cell nir i j = Some (gran_sum nirin late lone i j dsin).
Proof.
  unfold bin_granule, bind.
  destruct (histogram2d _ _ _ _ None) as [n|] eqn:En; [|done].
  destruct (histogram2d _ _ _ _ (Some (_ <$> _))) as [r|] eqn:Er; [|done].
  destruct (histogram2d _ _ _ _ (Some _)) as [q|] eqn:Eq in |- *; [|done].
  intros [= <- <- <-]. split.
  - split_and!; eapply histogram2d_dims; eassumption.
  - intros i j Hi Hj.
    rewrite (histogram2d_cell _ _ _ _ _ _ i j En Hi Hj).
    rewrite (histogram2d_cell _ _ _ _ _ _ i j Er Hi Hj).
    rewrite (histogram2d_cell _ _ _ _ _ _ i j Eq Hi Hj).
    unfold gran_count, gran_sum, cell_pixels.
    rewrite !zip_fmap_same, !filter_fmap, length_fmap.
    rewrite <- !list_fmap_compose. done.
Qed.

Lemma bin_granule_ok late lone dsin :
  monotonic late && monotonic lone = true ->
  exists gran, bin_granule late lone dsin = Ok gran.
Proof.
  intros Hm. unfold bin_granule, bind, histogram2d. rewrite Hm. simpl. eauto.
Qed.

Lemma bin_granule_fail late lone dsin :
  monotonic late && monotonic lone = false ->
  bin_granule late lone dsin = Raise ValueError.
Proof.
  intros Hm. unfold bin_granule, bind, histogram2d. by rewrite Hm.
Qed.

(** ** The loop *)

Lemma cell_merge (a b : Accumulator) i j :
  cell (merge a b).1.1 i j
  = match cell a.1.1 i j, cell b.1.1 i j with
    | Some x, Some y => Some (add float64 x y) | _, _ => None end /\
  cell (merge a b).1.2 i j
  = match cell a.1.2 i j, cell b.1.2 i j with
    | Some x, Some y => Some (add float64 x y) | _, _ => None end /\
  cell (merge a b).2 i j
  = match cell a.2 i j, cell b.2 i j with
    | Some x, Some y => Some (add float64 x y) | _, _ => None end.
Proof. unfold merge. cbn [fst snd]. by rewrite !cell_map2. Qed.

Lemma merge_dims nlat nlon a b :
  acc_dims nlat nlon a -> acc_dims nlat nlon b ->
  acc_dims nlat nlon (merge a b).
Proof.
  intros (A1 & A2 & A3) (B1 & B2 & B3). unfold acc_dims, merge. cbn [fst snd].
  rewrite !dims_map2 by congruence. done.
Qed.

Lemma zeros_dims nlat nlon :
  acc_dims nlat nlon (zeros nlat nlon, zeros nlat nlon, zeros nlat nlon).
Proof. unfold acc_dims, zeros. cbn [fst snd]. by rewrite dims_full. Qed.

(** A successful run of the loop read every file, and every cell of the
    result is the cell it started from with the contributions of the
    granules added in file order. *)
Lemma loop_inv w late lone flist : forall acc acc',
  foldM (regrid_step w late lone) acc flist = Ok acc' ->
  acc_dims (length late - 1) (length lone - 1) acc ->
  acc_dims (length late - 1) (length lone - 1) acc' /\
  exists grans,
    read_all w flist grans /\
    forall i j,
      (i < length late - 1)%nat -> (j < length lone - 1)%nat ->
      forall n r q,
        cell acc.1.1 i j = Some n -> cell acc.1.2 i j = Some r ->
        cell acc.2 i j = Some q ->
        cell acc'.1.1 i j
        = Some (fold_left (add float64) (gran_count late lone i j <$> grans) n) /\
        cell acc'.1.2 i j
        = Some (fold_left (add float64) (gran_sum redin late lone i j <$> grans) r) /\
        cell acc'.2 i j
        = Some (fold_left (add float64) (gran_sum nirin late lone i j <$> grans) q).
Proof.
  induction flist as [|ff flist IH]; intros acc acc'.
  - intros [= <-] Hd. split; [done|]. exists []. split; [constructor|].
    intros i j _ _ n r q -> -> ->. done.
  - cbn [foldM]. unfold bind at 1, regrid_step at 1, bind.
    destruct (open_rasterio w ff) as [dsin|] eqn:Eo; [|done].
    destruct (bin_granule late lone dsin) as [[[gn gr] gq]|] eqn:Eb; [|done].
    intros Hf Hd.
    apply bin_granule_inv in Eb as [Hgd Hgc].
    apply IH in Hf as (Hd' & grans & Hr & Hc); [|by apply merge_dims].
    split; [done|]. exists (dsin :: grans). split; [by constructor|].
    intros i j Hi Hj n r q Hn Hr' Hq.
    destruct (Hgc i j Hi Hj) as (Gn & Gr & Gq).
    destruct (cell_merge acc (gn, gr, gq) i j) as (Mn & Mr & Mq).
    cbn [fst snd] in Mn, Mr, Mq.
    rewrite Hn, Gn in Mn. rewrite Hr', Gr in Mr. rewrite Hq, Gq in Mq.
    apply (Hc i j Hi Hj _ _ _ Mn Mr Mq).
Qed.

Lemma cell_zeros nlat nlon i j :
  (i < nlat)%nat -> (j < nlon)%nat -> cell (zeros nlat nlon) i j = Some zero.
Proof. apply cell_full. Qed.

(** [accumulate], cell by cell. *)
Lemma accumulate_inv w nlat nlon flist num red nir :
  accumulate w nlat nlon flist = Ok (num, red, nir) ->
  acc_dims nlat nlon (num, red, nir) /\
  exists grans,
    read_all w flist grans /\
    forall i j,
      (i < nlat)%nat -> (j < nlon)%nat ->
      let late := (edges w nlat nlon).1 in
      let lone := (edges w nlat nlon).2 in
      cell num i j
      = Some (fold_left (add float64) (gran_count late lone i j <$> grans) zero) /\
      cell red i j
      = Some (fold_left (add float64) (gran_sum redin late lone i j <$> grans) zero) /\
      cell nir i j
      = Some (fold_left (add float64) (gran_sum nirin late lone i j <$> grans) zero).
Proof.
  unfold accumulate.
  destruct (edges_length w nlat nlon) as [Hla Hlo].
  destruct (edges w nlat nlon) as [late lone] eqn:Ee. cbn [fst snd] in *.
  intros Hf. apply loop_inv in Hf.
  - rewrite Hla, Hlo in Hf. replace (S nlat - 1)%nat with nlat in Hf by lia.
    replace (S nlon - 1)%nat with nlon in Hf by lia.
    destruct Hf as (Hd & grans & Hr & Hc). split; [done|].
    exists grans. split; [done|]. intros i j Hi Hj.
    apply (Hc i j Hi Hj); by apply cell_zeros.
  - rewrite Hla, Hlo. replace (S nlat - 1)%nat with nlat by lia.
    replace (S nlon - 1)%nat with nlon by lia. apply zeros_dims.
Qed.

Lemma fold_add_zeros (l : list spec_float) :
  Forall (fun x => x = zero) l -> fold_left (add float64) l zero = zero.
Proof.
  induction 1 as [|x l -> _ IH]; [done|]. cbn [fold_left].
  change (add float64 zero zero) with zero. exact IH.
Qed.

(** Without coverage every granule adds zero to the cell. *)
Lemma no_coverage_zero w nlat nlon flist grans i j :
  read_all w flist grans ->
  no_coverage w nlat nlon flist i j ->
  let late := (edges w nlat nlon).1 in
  let lone := (edges w nlat nlon).2 in
  Forall (fun x => x = zero) (gran_count late lone i j <$> grans) /\
  Forall (fun x => x = zero) (gran_sum redin late lone i j <$> grans) /\
  Forall (fun x => x = zero) (gran_sum nirin late lone i j <$> grans).
Proof.
  intros Hr Hn. cbv zeta. unfold no_coverage in Hn.
  induction Hr as [|ff dsin flist grans Ho Hr IH].
  - rewrite !fmap_nil. by split_and!.
  - destruct IH as (I1 & I2 & I3).
    { intros ff' g' Hin. apply Hn. by right. }
    assert (E := Hn ff dsin (ltac:(by left)) Ho).
    rewrite !fmap_cons. unfold gran_count at 1, gran_sum at 1 3.
    rewrite E. split_and!; by constructor.
Qed.

End AggFacts.

(* ===================================================================== *)
(** * The loop of [_ndvi2fpar_los]                                        *)
(* ===================================================================== *)

Module LosFacts.
Import Float Py Np Vegind ArrayFacts FloatFacts PolicyFacts.

#[local] Arguments lit : simpl never.
#[local] Arguments scalar : simpl never.

Lemma add_nan_l dt y : add dt nan y = nan.
Proof. reflexivity. Qed.

Lemma add_nan_r dt x : add dt x nan = nan.
Proof. by destruct x. Qed.

Lemma sub_nan_l dt y : sub dt nan y = nan.
Proof. reflexivity. Qed.

Lemma sub_nan_r dt x : sub dt x nan = nan.
Proof. by destruct x. Qed.

Lemma mul_nan_l dt y : mul dt nan y = nan.
Proof. reflexivity. Qed.

Lemma mul_nan_r dt x : mul dt x nan = nan.
Proof. by destruct x. Qed.

Lemma div_nan_l dt y : div dt nan y = nan.
Proof. reflexivity. Qed.

Lemma div_nan_r dt x : div dt x nan = nan.
Proof. by destruct x. Qed.

Lemma scalar_fPMIN dt : exists m e, scalar dt fPMIN = S754_finite false m e.
Proof. destruct dt; vm_compute; eauto. Qed.

Lemma scalar_fPMAX dt : exists m e, scalar dt fPMAX = S754_finite false m e.
Proof. destruct dt; vm_compute; eauto. Qed.

Lemma rescale_nan dt c0 c1 : rescale dt c0 c1 nan = nan.
Proof.
  unfold rescale. by rewrite sub_nan_l, mul_nan_l, div_nan_l, add_nan_l.
Qed.

Lemma clamp_nan dt : clamp dt nan = nan.
Proof.
  unfold clamp, minimum, maximum, geb.
  destruct (scalar_fPMIN dt) as (m0 & e0 & ->).
  destruct (scalar_fPMAX dt) as (m1 & e1 & ->).
  reflexivity.
Qed.

Lemma lin_cell_nan dt : lin_cell dt nan = zero.
Proof. unfold lin_cell. by rewrite rescale_nan, clamp_nan. Qed.

Lemma jojo_cell_nan dt : jojo_cell dt nan = zero.
Proof. rewrite jojo_cell_spec. reflexivity. Qed.

Lemma los_value_nan dt N0 N1 : los_value dt N0 N1 nan = nan.
Proof.
  unfold los_value, srfun.
  replace (minimum nan (scalar dt N1)) with nan by reflexivity.
  rewrite add_nan_r, div_nan_l, !rescale_nan, !clamp_nan.
  by rewrite add_nan_l, mul_nan_r.
Qed.

(** One turn of the loop: the cells of class [nn] get their value, the
    others keep theirs; with a land cover array without elements every
    cell keeps its value. *)
Lemma los_step_inv dt (ndvi : ndarray) (lctype : array2 Z) fpar nn fpar' :
  los_step dt ndvi lctype fpar nn = Ok fpar' ->
  dims fpar = dims ndvi ->
  dims fpar' = dims ndvi /\
  exists N0 N1,
    NDVI02P !! nn = Some N0 /\ NDVI98P !! nn = Some N1 /\
    forall i j x o,
      cell ndvi i j = Some x -> cell fpar i j = Some o ->
      cell fpar' i j
      = Some (match cell lctype i j with
              | Some c => if c =? Z.of_nat nn then los_value dt N0 N1 x else o
              | None => o
              end).
Proof.
  unfold los_step, bind.
  destruct (NDVI02P !! nn) as [N0|]; [|done].
  destruct (NDVI98P !! nn) as [N1|]; [|done].
  destruct (index_fits _ fpar) eqn:Hfit; [|done].
  destruct (size0 _) eqn:Hs0.
  - intros [= <-] Hd. split; [done|].
    exists N0, N1. split_and!; [done|done|].
    intros i j x o Hx Ho. rewrite size0_map1 in Hs0.
    by rewrite (size0_cell lctype), Ho.
  - intros [= <-] Hd.
    apply index_fits_shape in Hfit as Hs; [|done]. rewrite dims_map1 in Hs.
    split.
    + unfold assign_where.
      match goal with |- dims (map2 _ _ (map2 _ ?rhs _)) = _ =>
        assert (Hr : dims rhs = dims ndvi)
          by (rewrite dims_map2; by rewrite !dims_map1) end.
      rewrite dims_map2; rewrite dims_map1; [congruence|].
      rewrite dims_map2; congruence.
    + exists N0, N1. split_and!; [done|done|].
      intros i j x o Hx Ho.
      destruct (cell_dims_some fpar lctype i j) as [c Hc]; [done|by eexists|].
      rewrite cell_assign_where, cell_map2, !cell_map1, Hx, Hc, Ho.
      cbn [fmap option_fmap option_map]. unfold los_value. done.
Qed.

Lemma los_loop_inv dt (ndvi : ndarray) (lctype : array2 Z) l :
  forall fpar fpar',
    foldM (los_step dt ndvi lctype) fpar l = Ok fpar' ->
    dims fpar = dims ndvi ->
    dims fpar' = dims ndvi /\
    forall i j x o,
      cell ndvi i j = Some x -> cell fpar i j = Some o ->
      exists v,
        cell fpar' i j = Some v /\
        (v = o \/
         exists nn N0 N1,
           nn ∈ l /\ NDVI02P !! nn = Some N0 /\ NDVI98P !! nn = Some N1 /\
           v = los_value dt N0 N1 x).
Proof.
  induction l as [|nn l IH]; intros fpar fpar'.
  - intros [= <-] Hd. split; [done|]. intros i j x o _ Ho. eauto.
  - cbn [foldM]. unfold bind at 1.
    destruct (los_step dt ndvi lctype fpar nn) as [fpar1|] eqn:E; [|done].
    intros Hf Hd.
    apply los_step_inv in E as (Hd1 & N0 & N1 & H0 & H1 & Hc); [|done].
    apply IH in Hf as (Hd' & Hc'); [|done].
    split; [done|]. intros i j x o Hx Ho.
    pose proof (Hc i j x o Hx Ho) as Hc1.
    destruct (Hc' i j x _ Hx Hc1) as (v & Hv & Hor).
    exists v. split; [done|].
    destruct Hor as [->|(n' & N0' & N1' & Hin & ? & ? & ->)].
    + destruct (cell lctype i j) as [c|]; [|by left].
      destruct (c =? Z.of_nat nn); [right|by left].
      exists nn, N0, N1. split_and!; try done. by left.
    + right. exists n', N0', N1'. split_and!; try done. by right.
Qed.

(** [_ndvi2fpar_los], cell by cell: a cell is 0, when no class of the
    table is its class, or the value of one class, with NaN replaced by
    0. *)
Lemma los_cells w dt (ndvi : ndarray) (lctype : array2 Z) fpar :
  _ndvi2fpar_los w dt ndvi lctype = Ok fpar ->
  dims fpar = dims ndvi /\
  forall i j x,
    cell ndvi i j = Some x ->
    exists v,
      cell fpar i j = Some (nan_to_zero v) /\
      (v = zero \/
       exists nn N0 N1,
         (nn < NTYPE w)%nat /\ NDVI02P !! nn = Some N0 /\
         NDVI98P !! nn = Some N1 /\ v = los_value dt N0 N1 x).
Proof.
  unfold _ndvi2fpar_los, bind.
  destruct (foldM _ _ _) as [fp|] eqn:E; [|done].
  intros [= <-].
  apply los_loop_inv in E as (Hd & Hc); [|apply dims_map1].
  split; [by rewrite dims_map1|].
  intros i j x Hx.
  destruct (Hc i j x zero Hx) as (v & Hv & Hor).
  { unfold zeros_like. by rewrite cell_map1, Hx. }
  exists v. rewrite cell_map1, Hv. split; [done|].
  destruct Hor as [->|(nn & N0 & N1 & Hin & ? & ? & ->)]; [by left|right].
  exists nn, N0, N1. split_and!; try done.
  apply elem_of_seq in Hin. lia.
Qed.

End LosFacts.

Module RatioFacts.
Import Float Py Np Vegind.

(** With every flag ignored the division returns its quotient and nothing
    else. *)
Lemma ndvi_ratio_quiet red nir :
  ndvi_ratio red nir
  = FPok (map2 (div float64) (map2 (sub float64) nir red)
                             (map2 (add float64) nir red)) [].
Proof.
  unfold ndvi_ratio, true_divide, fires. cbn [mode_of divide invalid].
  rewrite !andb_false_r. cbn [List.filter mode_of divide invalid].
  by rewrite !andb_false_r.
Qed.

End RatioFacts.

(* ===================================================================== *)
(** * Rounding to nearest: what the result of an operation can be        *)
(* ===================================================================== *)

Module Rounding.
Import Float FloatFacts.

(** ** Binary digits *)

Lemma digits2_size p : digits2_pos p = Pos.size p.
Proof. induction p; simpl; congruence. Qed.

Lemma digits2_bounds p :
  (2 ^ (Z.pos (digits2_pos p) - 1) <= Z.pos p < 2 ^ Z.pos (digits2_pos p))%Z.
Proof.
  rewrite digits2_size. split.
  - pose proof (Pos.size_le p) as H.
    assert (H2 : (2 ^ Z.pos (Pos.size p) <= 2 * Z.pos p)%Z).
    { rewrite <- Pos2Z.inj_pow. change (2 * Z.pos p)%Z with (Z.pos p~0). lia. }
    replace (Z.pos (Pos.size p)) with (Z.pos (Pos.size p) - 1 + 1)%Z in H2 by lia.
    rewrite Z.pow_add_r in H2 by lia. lia.
  - pose proof (Pos.size_gt p) as H.
    rewrite <- Pos2Z.inj_pow. lia.
Qed.

Lemma Zdigits2_bounds m :
  (0 < m)%Z -> (2 ^ (Zdigits2 m - 1) <= m < 2 ^ Zdigits2 m)%Z.
Proof. destruct m as [|p|p]; try lia. intros _. apply digits2_bounds. Qed.

Lemma Zdigits2_nonneg m : (0 <= Zdigits2 m)%Z.
Proof. destruct m; simpl; lia. Qed.

Lemma Zdigits2_pos m : (0 < m)%Z -> (0 < Zdigits2 m)%Z.
Proof. destruct m; simpl; lia. Qed.

(** The number of digits is the only [d] with [2^(d-1) <= m < 2^d]. *)
Lemma Zdigits2_unique m d :
  (2 ^ (d - 1) <= m < 2 ^ d)%Z -> (0 < m)%Z -> Zdigits2 m = d.
Proof.
  intros [H1 H2] Hm. pose proof (Zdigits2_bounds m Hm) as [B1 B2].
  pose proof (Zdigits2_pos m Hm).
  assert (0 < d)%Z.
  { destruct (Z_lt_le_dec 0 d); [done|]. exfalso.
    destruct (Z.eq_dec d 0%Z) as [->|]; [simpl in H2; lia|].
    rewrite Z.pow_neg_r in H2 by lia. lia. }
  destruct (Z.lt_trichotomy (Zdigits2 m) d) as [Hlt|[Heq|Hgt]]; [|done|].
  - assert (2 ^ Zdigits2 m <= 2 ^ (d - 1))%Z by (apply Z.pow_le_mono_r; lia). lia.
  - assert (2 ^ d <= 2 ^ (Zdigits2 m - 1))%Z by (apply Z.pow_le_mono_r; lia). lia.
Qed.

(** ** Shifting the mantissa right *)

Lemma iter_pos_nat {A} (f : A -> A) n x :
  SpecFloat.iter_pos f n x = Nat.iter (Pos.to_nat n) f x.
Proof.
  revert x. induction n as [n IH|n IH|]; intros x; cbn [SpecFloat.iter_pos].
  - rewrite !IH, Pos2Nat.inj_xI.
    replace (S (2 * Pos.to_nat n)) with (Pos.to_nat n + (Pos.to_nat n + 1))%nat by lia.
    rewrite !Nat.iter_add. done.
  - rewrite !IH, Pos2Nat.inj_xO.
    replace (2 * Pos.to_nat n)%nat with (Pos.to_nat n + Pos.to_nat n)%nat by lia.
    by rewrite Nat.iter_add.
  - done.
Qed.

Lemma shr_1_spec m r s :
  0 <= m ->
  shr_1 {| shr_m := m; shr_r := r; shr_s := s |}
  = {| shr_m := m / 2; shr_r := Z.odd m; shr_s := r || s |}.
Proof.
  intros H. rewrite <- Z.div2_div.
  destruct m as [|[p|p|]|p]; try lia; reflexivity.
Qed.

(** A record is exact when neither of its two bits is set. *)
Definition exact (mrs : shr_record) : bool :=
  negb (shr_r mrs) && negb (shr_s mrs).

Lemma loc_exact_iff mrs : loc_of_shr_record mrs = loc_Exact <-> exact mrs = true.
Proof. destruct mrs as [m [] []]; simpl; intuition discriminate. Qed.

Lemma mod_pow2_succ m k :
  0 <= k ->
  (m mod 2 ^ (k + 1) = 0 <-> m mod 2 ^ k = 0 /\ Z.odd (m / 2 ^ k) = false).
Proof.
  intros Hk. rewrite Z.pow_add_r, Z.pow_1_r by lia.
  assert (0 < 2 ^ k) by (apply Z.pow_pos_nonneg; lia).
  rewrite Z.rem_mul_r by lia.
  pose proof (Z.mod_pos_bound m (2 ^ k) ltac:(lia)).
  pose proof (Z.mod_pos_bound (m / 2 ^ k) 2 ltac:(lia)).
  rewrite Zodd_mod, Z.eqb_neq.
  split; [intros; split|intros [? ?]]; nia.
Qed.

Lemma shr_iter k m r s :
  0 <= m ->
  let res := Nat.iter k shr_1 {| shr_m := m; shr_r := r; shr_s := s |} in
  shr_m res = m / 2 ^ Z.of_nat k /\
  (exact res = true <->
   m mod 2 ^ Z.of_nat k = 0 /\ r = false /\ s = false).
Proof.
  intros Hm. induction k as [|k [IHm IHe]].
  - cbn. rewrite Z.div_1_r, Z.mod_1_r. unfold exact. cbn.
    destruct r, s; cbn; intuition congruence.
  - cbn zeta in *. rewrite Nat.iter_succ.
    destruct (Nat.iter k shr_1 _) as [mk rk sk] eqn:E. cbn [shr_m] in IHm.
    assert (0 < 2 ^ Z.of_nat k) by (apply Z.pow_pos_nonneg; lia).
    assert (0 <= mk) by (rewrite IHm; apply Z.div_pos; lia).
    rewrite shr_1_spec by done. cbn [shr_m].
    rewrite Nat2Z.inj_succ, <- Z.add_1_r. split.
    + rewrite IHm, Z.pow_add_r, Z.pow_1_r by lia.
      by rewrite Z.div_div by lia.
    + rewrite mod_pow2_succ by lia. rewrite <- IHm.
      unfold exact in *. cbn [shr_r shr_s] in *.
      destruct (Z.odd mk), rk, sk; cbn in *; intuition congruence.
Qed.

Lemma shr_spec m l e n :
  0 <= m -> 0 <= n ->
  let res := shr (shr_record_of_loc m l) e n in
  res.2 = e + n /\
  shr_m res.1 = m / 2 ^ n /\
  (exact res.1 = true <-> m mod 2 ^ n = 0 /\ l = loc_Exact).
Proof.
  intros Hm Hn. unfold shr. destruct n as [|p|p]; [| |lia].
  - cbn [fst snd]. change (2 ^ 0) with 1.
    rewrite Z.add_0_r, shr_record_of_loc_m, Z.div_1_r, Z.mod_1_r.
    split_and!; try done. unfold exact.
    destruct l as [|[]]; cbn; intuition congruence.
  - cbn [fst snd]. rewrite iter_pos_nat.
    destruct (shr_record_of_loc m l) as [m0 r s] eqn:E.
    assert (m0 = m) as -> by (by rewrite <- (shr_record_of_loc_m m l), E).
    destruct (shr_iter (Pos.to_nat p) m r s Hm) as [H1 H2].
    rewrite positive_nat_Z in H1, H2. split_and!; [done|done|].
    rewrite H2. destruct l as [|[]]; cbn in E; injection E as <- <-;
      intuition congruence.
Qed.

Local Open Scope Q_scope.

(** ** Powers of two *)

Definition bpow (e : Z) : Q := 2 ^ e.

Lemma bpow_pos e : 0 < bpow e.
Proof. apply Qpower_0_lt. reflexivity. Qed.

Lemma bpow_add a b : bpow (a + b) == bpow a * bpow b.
Proof. apply Qpower_plus. discriminate. Qed.

Lemma bpow_0 : bpow 0 == 1.
Proof. reflexivity. Qed.

Lemma bpow_1 : bpow 1 == 2.
Proof. reflexivity. Qed.

Lemma bpow_succ e : bpow (e + 1) == 2 * bpow e.
Proof. rewrite bpow_add, bpow_1. ring. Qed.

Lemma bpow_le a b : (a <= b)%Z -> bpow a <= bpow b.
Proof. intros H. apply Qpower_le_compat_l; [exact H|]. discriminate. Qed.

Lemma bpow_lt a b : (a < b)%Z -> bpow a < bpow b.
Proof. intros H. apply Qpower_lt_compat_l; [exact H|]. reflexivity. Qed.

Lemma bpow_Z n : (0 <= n)%Z -> bpow n == inject_Z (2 ^ n).
Proof. intros H. unfold bpow. by rewrite Zpower_Qpower. Qed.

Lemma bpow_sub_Z a b :
  (b <= a)%Z -> bpow a == inject_Z (2 ^ (a - b)) * bpow b.
Proof.
  intros H. rewrite <- bpow_Z by lia. rewrite <- bpow_add.
  by replace (a - b + b)%Z with a by lia.
Qed.

Lemma inject_Z_lt_scaled a b P : 0 < P -> inject_Z a * P < inject_Z b * P -> (a < b)%Z.
Proof.
  intros HP H. apply Qmult_lt_r in H; [|exact HP]. by rewrite Zlt_Qlt.
Qed.

Lemma inject_Z_le_scaled a b P : 0 < P -> inject_Z a * P <= inject_Z b * P -> (a <= b)%Z.
Proof.
  intros HP H. apply Qmult_le_r in H; [|exact HP]. by rewrite Zle_Qle.
Qed.

Lemma scaled_le a b P : 0 < P -> (a <= b)%Z -> inject_Z a * P <= inject_Z b * P.
Proof.
  intros HP H. apply Qmult_le_r; [exact HP|]. by rewrite <- Zle_Qle.
Qed.

Lemma scaled_lt a b P : 0 < P -> (a < b)%Z -> inject_Z a * P < inject_Z b * P.
Proof.
  intros HP H. apply Qmult_lt_r; [exact HP|]. by rewrite <- Zlt_Qlt.
Qed.

End Rounding.

Module RoundSpec.
Import Float FloatFacts Rounding.

Section Format.
Variables prec emax : Z.
Hypothesis Hprec : 0 < prec.
Hypothesis Hemax : prec < emax.

Abbreviation emin := (SpecFloat.emin prec emax).
Abbreviation fexp := (SpecFloat.fexp prec emax).

Lemma fexp_ge_emin x : emin <= fexp x.
Proof. unfold SpecFloat.fexp. lia. Qed.

Lemma fexp_mono x y : x <= y -> fexp x <= fexp y.
Proof. unfold SpecFloat.fexp. lia. Qed.

Lemma shr_fexp_spec m e l :
  0 <= m -> 0 <= fexp (Zdigits2 m + e) - e ->
  let k := fexp (Zdigits2 m + e) - e in
  let res := shr_fexp prec emax m e l in
  res.2 = e + k /\
  shr_m res.1 = m / 2 ^ k /\
  (exact res.1 = true <-> m mod 2 ^ k = 0 /\ l = loc_Exact).
Proof. intros Hm Hk. unfold shr_fexp. by apply shr_spec. Qed.

Lemma shr_fexp_noop m e :
  fexp (Zdigits2 m + e) - e <= 0 ->
  shr_fexp prec emax m e loc_Exact
  = ({| shr_m := m; shr_r := false; shr_s := false |}, e).
Proof.
  intros Hk. unfold shr_fexp, shr.
  destruct (fexp _ - e) as [|p|p]; try reflexivity. lia.
Qed.

Lemma round_nearest_even_cases m l :
  round_nearest_even m l = m \/
  (round_nearest_even m l = m + 1 /\ l <> loc_Exact).
Proof.
  unfold round_nearest_even.
  destruct l as [|[]]; try destruct (Z.even m); auto; right; done.
Qed.

(** The quotient of a mantissa by a power of two, digit-wise. *)
Lemma quotient_upper m k :
  0 <= m -> 0 <= k -> m / 2 ^ k < 2 ^ Z.max 0 (Zdigits2 m - k).
Proof.
  intros Hm Hk.
  assert (0 < 2 ^ k) by (apply Z.pow_pos_nonneg; lia).
  destruct (Z.eq_dec m 0) as [->|Hne].
  { rewrite Z.div_0_l by lia. apply Z.pow_pos_nonneg; lia. }
  destruct (Zdigits2_bounds m ltac:(lia)) as [_ Hu].
  apply Z.div_lt_upper_bound; [lia|].
  destruct (Z_le_gt_dec k (Zdigits2 m)).
  - rewrite Z.max_r by lia. rewrite <- Z.pow_add_r by lia.
    by replace (k + (Zdigits2 m - k)) with (Zdigits2 m) by lia.
  - rewrite Z.max_l by lia. rewrite Z.pow_0_r, Z.mul_1_r.
    assert (2 ^ Zdigits2 m <= 2 ^ k) by (apply Z.pow_le_mono_r; lia). lia.
Qed.

Lemma quotient_lower m k :
  0 < m -> 0 <= k <= Zdigits2 m - 1 -> 2 ^ (Zdigits2 m - 1 - k) <= m / 2 ^ k.
Proof.
  intros Hm Hk.
  assert (0 < 2 ^ k) by (apply Z.pow_pos_nonneg; lia).
  destruct (Zdigits2_bounds m Hm) as [Hl _].
  apply Z.div_le_lower_bound; [lia|].
  rewrite <- Z.pow_add_r by lia.
  by replace (k + (Zdigits2 m - 1 - k)) with (Zdigits2 m - 1) by lia.
Qed.

(** The float a rounded mantissa [m'] at exponent [E] is packed into. *)
Definition pack (s : bool) (m' E : Z) : spec_float :=
  if m' =? 0 then S754_zero s
  else
    let '(m2, e2) := if m' =? 2 ^ prec then (2 ^ (prec - 1), E + 1)
                     else (m', E) in
    if e2 <=? emax - prec then S754_finite s (Z.to_pos m2) e2
    else S754_infinity s.

(** The mantissa and exponent the first shift of [binary_round_aux]
    arrives at lie on the grid of the format. *)
Definition on_grid (q E : Z) : Prop :=
  emin <= E /\ 0 <= q < 2 ^ prec /\ (2 ^ (prec - 1) <= q \/ E = emin).

Lemma first_shift_on_grid m e :
  0 <= m -> 0 <= fexp (Zdigits2 m + e) - e ->
  on_grid (m / 2 ^ (fexp (Zdigits2 m + e) - e)) (fexp (Zdigits2 m + e)).
Proof.
  intros Hm Hk. set (d := Zdigits2 m) in *. set (E := fexp (d + e)) in *.
  assert (0 < 2 ^ (E - e)) by (apply Z.pow_pos_nonneg; lia).
  assert (HE : E = Z.max (d + e - prec) emin) by reflexivity.
  pose proof (Zdigits2_nonneg m).
  split_and!.
  - apply fexp_ge_emin.
  - apply Z.div_pos; lia.
  - pose proof (quotient_upper m (E - e) Hm Hk) as Hq. fold d in Hq.
    eapply Z.lt_le_trans; [exact Hq|]. apply Z.pow_le_mono_r; lia.
  - destruct (Z.eq_dec E emin) as [|Hne]; [by right|left].
    assert (E = d + e - prec) by lia.
    assert (0 < m).
    { destruct (Z.eq_dec m 0) as [->|]; [|lia]. subst d. simpl in *. lia. }
    pose proof (quotient_lower m (E - e) ltac:(done) ltac:(fold d; lia)) as Hq.
    fold d in Hq. replace (d - 1 - (E - e)) with (prec - 1) in Hq by lia. done.
Qed.

Lemma binary_round_aux_spec s m e l :
  0 <= m -> 0 <= fexp (Zdigits2 m + e) - e ->
  let k := fexp (Zdigits2 m + e) - e in
  exists m',
    (m' = m / 2 ^ k \/
     (m' = m / 2 ^ k + 1 /\ ~ (m mod 2 ^ k = 0 /\ l = loc_Exact))) /\
    binary_round_aux prec emax s m e l = pack s m' (e + k).
Proof.
  intros Hm Hk k.
  destruct (first_shift_on_grid m e Hm Hk) as (HE & [Hq0 Hq1] & Hq2).
  fold k in Hq0, Hq1, Hq2.
  replace (fexp (Zdigits2 m + e)) with (e + k) in HE, Hq2 by (unfold k; lia).
  unfold binary_round_aux.
  destruct (shr_fexp_spec m e l Hm Hk) as (He' & Hm' & Hex).
  destruct (shr_fexp prec emax m e l) as [mrs' e'].
  cbn [fst snd] in He', Hm', Hex. fold k in He', Hm', Hex. subst e'.
  set (m1 := round_nearest_even (shr_m mrs') (loc_of_shr_record mrs')).
  exists m1. split.
  { subst m1. rewrite Hm'.
    destruct (round_nearest_even_cases (m / 2 ^ k) (loc_of_shr_record mrs'))
      as [->|[-> Hl]]; [by left|right]. split; [done|].
    intros Hc. apply Hl. apply loc_exact_iff, Hex, Hc. }
  assert (Hm1 : m1 = m / 2 ^ k \/ m1 = m / 2 ^ k + 1).
  { subst m1. rewrite Hm'.
    destruct (round_nearest_even_cases (m / 2 ^ k) (loc_of_shr_record mrs'))
      as [->|[-> _]]; auto. }
  clearbody m1. unfold pack.
  destruct (Z.eqb_spec m1 0) as [->|Hne0].
  { rewrite shr_fexp_noop; [done|]. simpl Zdigits2.
    unfold SpecFloat.fexp. lia. }
  assert (0 < m1) by lia.
  destruct (Z.eqb_spec m1 (2 ^ prec)) as [->|Hne1].
  - assert (Hd : Zdigits2 (2 ^ prec) = prec + 1).
    { apply Zdigits2_unique; [|done].
      replace (prec + 1 - 1) with prec by lia. split; [lia|].
      apply Z.pow_lt_mono_r; lia. }
    assert (Hk' : fexp (Zdigits2 (2 ^ prec) + (e + k)) - (e + k) = 1).
    { rewrite Hd. unfold SpecFloat.fexp. lia. }
    destruct (shr_fexp_spec (2 ^ prec) (e + k) loc_Exact) as (He2 & Hm2 & _);
      [lia|lia|].
    rewrite Hk' in He2, Hm2.
    destruct (shr_fexp prec emax (2 ^ prec) (e + k) loc_Exact) as [mrs2 e2].
    cbn [fst snd] in He2, Hm2. subst e2. rewrite Hm2.
    replace (2 ^ prec / 2 ^ 1) with (2 ^ (prec - 1)).
    2:{ assert (Hp2 : 2 ^ prec = 2 ^ (prec - 1) * 2 ^ 1).
        { rewrite <- Z.pow_add_r by lia. f_equal. lia. }
        rewrite Hp2. by rewrite Z.div_mul by done. }
    assert (0 < 2 ^ (prec - 1)) by (apply Z.pow_pos_nonneg; lia).
    destruct (2 ^ (prec - 1)) as [|p|p] eqn:Ep; try lia.
    done.
  - rewrite shr_fexp_noop.
    + cbn [shr_m]. destruct m1 as [|p|p]; try lia. done.
    + assert (m1 < 2 ^ prec) by lia.
      assert (Zdigits2 m1 <= prec).
      { destruct (Zdigits2_bounds m1 ltac:(done)) as [Hl _].
        destruct (Z_le_gt_dec (Zdigits2 m1) prec); [done|].
        assert (2 ^ prec <= 2 ^ (Zdigits2 m1 - 1))
          by (apply Z.pow_le_mono_r; lia). lia. }
      unfold SpecFloat.fexp. lia.
Qed.

(** ** Values *)

Local Open Scope Q_scope.

(** The value of mantissa [m] at exponent [e]. *)
Definition mval (m e : Z) : Q := inject_Z m * bpow e.

(** The non-negative number a mantissa with a location stands for. *)
Definition denotes (m e : Z) (l : location) (x : Q) : Prop :=
  match l with
  | loc_Exact => x == mval m e
  | loc_Inexact _ => mval m e < x /\ x < mval (m + 1) e
  end.

Lemma mval_shift q e k : (0 <= k)%Z -> mval q (e + k) == mval (q * 2 ^ k) e.
Proof.
  intros Hk. unfold mval. rewrite bpow_add, (bpow_Z k Hk), inject_Z_mult. ring.
Qed.

Lemma mval_le a b e : (a <= b)%Z -> mval a e <= mval b e.
Proof. intros. apply scaled_le; [apply bpow_pos|done]. Qed.

Lemma mval_lt a b e : (a < b)%Z -> mval a e < mval b e.
Proof. intros. apply scaled_lt; [apply bpow_pos|done]. Qed.

Lemma mval_le_inv a b e : mval a e <= mval b e -> (a <= b)%Z.
Proof. apply inject_Z_le_scaled, bpow_pos. Qed.

Lemma mval_lt_inv a b e : mval a e < mval b e -> (a < b)%Z.
Proof. apply inject_Z_lt_scaled, bpow_pos. Qed.

Lemma mval_pos m e : (0 < m)%Z -> 0 < mval m e.
Proof.
  intros Hm. unfold mval. apply Qmult_lt_0_compat; [|apply bpow_pos].
  change 0 with (inject_Z 0). by rewrite <- Zlt_Qlt.
Qed.

Lemma mval_pow p e : (0 <= p)%Z -> mval (2 ^ p) e == bpow (p + e).
Proof. intros Hp. unfold mval. rewrite bpow_add, (bpow_Z p Hp). reflexivity. Qed.

Lemma shift_bounds m e l x k :
  (0 <= m)%Z -> (0 <= k)%Z -> denotes m e l x ->
  (mval (m / 2 ^ k) (e + k) <= x /\ x < mval (m / 2 ^ k + 1) (e + k)) /\
  (~ ((m mod 2 ^ k = 0)%Z /\ l = loc_Exact) -> mval (m / 2 ^ k) (e + k) < x).
Proof.
  intros Hm Hk Hx.
  assert (0 < 2 ^ k)%Z by (apply Z.pow_pos_nonneg; lia).
  pose proof (Z.div_mod m (2 ^ k) ltac:(lia)) as Hdm.
  pose proof (Z.mod_pos_bound m (2 ^ k) ltac:(lia)) as Hmod.
  rewrite !mval_shift by done.
  assert (Hlo : mval (m / 2 ^ k * 2 ^ k) e <= mval m e) by (apply mval_le; lia).
  assert (Hhi : mval (m + 1) e <= mval ((m / 2 ^ k + 1) * 2 ^ k) e)
    by (apply mval_le; lia).
  destruct l as [|c]; cbn [denotes] in Hx.
  - rewrite Hx. split_and!.
    + done.
    + apply mval_lt. lia.
    + intros Hn. apply mval_lt.
      destruct (Z.eq_dec (m mod 2 ^ k) 0%Z); [|lia]. by destruct Hn.
  - destruct Hx as [Hx1 Hx2]. split_and!.
    + apply Qlt_le_weak. eapply Qle_lt_trans; eassumption.
    + eapply Qlt_le_trans; eassumption.
    + intros _. eapply Qle_lt_trans; eassumption.
Qed.

(** A canonical mantissa has at most [prec] digits and an exponent of at
    least [emin]; below [2^(prec-1)] its exponent is [emin]. *)
Lemma canonical_grid m e :
  canonical_mantissa prec emax m e = true -> on_grid (Z.pos m) e.
Proof.
  unfold canonical_mantissa. intros Hc%Z.eqb_eq.
  destruct (digits2_bounds m) as [Hl Hu].
  unfold SpecFloat.fexp in Hc. unfold on_grid. split_and!.
  - unfold SpecFloat.emin in *. lia.
  - lia.
  - eapply Z.lt_le_trans; [exact Hu|]. apply Z.pow_le_mono_r; lia.
  - destruct (Z.eq_dec e emin) as [|Hne]; [by right|left].
    assert (Z.pos (digits2_pos m) = prec) as <- by lia. done.
Qed.

Lemma bounded_grid m e :
  bounded prec emax m e = true -> on_grid (Z.pos m) e /\ (e <= emax - prec)%Z.
Proof.
  unfold bounded. intros [Hc He%Z.leb_le]%andb_true_iff.
  split; [by apply canonical_grid|done].
Qed.

(** A value on the grid is below [2^(prec + E)]. *)
Lemma grid_lt_pow q E : on_grid q E -> mval q E < bpow (prec + E).
Proof.
  intros (_ & [_ Hq] & _). rewrite <- mval_pow by lia. by apply mval_lt.
Qed.

Lemma grid_ge_pow q E :
  on_grid q E -> E <> emin -> bpow (prec - 1 + E) <= mval q E.
Proof.
  intros (_ & _ & [Hq|]) Hne; [|done].
  rewrite <- mval_pow by lia. by apply mval_le.
Qed.

(** Rounding does not step over a representable number above. *)
Lemma upper_grid q E m' x mu eu :
  on_grid q E -> on_grid mu eu ->
  (m' = q \/ (m' = q + 1)%Z /\ mval q E < x) ->
  mval q E <= x -> x <= mval mu eu ->
  mval m' E <= mval mu eu.
Proof.
  intros Hg Hu [->|[-> Hlt]] Hqx Hxu.
  { eapply Qle_trans; eassumption. }
  destruct (Z_le_gt_dec E eu) as [Hle|Hgt].
  - replace eu with (E + (eu - E))%Z in * by lia.
    rewrite mval_shift in * by lia.
    apply mval_le.
    assert (q < mu * 2 ^ (eu - E))%Z; [|lia].
    apply (mval_lt_inv _ _ E). eapply Qlt_le_trans; eassumption.
  - exfalso.
    assert (HE : E <> emin) by (destruct Hu as (? & _); lia).
    pose proof (grid_ge_pow q E Hg HE) as H1.
    pose proof (grid_lt_pow mu eu Hu) as H2.
    pose proof (bpow_le (prec + eu) (prec - 1 + E) ltac:(lia)) as H3.
    lra.
Qed.

(** Rounding does not step over a representable number below. *)
Lemma lower_grid q E x ml el :
  on_grid q E -> on_grid ml el ->
  x < mval (q + 1) E -> mval ml el <= x ->
  mval ml el <= mval q E.
Proof.
  intros Hg Hl Hxq Hlx.
  destruct (Z_le_gt_dec E el) as [Hle|Hgt].
  - replace el with (E + (el - E))%Z in * by lia.
    rewrite mval_shift in * by lia.
    apply mval_le.
    assert (ml * 2 ^ (el - E) < q + 1)%Z; [|lia].
    apply (mval_lt_inv _ _ E). eapply Qle_lt_trans; eassumption.
  - assert (HE : E <> emin) by (destruct Hl as (? & _); lia).
    pose proof (grid_ge_pow q E Hg HE) as H1.
    pose proof (grid_lt_pow ml el Hl) as H2.
    pose proof (bpow_le (prec + el) (prec - 1 + E) ltac:(lia)) as H3.
    lra.
Qed.

(** ** What a correctly rounded result is

    [r] is a rounding of the non-negative [x] with sign [s]: it is a value
    of the format, and no representable number lies between [x] and [r]:
    every representable bound of [x], from above or from below, bounds
    [r] too, and [r] is within one unit in the last place of [x].  A zero
    is below, and an infinity above, every positive number of the
    format. *)
Definition rounds (s : bool) (x : Q) (r : spec_float) : Prop :=
  match r with
  | S754_zero s' =>
      s' = s /\
      forall ml el, bounded prec emax ml el = true -> ~ mval (Z.pos ml) el <= x
  | S754_finite s' m e =>
      s' = s /\ bounded prec emax m e = true /\
      (forall mu eu, bounded prec emax mu eu = true ->
                     x <= mval (Z.pos mu) eu ->
                     mval (Z.pos m) e <= mval (Z.pos mu) eu) /\
      (forall ml el, bounded prec emax ml el = true ->
                     mval (Z.pos ml) el <= x ->
                     mval (Z.pos ml) el <= mval (Z.pos m) e) /\
      Qabs (mval (Z.pos m) e - x) <= bpow (1 - prec) * x + bpow emin
  | S754_infinity s' =>
      s' = s /\
      forall mu eu, bounded prec emax mu eu = true -> ~ x <= mval (Z.pos mu) eu
  | S754_nan => False
  end.

(** The mantissa after rounding is still on the grid, its top included. *)
Definition on_grid_top (m' E : Z) : Prop :=
  (emin <= E)%Z /\ (0 <= m' <= 2 ^ prec)%Z /\
  (2 ^ (prec - 1) <= m' \/ E = emin)%Z.

Lemma on_grid_step q E m' :
  on_grid q E -> (m' = q \/ m' = q + 1)%Z -> on_grid_top m' E.
Proof. intros (? & ? & ?) Hm. unfold on_grid_top. lia. Qed.

Lemma pack_spec s m' E :
  on_grid_top m' E ->
  (m' = 0%Z /\ pack s m' E = S754_zero s) \/
  ((0 < m')%Z /\
   exists m2 e2,
     mval (Z.pos m2) e2 == mval m' E /\
     canonical_mantissa prec emax m2 e2 = true /\
     ((e2 <= emax - prec)%Z /\ pack s m' E = S754_finite s m2 e2 \/
      (emax - prec < e2)%Z /\ pack s m' E = S754_infinity s)).
Proof.
  intros (HE & [Hm0 Hm1] & Hn). unfold pack.
  destruct (Z.eqb_spec m' 0) as [->|Hne]; [by left|right].
  split; [lia|].
  assert (Hpp : (0 < 2 ^ (prec - 1))%Z) by (apply Z.pow_pos_nonneg; lia).
  assert (Hp2 : (2 ^ prec = 2 ^ (prec - 1) * 2)%Z).
  { replace prec with (prec - 1 + 1)%Z at 1 by lia.
    by rewrite Z.pow_add_r by lia. }
  destruct (Z.eqb_spec m' (2 ^ prec)) as [->|Hne1].
  - exists (Z.to_pos (2 ^ (prec - 1))), (E + 1)%Z.
    rewrite Z2Pos.id by done. split_and!.
    + rewrite mval_shift by lia. by rewrite Hp2.
    + unfold canonical_mantissa. apply Z.eqb_eq.
      change (Z.pos (digits2_pos ?p)) with (Zdigits2 (Z.pos p)).
      rewrite Z2Pos.id by done.
      rewrite (Zdigits2_unique (2 ^ (prec - 1)) prec); [|lia|lia].
      unfold SpecFloat.fexp. lia.
    + destruct (Z.leb_spec (E + 1) (emax - prec)); [left|right]; done.
  - exists (Z.to_pos m'), E. rewrite Z2Pos.id by lia. split_and!.
    + reflexivity.
    + unfold canonical_mantissa. apply Z.eqb_eq.
      change (Z.pos (digits2_pos ?p)) with (Zdigits2 (Z.pos p)).
      rewrite Z2Pos.id by lia.
      destruct (Zdigits2_bounds m' ltac:(lia)) as [Hl Hu].
      assert (Zdigits2 m' <= prec)%Z.
      { destruct (Z_le_gt_dec (Zdigits2 m') prec); [done|].
        assert (2 ^ prec <= 2 ^ (Zdigits2 m' - 1))%Z
          by (apply Z.pow_le_mono_r; lia). lia. }
      destruct Hn as [Hn | ->].
      * assert (prec <= Zdigits2 m')%Z.
        { destruct (Z_le_gt_dec prec (Zdigits2 m')); [done|].
          assert (2 ^ Zdigits2 m' <= 2 ^ (prec - 1))%Z
            by (apply Z.pow_le_mono_r; lia). lia. }
        unfold SpecFloat.fexp. lia.
      * unfold SpecFloat.fexp. lia.
    + destruct (Z.leb_spec E (emax - prec)); [left|right]; done.
Qed.

(** Two canonical values in value order are in exponent order. *)
Lemma canonical_exponent_le m1 e1 m2 e2 :
  on_grid (Z.pos m1) e1 -> on_grid (Z.pos m2) e2 ->
  mval (Z.pos m1) e1 <= mval (Z.pos m2) e2 -> (e1 <= e2)%Z.
Proof.
  intros H1 H2 Hle.
  destruct (Z_le_gt_dec e1 e2) as [|Hgt]; [done|exfalso].
  assert (HE : e1 <> emin) by (destruct H2 as (? & _); lia).
  pose proof (grid_ge_pow _ _ H1 HE) as G1.
  pose proof (grid_lt_pow _ _ H2) as G2.
  pose proof (bpow_le (prec + e2) (prec - 1 + e1) ltac:(lia)) as G3.
  lra.
Qed.

Theorem round_correct s m e l x :
  (0 <= m)%Z -> (0 <= fexp (Zdigits2 m + e) - e)%Z ->
  denotes m e l x ->
  rounds s x (binary_round_aux prec emax s m e l).
Proof.
  intros Hm Hk Hx.
  destruct (binary_round_aux_spec s m e l Hm Hk) as (m' & Hm' & ->).
  set (k := (fexp (Zdigits2 m + e) - e)%Z) in *.
  pose proof (first_shift_on_grid m e Hm Hk) as Hg. fold k in Hg.
  replace (fexp (Zdigits2 m + e)) with (e + k)%Z in Hg by (unfold k; lia).
  set (q := (m / 2 ^ k)%Z) in *. set (E := (e + k)%Z) in *.
  destruct (shift_bounds m e l x k Hm Hk Hx) as ([Hlo Hhi] & Hstrict).
  fold q E in Hlo, Hhi, Hstrict.
  assert (Hm'' : m' = q \/ (m' = q + 1)%Z /\ mval q E < x).
  { destruct Hm' as [|[? ?]]; [by left|right]. split; [done|]. by apply Hstrict. }
  assert (Hup : forall mu eu, on_grid (Z.pos mu) eu ->
                  x <= mval (Z.pos mu) eu -> mval m' E <= mval (Z.pos mu) eu).
  { intros mu eu Hu Hxu. by apply (upper_grid q E m' x). }
  assert (Hdn : forall ml el, on_grid (Z.pos ml) el ->
                  mval (Z.pos ml) el <= x -> mval (Z.pos ml) el <= mval q E).
  { intros ml el Hl Hlx. by apply (lower_grid q E x). }
  assert (Hqm : mval q E <= mval m' E).
  { apply mval_le. destruct Hm'' as [->|[-> _]]; lia. }
  assert (Htop : on_grid_top m' E).
  { apply (on_grid_step q); [done|]. destruct Hm'' as [|[? _]]; auto. }
  destruct (pack_spec s m' E Htop) as [[Hz Hp]|[Hpos Hp]].
  2: destruct Hp as (m2 & e2 & Hv & Hc & [[He Hp]|[He Hp]]).
  all: rewrite Hp; cbn [rounds]; try subst m'.
  - split; [done|]. intros ml el [Hl _]%bounded_grid Hlx.
    specialize (Hdn ml el Hl Hlx).
    assert (q = 0)%Z as -> by (destruct Hm'' as [?|[? _]], Hg as (_ & ? & _); lia).
    pose proof (mval_pos (Z.pos ml) el ltac:(done)) as Hp0.
    assert (Hz0 : mval 0 E == 0) by (unfold mval; ring).
    rewrite Hz0 in Hdn. lra.
  - split_and!; [done| | | |].
    + unfold bounded. rewrite Hc. by apply Z.leb_le.
    + intros mu eu [Hu _]%bounded_grid Hxu. rewrite Hv. by apply Hup.
    + intros ml el [Hl _]%bounded_grid Hlx. rewrite Hv.
      eapply Qle_trans; [by apply Hdn|done].
    + rewrite Hv.
      assert (Hstep : mval m' E - x <= bpow E /\ x - mval m' E <= bpow E).
      { assert (Hq1 : mval (q + 1) E == mval q E + bpow E)
          by (unfold mval; rewrite inject_Z_plus; ring).
        rewrite Hq1 in Hhi.
        destruct Hm'' as [->|[-> _]]; [lra|]. rewrite Hq1. lra. }
      assert (Hulp : bpow E <= bpow (1 - prec) * x + bpow emin).
      { destruct (Z.eq_dec E emin) as [HEe|HE].
        - rewrite HEe. pose proof (bpow_pos (1 - prec)).
          assert (0 <= x) by (pose proof (mval_le 0 q E ltac:(destruct Hg as (_ & ? & _); lia)) as H0; unfold mval at 1 in H0; change (inject_Z 0) with 0 in H0; lra).
          assert (0 <= bpow (1 - prec) * x) by (apply Qmult_le_0_compat; lra).
          lra.
        - pose proof (grid_ge_pow q E Hg HE) as G.
          pose proof (bpow_pos emin). pose proof (bpow_pos (1 - prec)) as Hb.
          assert (HbE : bpow E == bpow (1 - prec) * bpow (prec - 1 + E)).
          { rewrite <- bpow_add. by replace (1 - prec + (prec - 1 + E))%Z with E by lia. }
          assert (bpow (1 - prec) * bpow (prec - 1 + E) <= bpow (1 - prec) * x).
          { apply Qmult_le_l; [done|]. lra. }
          lra. }
      apply Qabs_case; intros _; lra.
  - split; [done|]. intros mu eu [Hu Heu]%bounded_grid Hxu.
    specialize (Hup mu eu Hu Hxu). rewrite <- Hv in Hup.
    pose proof (canonical_exponent_le m2 e2 mu eu (canonical_grid _ _ Hc) Hu Hup).
    lia.
Qed.

Local Close Scope Q_scope.

(** ** Normalising an integer mantissa *)

Lemma shl_align_spec m e e' :
  Z.pos (shl_align m e e').1 = Z.pos m * 2 ^ (e - Z.min e e') /\
  (shl_align m e e').2 = Z.min e e'.
Proof.
  unfold shl_align. destruct (e' - e) as [|d|d] eqn:Ed; cbn [fst snd].
  - replace (Z.min e e') with e by lia. rewrite Z.sub_diag. lia.
  - replace (Z.min e e') with e by lia. rewrite Z.sub_diag. lia.
  - replace (Z.min e e') with e' by lia.
    change (Pos.iter xO m d) with (shift_pos d m).
    rewrite shift_pos_correct, Z.pow_pos_fold.
    replace (e - e') with (Z.pos d) by lia. lia.
Qed.

Lemma Zdigits2_shift m j :
  0 < m -> 0 <= j -> Zdigits2 (m * 2 ^ j) = Zdigits2 m + j.
Proof.
  intros Hm Hj. destruct (Zdigits2_bounds m Hm) as [Hl Hu].
  pose proof (Zdigits2_pos m Hm).
  assert (0 < 2 ^ j) by (apply Z.pow_pos_nonneg; lia).
  apply Zdigits2_unique; [|nia].
  replace (Zdigits2 m + j - 1) with (Zdigits2 m - 1 + j) by lia.
  rewrite !Z.pow_add_r by lia. nia.
Qed.

Theorem binary_round_correct s m e :
  rounds s (mval (Z.pos m) e) (binary_round prec emax s m e).
Proof.
  unfold binary_round.
  destruct (shl_align_spec m e (fexp (Z.pos (digits2_pos m) + e))) as [Hm He].
  destruct (shl_align m e _) as [mz ez]. cbn [fst snd] in Hm, He. subst ez.
  set (E := fexp (Z.pos (digits2_pos m) + e)) in *.
  set (j := e - Z.min e E) in *.
  assert (Hd : Zdigits2 (Z.pos mz) + Z.min e E = Z.pos (digits2_pos m) + e).
  { rewrite Hm, Zdigits2_shift by lia. unfold j. simpl. lia. }
  apply round_correct.
  - lia.
  - rewrite Hd. fold E. lia.
  - cbn [denotes]. rewrite Hm.
    replace e with (Z.min e E + j) at 1 by (unfold j; lia).
    rewrite mval_shift by (unfold j; lia). reflexivity.
Qed.

Theorem binary_normalize_correct m e sz :
  m <> 0 ->
  rounds (m <? 0) (mval (Z.abs m) e) (binary_normalize prec emax m e sz).
Proof.
  intros Hm. destruct m as [|p|p]; [done| |]; apply binary_round_correct.
Qed.

(** ** Signed values *)

Local Open Scope Q_scope.

(** The value of a finite float, 0 for the others. *)
Definition sval (x : spec_float) : Q :=
  match x with
  | S754_finite s m e => mval (cond_Zopp s (Z.pos m)) e
  | _ => 0
  end.

(** A value of the format that is a zero or finite. *)
Definition fin (x : spec_float) : Prop :=
  isfinite x = true /\ valid_binary prec emax x = true.

(** The exact result [v] with its sign taken off. *)
Definition signed (s : bool) (x : Q) : Q := if s then - x else x.

Lemma sval_pos m e : 0 < sval (S754_finite false m e).
Proof. cbn. by apply mval_pos. Qed.

Lemma sval_neg m e : sval (S754_finite true m e) == - mval (Z.pos m) e.
Proof. cbn. unfold mval. change (Z.neg m) with (- Z.pos m)%Z. rewrite inject_Z_opp. ring. Qed.

Lemma rounds_valid s x r : rounds s x r -> valid_binary prec emax r = true.
Proof. destruct r; cbn; try done. by intros (_ & ? & _). Qed.

Lemma rounds_not_nan s x r : rounds s x r -> isnan r = false.
Proof. by destruct r. Qed.

(** A rounded result lies between any two values of the format the exact
    result lies between; in particular it is finite then. *)
Lemma mval_opp z e : mval (- z) e == - mval z e.
Proof. unfold mval. rewrite inject_Z_opp. ring. Qed.

Ltac norm_sval :=
  cbn [sval isfinite cond_Zopp] in *;
  repeat match goal with
  | H : context [mval (- ?z)%Z ?e] |- _ => rewrite (mval_opp z e) in H
  | |- context [mval (- ?z)%Z ?e] => rewrite (mval_opp z e)
  end;
  repeat match goal with
  | |- context [mval (Z.pos ?m) ?e] =>
      lazymatch goal with
      | _ : 0 < mval (Z.pos m) e |- _ => fail
      | _ => pose proof (mval_pos (Z.pos m) e eq_refl)
      end
  | _ : context [mval (Z.pos ?m) ?e] |- _ =>
      lazymatch goal with
      | _ : 0 < mval (Z.pos m) e |- _ => fail
      | _ => pose proof (mval_pos (Z.pos m) e eq_refl)
      end
  end.

Lemma rounds_between s x r L U :
  0 < x -> rounds s x r -> fin L -> fin U ->
  sval L <= signed s x -> signed s x <= sval U ->
  fin r /\ sval L <= sval r /\ sval r <= sval U.
Proof.
  intros Hx Hr [HLf HLv] [HUf HUv] HL HU.
  destruct s; cbn [signed] in HL, HU.
  - (* a negative result *)
    destruct r as [s'|s'| |s' m e]; cbn [rounds] in Hr; try done.
    + destruct Hr as [-> Hr]. split; [done|].
      destruct U as [su|su| |[] mu eu]; norm_sval; try done; try lra.
      exfalso. apply (Hr mu eu HUv). lra.
    + destruct Hr as [-> Hr]. exfalso.
      destruct L as [sl|sl| |[] ml el]; norm_sval; try done; try lra.
      apply (Hr ml el HLv). lra.
    + destruct Hr as (-> & Hb & Hup & Hdn & _). split; [done|].
      split.
      * destruct L as [sl|sl| |[] ml el]; norm_sval; try done; try lra.
        specialize (Hup ml el HLv ltac:(lra)). lra.
      * destruct U as [su|su| |[] mu eu]; norm_sval; try done; try lra.
        specialize (Hdn mu eu HUv ltac:(lra)). lra.
  - (* a positive result *)
    destruct r as [s'|s'| |s' m e]; cbn [rounds] in Hr; try done.
    + destruct Hr as [-> Hr]. split; [done|].
      destruct L as [sl|sl| |[] ml el]; norm_sval; try done; try lra.
      exfalso. by apply (Hr ml el HLv).
    + destruct Hr as [-> Hr]. exfalso.
      destruct U as [su|su| |[] mu eu]; norm_sval; try done; try lra.
      by apply (Hr mu eu HUv).
    + destruct Hr as (-> & Hb & Hup & Hdn & _). split; [done|].
      split.
      * destruct L as [sl|sl| |[] ml el]; norm_sval; try done; try lra.
        by apply Hdn.
      * destruct U as [su|su| |[] mu eu]; norm_sval; try done; try lra.
        by apply Hup.
Qed.

(** ** Addition and subtraction *)

Lemma fin_zero s : fin (S754_zero s).
Proof. done. Qed.

Lemma signed_abs (M : Z) e :
  M <> 0%Z -> signed (M <? 0)%Z (mval (Z.abs M) e) == mval M e.
Proof.
  intros HM. destruct M as [|p|p]; [done| |]; cbn [Z.ltb Z.compare signed Z.abs].
  - reflexivity.
  - change (Z.neg p) with (- Z.pos p)%Z. by rewrite mval_opp.
Qed.

Lemma mval_add a b e : mval (a + b) e == mval a e + mval b e.
Proof. unfold mval. rewrite inject_Z_plus. ring. Qed.

Lemma mval_sub a b e : mval (a - b) e == mval a e - mval b e.
Proof. unfold mval. unfold Z.sub. rewrite inject_Z_plus, inject_Z_opp. ring. Qed.

Lemma mval_cond_Zopp s z e :
  mval (cond_Zopp s z) e == signed s (mval z e).
Proof. destruct s; cbn [cond_Zopp signed]; [apply mval_opp|reflexivity]. Qed.

(** The mantissa of a value aligned to the smaller exponent. *)
Lemma aligned_value s m e e' :
  mval (cond_Zopp s (Z.pos (shl_align m e (Z.min e e')).1)) (Z.min e e')
  == sval (S754_finite s m e).
Proof.
  destruct (shl_align_spec m e (Z.min e e')) as [Hm _].
  replace (Z.min e (Z.min e e')) with (Z.min e e') in Hm by lia.
  rewrite Hm. cbn [sval]. rewrite !mval_cond_Zopp.
  set (ez := Z.min e e').
  assert (He : mval (Z.pos m) e == mval (Z.pos m * 2 ^ (e - ez)) ez).
  { rewrite <- mval_shift by (unfold ez; lia).
    by replace (ez + (e - ez))%Z with e by lia. }
  destruct s; cbn [signed]; rewrite He; reflexivity.
Qed.

Lemma normalize_between M e sz v L U :
  mval M e == v -> fin L -> fin U -> sval L <= v -> v <= sval U ->
  let r := binary_normalize prec emax M e sz in
  fin r /\ sval L <= sval r /\ sval r <= sval U.
Proof.
  intros Hv HL HU HLv HvU r.
  destruct (Z.eq_dec M 0%Z) as [->|HM].
  - subst r. cbn. split; [done|].
    assert (v == 0) by (rewrite <- Hv; unfold mval; ring). split; lra.
  - pose proof (binary_normalize_correct M e sz HM) as Hr.
    pose proof (signed_abs M e HM) as Hs.
    apply (rounds_between _ _ _ L U) in Hr; try done.
    + apply mval_pos. lia.
    + rewrite Hs, Hv. done.
    + rewrite Hs, Hv. done.
Qed.

Theorem add_between x y L U :
  fin x -> fin y -> fin L -> fin U ->
  sval L <= sval x + sval y -> sval x + sval y <= sval U ->
  fin (SFadd prec emax x y) /\
  sval L <= sval (SFadd prec emax x y) /\
  sval (SFadd prec emax x y) <= sval U.
Proof.
  intros Hx Hy HL HU H1 H2.
  destruct x as [sx|sx| |sx mx ex], y as [sy|sy| |sy my ey];
    try (destruct Hx as [? _]; done); try (destruct Hy as [? _]; done).
  - assert (Hz : exists s, SFadd prec emax (S754_zero sx) (S754_zero sy) = S754_zero s)
      by (destruct sx, sy; cbn; eauto).
    destruct Hz as [s ->]. cbn [sval] in *. split; [done|]. split; lra.
  - cbn [SFadd]. cbn [sval] in *. split; [done|]. split; lra.
  - cbn [SFadd]. cbn [sval] in *. split; [done|]. split; lra.
  - cbn [SFadd].
    apply (normalize_between _ _ _
             (sval (S754_finite sx mx ex) + sval (S754_finite sy my ey)));
      try done.
    rewrite mval_add. rewrite aligned_value.
    rewrite (Z.min_comm ex ey), aligned_value. reflexivity.
Qed.

Theorem sub_between x y L U :
  fin x -> fin y -> fin L -> fin U ->
  sval L <= sval x - sval y -> sval x - sval y <= sval U ->
  fin (SFsub prec emax x y) /\
  sval L <= sval (SFsub prec emax x y) /\
  sval (SFsub prec emax x y) <= sval U.
Proof.
  intros Hx Hy HL HU H1 H2.
  destruct x as [sx|sx| |sx mx ex], y as [sy|sy| |sy my ey];
    try (destruct Hx as [? _]; done); try (destruct Hy as [? _]; done).
  - assert (Hz : exists s, SFsub prec emax (S754_zero sx) (S754_zero sy) = S754_zero s)
      by (destruct sx, sy; cbn; eauto).
    destruct Hz as [s ->]. cbn [sval] in *. split; [done|]. split; lra.
  - cbn [SFsub].
    assert (Hv : sval (S754_finite (negb sy) my ey) == - sval (S754_finite sy my ey)).
    { cbn [sval]. rewrite !mval_cond_Zopp. destruct sy; cbn [negb signed]; ring. }
    split; [by destruct Hy|]. rewrite Hv. cbn [sval] in H1, H2 |- *. split; lra.
  - cbn [SFsub]. cbn [sval] in *. split; [done|]. split; lra.
  - cbn [SFsub].
    apply (normalize_between _ _ _
             (sval (S754_finite sx mx ex) - sval (S754_finite sy my ey)));
      try done.
    rewrite mval_sub. rewrite aligned_value.
    rewrite (Z.min_comm ex ey), aligned_value. reflexivity.
Qed.

(** ** Multiplication *)

Local Close Scope Q_scope.

Lemma Zdigits2_le_iff m d :
  0 < m -> (d <= Zdigits2 m <-> 2 ^ (d - 1) <= m \/ d <= 0).
Proof.
  intros Hm. destruct (Zdigits2_bounds m Hm) as [Hl Hu].
  pose proof (Zdigits2_pos m Hm).
  split.
  - intros Hd. destruct (Z_le_gt_dec d 0); [by right|left].
    assert (2 ^ (d - 1) <= 2 ^ (Zdigits2 m - 1)) by (apply Z.pow_le_mono_r; lia).
    lia.
  - intros [Hd|Hd]; [|lia].
    destruct (Z_le_gt_dec d (Zdigits2 m)); [done|].
    assert (2 ^ Zdigits2 m <= 2 ^ (d - 1)) by (apply Z.pow_le_mono_r; lia).
    lia.
Qed.

Lemma Zdigits2_mul a b :
  0 < a -> 0 < b -> Zdigits2 a + Zdigits2 b - 1 <= Zdigits2 (a * b).
Proof.
  intros Ha Hb.
  destruct (Zdigits2_bounds a Ha) as [Hla _].
  destruct (Zdigits2_bounds b Hb) as [Hlb _].
  pose proof (Zdigits2_pos a Ha). pose proof (Zdigits2_pos b Hb).
  apply Zdigits2_le_iff; [nia|]. left.
  replace (Zdigits2 a + Zdigits2 b - 1 - 1)
    with ((Zdigits2 a - 1) + (Zdigits2 b - 1)) by lia.
  rewrite Z.pow_add_r by lia.
  assert (0 < 2 ^ (Zdigits2 a - 1)) by (apply Z.pow_pos_nonneg; lia).
  assert (0 < 2 ^ (Zdigits2 b - 1)) by (apply Z.pow_pos_nonneg; lia).
  nia.
Qed.

Lemma emin_nonpos : emin <= 0.
Proof. unfold SpecFloat.emin. lia. Qed.

Lemma grid_digits m e :
  on_grid (Z.pos m) e -> prec <= Zdigits2 (Z.pos m) \/ e = emin.
Proof.
  intros (_ & _ & [Hn|He]); [left|by right].
  apply Zdigits2_le_iff; [done|by left].
Qed.

Lemma mul_shift_nonneg mx ex my ey :
  on_grid (Z.pos mx) ex -> on_grid (Z.pos my) ey ->
  0 <= fexp (Zdigits2 (Z.pos (mx * my)) + (ex + ey)) - (ex + ey).
Proof.
  intros Hx Hy.
  pose proof (Zdigits2_mul (Z.pos mx) (Z.pos my) ltac:(done) ltac:(done)) as Hd.
  rewrite <- Pos2Z.inj_mul in Hd.
  pose proof (Zdigits2_pos (Z.pos mx) ltac:(done)).
  pose proof (Zdigits2_pos (Z.pos my) ltac:(done)).
  pose proof emin_nonpos.
  destruct (grid_digits _ _ Hx) as [Dx|Ex], (grid_digits _ _ Hy) as [Dy|Ey];
    destruct Hx as (? & _), Hy as (? & _);
    unfold SpecFloat.fexp; lia.
Qed.

Local Open Scope Q_scope.

Lemma mval_mul a ea b eb : mval (a * b) (ea + eb) == mval a ea * mval b eb.
Proof. unfold mval. rewrite inject_Z_mult, bpow_add. ring. Qed.

Lemma fin_grid s m e : fin (S754_finite s m e) -> on_grid (Z.pos m) e.
Proof. intros [_ Hv]. cbn in Hv. by apply bounded_grid in Hv as [? _]. Qed.

Lemma signed_xorb sx sy a b :
  signed (xorb sx sy) (a * b) == signed sx a * signed sy b.
Proof. destruct sx, sy; cbn [xorb signed]; ring. Qed.

Theorem mul_between x y L U :
  fin x -> fin y -> fin L -> fin U ->
  sval L <= sval x * sval y -> sval x * sval y <= sval U ->
  fin (SFmul prec emax x y) /\
  sval L <= sval (SFmul prec emax x y) /\
  sval (SFmul prec emax x y) <= sval U.
Proof.
  intros Hx Hy HL HU H1 H2.
  destruct x as [sx|sx| |sx mx ex], y as [sy|sy| |sy my ey];
    try (destruct Hx as [? _]; done); try (destruct Hy as [? _]; done);
    cbn [SFmul].
  all: try solve [cbn [sval] in *; split; [apply fin_zero|]; split; lra].
  pose proof (round_correct (xorb sx sy) (Z.pos (mx * my)) (ex + ey) loc_Exact
                (mval (Z.pos (mx * my)) (ex + ey)) ltac:(done)
                (mul_shift_nonneg mx ex my ey (fin_grid _ _ _ Hx) (fin_grid _ _ _ Hy))
                ltac:(reflexivity)) as Hr.
  assert (Hs : signed (xorb sx sy) (mval (Z.pos (mx * my)) (ex + ey))
               == sval (S754_finite sx mx ex) * sval (S754_finite sy my ey)).
  { cbn [sval]. rewrite !mval_cond_Zopp, <- signed_xorb.
    rewrite Pos2Z.inj_mul.
    destruct (xorb sx sy); cbn [signed]; rewrite mval_mul; reflexivity. }
  apply (rounds_between _ _ _ L U) in Hr; try done.
  - by apply mval_pos.
  - by rewrite Hs.
  - by rewrite Hs.
Qed.

(** ** Division *)

Local Close Scope Q_scope.

Lemma new_location_exact nb k :
  new_location nb k = loc_Exact <-> k = 0.
Proof.
  unfold new_location, new_location_even, new_location_odd.
  destruct (Z.even nb), (Z.eqb_spec k 0); intuition discriminate.
Qed.

Lemma quotient_digits a b j :
  0 < a -> 0 < b -> 0 <= j ->
  Zdigits2 a + j - Zdigits2 b <= Zdigits2 (a * 2 ^ j / b).
Proof.
  intros Ha Hb Hj. set (q := a * 2 ^ j / b).
  pose proof (Zdigits2_nonneg q).
  destruct (Z_le_gt_dec (Zdigits2 a + j - Zdigits2 b) 0) as [|Hd]; [lia|].
  assert (0 < 2 ^ j) by (apply Z.pow_pos_nonneg; lia).
  destruct (Zdigits2_bounds (a * 2 ^ j) ltac:(nia)) as [Hl _].
  rewrite Zdigits2_shift in Hl by lia.
  destruct (Zdigits2_bounds b Hb) as [_ Hu].
  pose proof (Zdigits2_pos b Hb).
  assert (Hq : 2 ^ (Zdigits2 a + j - Zdigits2 b - 1) <= q).
  { apply Z.div_le_lower_bound; [done|].
    assert (0 < 2 ^ (Zdigits2 a + j - Zdigits2 b - 1))
      by (apply Z.pow_pos_nonneg; lia).
    assert (2 ^ (Zdigits2 a + j - 1)
            = 2 ^ Zdigits2 b * 2 ^ (Zdigits2 a + j - Zdigits2 b - 1)).
    { rewrite <- Z.pow_add_r by lia. f_equal. lia. }
    nia. }
  assert (0 < q).
  { assert (0 < 2 ^ (Zdigits2 a + j - Zdigits2 b - 1))
      by (apply Z.pow_pos_nonneg; lia). lia. }
  apply Zdigits2_le_iff; [done|by left].
Qed.

Local Open Scope Q_scope.

Lemma div_core_spec mx ex my ey :
  let res := SFdiv_core_binary prec emax (Z.pos mx) ex (Z.pos my) ey in
  (0 <= res.1.1)%Z /\
  (0 <= fexp (Zdigits2 res.1.1 + res.1.2) - res.1.2)%Z /\
  denotes res.1.1 res.1.2 res.2 (mval (Z.pos mx) ex / mval (Z.pos my) ey).
Proof.
  unfold SFdiv_core_binary.
  set (d1 := Zdigits2 (Z.pos mx)). set (d2 := Zdigits2 (Z.pos my)).
  set (e' := Z.min (fexp (d1 + ex - (d2 + ey))) (ex - ey)).
  set (j := (ex - ey - e')%Z).
  assert (Hj : (0 <= j)%Z) by (unfold j, e'; lia).
  set (m' := match j with
             | 0%Z => Z.pos mx
             | Z.pos _ => Z.shiftl (Z.pos mx) j
             | Z.neg _ => 0%Z
             end).
  assert (Hm' : m' = (Z.pos mx * 2 ^ j)%Z).
  { unfold m'. destruct j as [|p|p] eqn:Ej; [lia| |lia].
    by rewrite Z.shiftl_mul_pow2. }
  pose proof (Z_div_mod m' (Z.pos my) ltac:(done)) as Hdm.
  destruct (Z.div_eucl m' (Z.pos my)) as [q r] eqn:Ediv.
  destruct Hdm as [Heq Hr]. cbn [fst snd].
  assert (Hq : q = (Z.pos mx * 2 ^ j / Z.pos my)%Z).
  { rewrite <- Hm'. unfold Z.div. by rewrite Ediv. }
  assert (H2j : (0 < 2 ^ j)%Z) by (apply Z.pow_pos_nonneg; lia).
  split_and!.
  - rewrite Hq. apply Z.div_pos; lia.
  - pose proof (quotient_digits (Z.pos mx) (Z.pos my) j
                  ltac:(done) ltac:(done) Hj) as Hd.
    rewrite <- Hq in Hd. fold d1 d2 in Hd.
    pose proof (fexp_mono (d1 + ex - (d2 + ey)) (Zdigits2 q + e')
                  ltac:(unfold j in Hd; lia)).
    unfold e' at 2. lia.
  - set (D := mval (Z.pos my) ey).
    assert (HD : 0 < D) by (by apply mval_pos).
    assert (Hnum : mval (Z.pos mx) ex == mval m' (e' + ey)).
    { rewrite Hm'. rewrite <- mval_shift by done.
      by replace (e' + ey + j)%Z with ex by (unfold j; lia). }
    assert (Hqd : forall z, mval z e' * D == mval (z * Z.pos my) (e' + ey)).
    { intros z. unfold D. by rewrite mval_mul. }
    destruct (new_location (Z.pos my) r) as [|c] eqn:El; cbn [denotes].
    + apply new_location_exact in El. subst r.
      assert (HE : mval (Z.pos mx) ex == mval q e' * D).
      { rewrite Hqd, Hnum. by replace m' with (q * Z.pos my)%Z by lia. }
      rewrite HE. field. lra.
    + assert (r <> 0%Z).
      { intros ->. by rewrite (proj2 (new_location_exact _ _) eq_refl) in El. }
      split.
      * apply Qlt_shift_div_l; [done|].
        rewrite Hqd, Hnum. apply mval_lt. lia.
      * apply Qlt_shift_div_r; [done|].
        rewrite Hqd, Hnum. apply mval_lt. lia.
Qed.

Theorem div_between x sy my ey L U :
  fin x -> fin (S754_finite sy my ey) -> fin L -> fin U ->
  sval L <= sval x / sval (S754_finite sy my ey) ->
  sval x / sval (S754_finite sy my ey) <= sval U ->
  fin (SFdiv prec emax x (S754_finite sy my ey)) /\
  sval L <= sval (SFdiv prec emax x (S754_finite sy my ey)) /\
  sval (SFdiv prec emax x (S754_finite sy my ey)) <= sval U.
Proof.
  intros Hx Hy HL HU H1 H2.
  destruct x as [sx|sx| |sx mx ex]; try (destruct Hx as [? _]; done);
    cbn [SFdiv].
  - assert (Hz : sval (S754_zero sx) / sval (S754_finite sy my ey) == 0)
      by (cbn [sval]; unfold Qdiv; ring).
    rewrite Hz in H1, H2. cbn [sval]. split; [apply fin_zero|]. split; lra.
  - destruct (div_core_spec mx ex my ey) as (Hq & Hk & Hd).
    destruct (SFdiv_core_binary prec emax (Z.pos mx) ex (Z.pos my) ey)
      as [[mz ez] lz]. cbn [fst snd] in Hq, Hk, Hd.
    pose proof (round_correct (xorb sx sy) mz ez lz _ Hq Hk Hd) as Hr.
    assert (HX : 0 < mval (Z.pos mx) ex) by (by apply mval_pos).
    assert (HY : 0 < mval (Z.pos my) ey) by (by apply mval_pos).
    assert (Hs : signed (xorb sx sy) (mval (Z.pos mx) ex / mval (Z.pos my) ey)
                 == sval (S754_finite sx mx ex) / sval (S754_finite sy my ey)).
    { cbn [sval]. rewrite !mval_cond_Zopp.
      destruct sx, sy; cbn [xorb signed]; field; lra. }
    apply (rounds_between _ _ _ L U) in Hr; try done.
    + apply Qlt_shift_div_l; [done|]. lra.
    + by rewrite Hs.
    + by rewrite Hs.
Qed.

(** ** The rounding error of a sum or difference *)

Lemma bounded_one_emin : bounded prec emax 1 emin = true.
Proof.
  unfold bounded, canonical_mantissa. cbn [digits2_pos].
  apply andb_true_iff. split; [apply Z.eqb_eq|apply Z.leb_le];
    unfold SpecFloat.fexp, SpecFloat.emin; lia.
Qed.

Lemma rounds_error s x r :
  0 < x -> rounds s x r -> isfinite r = true ->
  Qabs (sval r - signed s x) <= bpow (1 - prec) * x + bpow emin.
Proof.
  intros Hx Hr Hf.
  pose proof (bpow_pos (1 - prec)) as Hb.
  assert (0 <= bpow (1 - prec) * x) by (apply Qmult_le_0_compat; lra).
  destruct r as [s'|s'| |s' m e]; cbn [rounds isfinite] in *; try done.
  - destruct Hr as [-> Hr]. cbn [sval].
    assert (x < bpow emin).
    { apply Qnot_le_lt. intros Hle. apply (Hr 1%positive emin bounded_one_emin).
      unfold mval. change (inject_Z 1) with 1. lra. }
    destruct s; cbn [signed]; apply Qabs_case; intros _; lra.
  - destruct Hr as (-> & _ & _ & _ & He).
    destruct s; cbn [signed sval cond_Zopp].
    + rewrite mval_opp.
      assert (Heq : - mval (Z.pos m) e - - x == - (mval (Z.pos m) e - x)) by ring.
      by rewrite Heq, Qabs_opp.
    + done.
Qed.

Lemma abs_error_exact v : Qabs (v - v) <= bpow (1 - prec) * Qabs v + bpow emin.
Proof.
  pose proof (bpow_pos (1 - prec)). pose proof (bpow_pos emin).
  pose proof (Qabs_nonneg v).
  assert (0 <= bpow (1 - prec) * Qabs v) by (apply Qmult_le_0_compat; lra).
  assert (Hz : v - v == 0) by ring. rewrite Hz.
  rewrite (Qabs_pos 0); lra.
Qed.

Lemma normalize_error M e sz v :
  mval M e == v ->
  isfinite (binary_normalize prec emax M e sz) = true ->
  Qabs (sval (binary_normalize prec emax M e sz) - v)
  <= bpow (1 - prec) * Qabs v + bpow emin.
Proof.
  intros Hv Hf. pose proof (bpow_pos emin).
  destruct (Z.eq_dec M 0%Z) as [->|HM].
  - change (binary_normalize prec emax 0 e sz) with (S754_zero sz).
    cbn [sval].
    assert (Hv0 : v == 0) by (rewrite <- Hv; unfold mval; ring).
    assert (He : 0 - v == v - v) by (rewrite Hv0; ring).
    rewrite He. apply abs_error_exact.
  - pose proof (binary_normalize_correct M e sz HM) as Hr.
    pose proof (signed_abs M e HM) as Hs.
    apply rounds_error in Hr; [|apply mval_pos; lia|done].
    rewrite Hs, Hv in Hr.
    assert (Ha : mval (Z.abs M) e == Qabs v).
    { rewrite <- Hv. destruct M as [|p|p]; [done| |].
      - cbn [Z.abs]. rewrite Qabs_pos; [reflexivity|].
        apply Qlt_le_weak. by apply mval_pos.
      - cbn [Z.abs]. change (Z.neg p) with (- Z.pos p)%Z.
        rewrite mval_opp, Qabs_opp, Qabs_pos; [reflexivity|].
        apply Qlt_le_weak. by apply mval_pos. }
    by rewrite Ha in Hr.
Qed.

Theorem add_error x y :
  isfinite x = true -> isfinite y = true ->
  isfinite (SFadd prec emax x y) = true ->
  Qabs (sval (SFadd prec emax x y) - (sval x + sval y))
  <= bpow (1 - prec) * Qabs (sval x + sval y) + bpow emin.
Proof.
  intros Hx Hy.
  destruct x as [sx|sx| |sx mx ex], y as [sy|sy| |sy my ey]; try done.
  - intros _.
    assert (Hz : exists s, SFadd prec emax (S754_zero sx) (S754_zero sy) = S754_zero s)
      by (destruct sx, sy; cbn; eauto).
    destruct Hz as [s ->]. cbn [sval].
    assert (He : 0 - (0 + 0) == (0 + 0) - (0 + 0)) by ring.
    rewrite He. apply abs_error_exact.
  - intros _. cbn [SFadd]. cbn [sval].
    set (v := mval _ _).
    assert (He : v - (0 + v) == (0 + v) - (0 + v)) by ring.
    rewrite He. apply abs_error_exact.
  - intros _. cbn [SFadd]. cbn [sval].
    set (v := mval _ _).
    assert (He : v - (v + 0) == (v + 0) - (v + 0)) by ring.
    rewrite He. apply abs_error_exact.
  - cbn [SFadd]. apply normalize_error.
    rewrite mval_add. rewrite aligned_value.
    rewrite (Z.min_comm ex ey), aligned_value. reflexivity.
Qed.

Theorem sub_error x y :
  isfinite x = true -> isfinite y = true ->
  isfinite (SFsub prec emax x y) = true ->
  Qabs (sval (SFsub prec emax x y) - (sval x - sval y))
  <= bpow (1 - prec) * Qabs (sval x - sval y) + bpow emin.
Proof.
  intros Hx Hy.
  destruct x as [sx|sx| |sx mx ex], y as [sy|sy| |sy my ey]; try done.
  - intros _.
    assert (Hz : exists s, SFsub prec emax (S754_zero sx) (S754_zero sy) = S754_zero s)
      by (destruct sx, sy; cbn; eauto).
    destruct Hz as [s ->]. cbn [sval].
    assert (He : 0 - (0 - 0) == (0 - 0) - (0 - 0)) by ring.
    rewrite He. apply abs_error_exact.
  - intros _. cbn [SFsub].
    assert (Hv : sval (S754_finite (negb sy) my ey)
                 == sval (S754_zero sx) - sval (S754_finite sy my ey)).
    { cbn [sval]. rewrite !mval_cond_Zopp. destruct sy; cbn [negb signed]; ring. }
    rewrite Hv. apply abs_error_exact.
  - intros _. cbn [SFsub]. cbn [sval].
    set (v := mval _ _).
    assert (He : v - (v - 0) == (v - 0) - (v - 0)) by ring.
    rewrite He. apply abs_error_exact.
  - cbn [SFsub]. apply normalize_error.
    rewrite mval_sub. rewrite aligned_value.
    rewrite (Z.min_comm ex ey), aligned_value. reflexivity.
Qed.

(** ** Comparison is the order of the values *)

Lemma grid_exponent_lt m1 e1 m2 e2 :
  on_grid (Z.pos m1) e1 -> on_grid (Z.pos m2) e2 -> (e1 < e2)%Z ->
  mval (Z.pos m1) e1 < mval (Z.pos m2) e2.
Proof.
  intros H1 H2 He. apply Qnot_le_lt. intros Hle.
  pose proof (canonical_exponent_le m2 e2 m1 e1 H2 H1 Hle). lia.
Qed.

Lemma Qcompare_Lt a b : a < b -> (a ?= b) = Lt.
Proof. by rewrite Qlt_alt. Qed.

Lemma Qcompare_Gt a b : b < a -> (a ?= b) = Gt.
Proof. by rewrite Qgt_alt. Qed.

Lemma Qcompare_Eq a b : a == b -> (a ?= b) = Eq.
Proof. by rewrite Qeq_alt. Qed.

Theorem compare_sval x y :
  fin x -> fin y -> SFcompare x y = Some (sval x ?= sval y).
Proof.
  intros Hx Hy.
  destruct x as [sx|sx| |sx mx ex], y as [sy|sy| |sy my ey];
    try (destruct Hx as [? _]; done); try (destruct Hy as [? _]; done).
  - cbn [SFcompare]. f_equal. symmetry.
    destruct sy; norm_sval; [apply Qcompare_Gt|apply Qcompare_Lt]; lra.
  - cbn [SFcompare]. f_equal. symmetry.
    destruct sx; norm_sval; [apply Qcompare_Lt|apply Qcompare_Gt]; lra.
  - pose proof (fin_grid _ _ _ Hx) as Gx. pose proof (fin_grid _ _ _ Hy) as Gy.
    cbn [SFcompare]. f_equal. symmetry.
    destruct sx, sy; norm_sval.
    + destruct (Z.compare_spec ex ey) as [->|Hlt|Hgt].
      * change (Pos.compare_cont Eq mx my) with (Pos.compare mx my).
        destruct (Pos.compare_spec mx my) as [->|Hm|Hm]; cbn [CompOpp].
        -- by apply Qcompare_Eq.
        -- apply Qcompare_Gt.
           pose proof (mval_lt (Z.pos mx) (Z.pos my) ey ltac:(lia)). lra.
        -- apply Qcompare_Lt.
           pose proof (mval_lt (Z.pos my) (Z.pos mx) ey ltac:(lia)). lra.
      * apply Qcompare_Gt.
        pose proof (grid_exponent_lt _ _ _ _ Gx Gy Hlt). lra.
      * apply Qcompare_Lt.
        pose proof (grid_exponent_lt _ _ _ _ Gy Gx Hgt). lra.
    + apply Qcompare_Lt. lra.
    + apply Qcompare_Gt. lra.
    + destruct (Z.compare_spec ex ey) as [->|Hlt|Hgt].
      * change (Pos.compare_cont Eq mx my) with (Pos.compare mx my).
        destruct (Pos.compare_spec mx my) as [->|Hm|Hm].
        -- by apply Qcompare_Eq.
        -- apply Qcompare_Lt.
           pose proof (mval_lt (Z.pos mx) (Z.pos my) ey ltac:(lia)). lra.
        -- apply Qcompare_Gt.
           pose proof (mval_lt (Z.pos my) (Z.pos mx) ey ltac:(lia)). lra.
      * apply Qcompare_Lt.
        pose proof (grid_exponent_lt _ _ _ _ Gx Gy Hlt). lra.
      * apply Qcompare_Gt.
        pose proof (grid_exponent_lt _ _ _ _ Gy Gx Hgt). lra.
Qed.

Theorem leb_sval x y : fin x -> fin y -> (leb x y = true <-> sval x <= sval y).
Proof.
  intros Hx Hy. unfold leb, SFleb. rewrite (compare_sval x y Hx Hy).
  rewrite Qle_alt. destruct (sval x ?= sval y); intuition congruence.
Qed.

Theorem ltb_sval x y : fin x -> fin y -> (ltb x y = true <-> sval x < sval y).
Proof.
  intros Hx Hy. unfold ltb, SFltb. rewrite (compare_sval x y Hx Hy).
  rewrite Qlt_alt. destruct (sval x ?= sval y); intuition congruence.
Qed.

(** Two values of the format with the same value and sign bit are the same
    float. *)
Theorem sval_inj s m1 e1 m2 e2 :
  fin (S754_finite s m1 e1) -> fin (S754_finite s m2 e2) ->
  sval (S754_finite s m1 e1) == sval (S754_finite s m2 e2) ->
  S754_finite s m1 e1 = S754_finite s m2 e2.
Proof.
  intros H1 H2 Hv.
  pose proof (compare_sval _ _ H1 H2) as Hc.
  rewrite (Qcompare_Eq _ _ Hv) in Hc. cbn [SFcompare] in Hc.
  injection Hc as Hc.
  assert (e1 = e2 /\ m1 = m2) as [-> ->]; [|done].
  destruct s; destruct (Z.compare_spec e1 e2) as [->|?|?]; try done;
    change (Pos.compare_cont Eq m1 m2) with (Pos.compare m1 m2) in Hc;
    destruct (Pos.compare_spec m1 m2) as [->|?|?]; done.
Qed.

End Format.
End RoundSpec.

(** Files and granules of the example world. *)
Module MoreExamples.
Import Float Py Np Xr Vegind VegIndClass Examples.

Definition flist_two : list string := ["/data/b.hdf"; "/data/a.hdf"]%string.

Definition grans_two : list Granule :=
  [[px 11 21 200 0 400 1; px 0 0 32767 255 32767 255];
   [px 10 20 100 0 300 0]].

Definition sorted_listing (pattern : string) : list string :=
  ["/data/a.hdf"; "/data/b.hdf"]%string.

(** A grid of one row and two cells: with the edges of the example
    world the second cell, from 180 to 540 degrees east, gets no pixel. *)
Definition wide : Dataset :=
  {| sizes := {[ "lat" := 1%nat; "lon" := 2%nat ]};
     coords := ∅;
     data_vars :=
       {[ "NDVI" := {| var_dims := ["lat"; "lon"]%string;
                       var_dtype := float32;
                       var_values := [[nan; nan]];
                       var_attrs := ∅ |} ]};
     attrs := {[ "input_files" := ""%string ]} |}.

Definition store_wide : store := {[ 1%positive := wide ]}.

(** A directory whose second file cannot be read. *)
Definition world_broken : World :=
  {| NTYPE := 18;
     edges_lat := lat_edge;
     edges_lon := lon_edge;
     glob := fun _ => ["/data/a.hdf"; "/data/bad.hdf"; "/data/b.hdf"]%string;
     open_rasterio := fun ff =>
       if String.eqb ff "/data/bad.hdf" then Raise OSError
       else Ok [px 10 20 100 0 300 0] |}.

(** A configuration with one land cover class more than the tables of
    percentiles have entries. *)
Definition world_19 : World :=
  {| NTYPE := 19;
     edges_lat := lat_edge;
     edges_lon := lon_edge;
     glob := fun _ => [];
     open_rasterio := fun _ => Raise OSError |}.

End MoreExamples.


(* ===================================================================== *)
(** * Integers in floating point: sums of small integers are exact       *)
(* ===================================================================== *)

Module ExactInt.
Import Float FloatFacts Rounding RoundSpec.

Section Format.
Variables prec emax : Z.
Hypothesis Hprec : 0 < prec.
Hypothesis Hemax : prec < emax.

Abbreviation emin := (SpecFloat.emin prec emax).
Abbreviation fexp := (SpecFloat.fexp prec emax).
Abbreviation fin := (RoundSpec.fin prec emax).

(** The conversion of an integer to the format. *)
Definition N (z : Z) : spec_float := binary_normalize prec emax z 0 false.

Lemma int_repr z :
  0 < z < 2 ^ prec ->
  exists m e,
    bounded prec emax m e = true /\ (mval (Z.pos m) e == inject_Z z)%Q.
Proof.
  intros [Hz0 Hz1]. set (d := Zdigits2 z).
  destruct (Zdigits2_bounds z Hz0) as [Hl Hu]. fold d in Hl, Hu.
  pose proof (Zdigits2_pos z Hz0) as Hd. fold d in Hd.
  assert (d <= prec).
  { destruct (Z_le_gt_dec d prec); [done|].
    assert (2 ^ prec <= 2 ^ (d - 1)) by (apply Z.pow_le_mono_r; lia). lia. }
  assert (Hp : 0 < z * 2 ^ (prec - d)).
  { assert (0 < 2 ^ (prec - d)) by (apply Z.pow_pos_nonneg; lia). nia. }
  exists (Z.to_pos (z * 2 ^ (prec - d))), (d - prec). split.
  - unfold bounded, canonical_mantissa. apply andb_true_iff. split.
    + apply Z.eqb_eq.
      change (Z.pos (digits2_pos ?p)) with (Zdigits2 (Z.pos p)).
      rewrite Z2Pos.id by done. rewrite Zdigits2_shift by lia. fold d.
      unfold SpecFloat.fexp, SpecFloat.emin. lia.
    + apply Z.leb_le. lia.
  - rewrite Z2Pos.id by done.
    rewrite <- mval_shift by lia.
    replace (d - prec + (prec - d)) with 0 by lia.
    unfold mval. rewrite bpow_0. ring.
Qed.

Lemma int_repr_signed z :
  Z.abs z < 2 ^ prec ->
  exists F, fin F /\ (sval F == inject_Z z)%Q.
Proof.
  intros Hz. destruct z as [|p|p].
  - exists (S754_zero false). done.
  - destruct (int_repr (Z.pos p) ltac:(lia)) as (m & e & Hb & Hv).
    exists (S754_finite false m e). done.
  - destruct (int_repr (Z.pos p) ltac:(lia)) as (m & e & Hb & Hv).
    exists (S754_finite true m e). split; [done|].
    cbn [sval cond_Zopp]. rewrite mval_opp, Hv.
    change (Z.neg p) with (- Z.pos p). by rewrite inject_Z_opp.
Qed.

Theorem N_exact z :
  Z.abs z < 2 ^ prec -> fin (N z) /\ (sval (N z) == inject_Z z)%Q.
Proof.
  intros Hz. destruct (int_repr_signed z Hz) as (F & HF & Hv).
  destruct (normalize_between prec emax Hprec Hemax z 0 false (inject_Z z) F F)
    as (Hfin & Hlo & Hhi); try done.
  - unfold mval. rewrite bpow_0. ring.
  - by rewrite Hv; apply Qle_refl.
  - by rewrite Hv; apply Qle_refl.
  - split; [done|]. apply Qle_antisym; by rewrite <- Hv.
Qed.

(** A value of the format that is not zero is determined by its value. *)
Theorem fin_eq_nonzero x y :
  fin x -> fin y -> (sval x == sval y)%Q -> ~ (sval x == 0)%Q -> x = y.
Proof.
  intros Hx Hy Hv Hne.
  assert (Hney : ~ (sval y == 0)%Q) by (by rewrite <- Hv).
  destruct x as [sx|sx| |sx mx ex], y as [sy|sy| |sy my ey];
    try (destruct Hx as [? _]; done); try (destruct Hy as [? _]; done);
    try (by destruct Hne); try (by destruct Hney).
  assert (sx = sy) as ->.
  { pose proof (mval_pos (Z.pos mx) ex eq_refl).
    pose proof (mval_pos (Z.pos my) ey eq_refl).
    cbn [sval] in Hv. rewrite !mval_cond_Zopp in Hv.
    destruct sx, sy; cbn [signed] in Hv; try done; lra. }
  by apply (sval_inj prec emax Hprec).
Qed.

Lemma mval_zero_inv M e : (mval M e == 0)%Q -> M = 0.
Proof.
  intros H. destruct (Z.lt_trichotomy M 0) as [Hn|[->|Hp]]; [|done|].
  - pose proof (mval_pos (- M) e ltac:(lia)) as Hpos.
    rewrite mval_opp in Hpos. lra.
  - pose proof (mval_pos M e Hp). lra.
Qed.

Theorem add_int a b :
  Z.abs a < 2 ^ prec -> Z.abs b < 2 ^ prec -> Z.abs (a + b) < 2 ^ prec ->
  SFadd prec emax (N a) (N b) = N (a + b).
Proof.
  intros Ha Hb Hab.
  destruct (N_exact a Ha) as [Fa Va], (N_exact b Hb) as [Fb Vb],
           (N_exact (a + b) Hab) as [Fab Vab].
  assert (Hsum : (sval (N a) + sval (N b) == inject_Z (a + b))%Q)
    by (by rewrite Va, Vb, inject_Z_plus).
  destruct (add_between prec emax Hprec Hemax (N a) (N b) (N (a + b)) (N (a + b)))
    as (Fr & Hlo & Hhi); try done.
  { rewrite Vab, Hsum. apply Qle_refl. }
  { rewrite Vab, Hsum. apply Qle_refl. }
  assert (Vr : (sval (SFadd prec emax (N a) (N b)) == inject_Z (a + b))%Q).
  { rewrite <- Vab. by apply Qle_antisym. }
  destruct (Z.eq_dec (a + b) 0) as [Hz|Hnz].
  - rewrite Hz. change (N 0) with (S754_zero false).
    destruct (Z.eq_dec a 0) as [->|Hna].
    { assert (b = 0) as -> by lia. reflexivity. }
    assert (Hnb : b <> 0) by lia.
    assert (Hva : ~ (sval (N a) == 0)%Q).
    { rewrite Va. change 0%Q with (inject_Z 0). rewrite inject_Z_injective. done. }
    assert (Hvb : ~ (sval (N b) == 0)%Q).
    { rewrite Vb. change 0%Q with (inject_Z 0). rewrite inject_Z_injective. done. }
    rewrite Hz in Hsum. change (inject_Z 0) with 0%Q in Hsum.
    destruct (N a) as [sx|sx| |sx mx ex], (N b) as [sy|sy| |sy my ey];
      try (destruct Fa as [? _]; done); try (destruct Fb as [? _]; done);
      try (by destruct Hva); try (by destruct Hvb).
    cbn [SFadd].
    set (M := (cond_Zopp sx _ + cond_Zopp sy _)).
    assert (M = 0) as ->; [|reflexivity].
    apply (mval_zero_inv M (Z.min ex ey)). unfold M.
    rewrite mval_add, aligned_value, (Z.min_comm ex ey), aligned_value.
    done.
  - apply fin_eq_nonzero; try done.
    + by rewrite Vr, Vab.
    + rewrite Vr. change 0%Q with (inject_Z 0). by rewrite inject_Z_injective.
Qed.

Theorem sub_int a b :
  Z.abs a < 2 ^ prec -> Z.abs b < 2 ^ prec -> Z.abs (a - b) < 2 ^ prec ->
  SFsub prec emax (N a) (N b) = N (a - b).
Proof.
  intros Ha Hb Hab.
  destruct (N_exact a Ha) as [Fa Va], (N_exact b Hb) as [Fb Vb],
           (N_exact (a - b) Hab) as [Fab Vab].
  assert (Hdiff : (sval (N a) - sval (N b) == inject_Z (a - b))%Q).
  { rewrite Va, Vb. unfold Z.sub. rewrite inject_Z_plus, inject_Z_opp. ring. }
  destruct (sub_between prec emax Hprec Hemax (N a) (N b) (N (a - b)) (N (a - b)))
    as (Fr & Hlo & Hhi); try done.
  { rewrite Vab, Hdiff. apply Qle_refl. }
  { rewrite Vab, Hdiff. apply Qle_refl. }
  assert (Vr : (sval (SFsub prec emax (N a) (N b)) == inject_Z (a - b))%Q).
  { rewrite <- Vab. by apply Qle_antisym. }
  destruct (Z.eq_dec (a - b) 0) as [Hz|Hnz].
  - rewrite Hz. change (N 0) with (S754_zero false).
    destruct (Z.eq_dec a 0) as [->|Hna].
    { assert (b = 0) as -> by lia. reflexivity. }
    assert (Hnb : b <> 0) by lia.
    assert (Hva : ~ (sval (N a) == 0)%Q).
    { rewrite Va. change 0%Q with (inject_Z 0). rewrite inject_Z_injective. done. }
    assert (Hvb : ~ (sval (N b) == 0)%Q).
    { rewrite Vb. change 0%Q with (inject_Z 0). rewrite inject_Z_injective. done. }
    rewrite Hz in Hdiff. change (inject_Z 0) with 0%Q in Hdiff.
    destruct (N a) as [sx|sx| |sx mx ex], (N b) as [sy|sy| |sy my ey];
      try (destruct Fa as [? _]; done); try (destruct Fb as [? _]; done);
      try (by destruct Hva); try (by destruct Hvb).
    cbn [SFsub].
    set (M := (cond_Zopp sx _ - cond_Zopp sy _)).
    assert (M = 0) as ->; [|reflexivity].
    apply (mval_zero_inv M (Z.min ex ey)). unfold M.
    rewrite mval_sub, aligned_value, (Z.min_comm ex ey), aligned_value.
    done.
  - apply fin_eq_nonzero; try done.
    + by rewrite Vr, Vab.
    + rewrite Vr. change 0%Q with (inject_Z 0). by rewrite inject_Z_injective.
Qed.

End Format.
End ExactInt.

(* ===================================================================== *)
(** * The accumulators hold exact integers                                *)
(* ===================================================================== *)

Module SumFacts.
Import Float Py Np Xr Vegind VegIndClass ArrayFacts AggFacts ExactInt.

Lemma prec64 : 0 < prec float64 /\ prec float64 < emax float64.
Proof. done. Qed.

Lemma add64_int a b :
  Z.abs a < 2 ^ 53 -> Z.abs b < 2 ^ 53 -> Z.abs (a + b) < 2 ^ 53 ->
  add float64 (of_Z float64 a) (of_Z float64 b) = of_Z float64 (a + b).
Proof. apply (add_int 53 1024); done. Qed.

Definition sum_abs (l : list Z) : Z := foldr (fun z acc => Z.abs z + acc) 0 l.

Lemma sum_abs_nonneg l : 0 <= sum_abs l.
Proof. induction l; simpl; lia. Qed.

Lemma sumZ_abs l : Z.abs (sumZ l) <= sum_abs l.
Proof. induction l; simpl; lia. Qed.

Lemma sumZ_app l k : sumZ (l ++ k) = sumZ l + sumZ k.
Proof. induction l; simpl; lia. Qed.

Lemma sumZ_perm l k : l ≡ₚ k -> sumZ l = sumZ k.
Proof. induction 1; simpl; lia. Qed.

Lemma fold_add_int (zs : list Z) : forall a,
  Z.abs a + sum_abs zs < 2 ^ 53 ->
  fold_left (add float64) (of_Z float64 <$> zs) (of_Z float64 a)
  = of_Z float64 (a + sumZ zs).
Proof.
  induction zs as [|z zs IH]; intros a Hb.
  - simpl. by rewrite Z.add_0_r.
  - rewrite fmap_cons. cbn [fold_left].
    change (sum_abs (z :: zs)) with (Z.abs z + sum_abs zs) in Hb.
    change (sumZ (z :: zs)) with (z + sumZ zs).
    pose proof (sum_abs_nonneg zs).
    rewrite add64_int by lia. rewrite IH by lia. f_equal. lia.
Qed.

(** ** Bounds on what a granule of [int16] pixels can add *)

Lemma sum_abs_bound {A} (band : A -> Z) (c : Z) (l : list A) :
  Forall (fun p => Z.abs (band p) <= c) l ->
  sum_abs (band <$> l) <= c * Z.of_nat (length l).
Proof.
  induction 1 as [|p l Hp _ IH]; [simpl; lia|].
  rewrite fmap_cons. change (sum_abs (?z :: ?zs)) with (Z.abs z + sum_abs zs).
  cbn [length]. lia.
Qed.

Lemma filter_length_le {A} (P : A -> bool) (l : list A) :
  (length (List.filter P l) <= length l)%nat.
Proof. induction l as [|a l IH]; simpl; [lia|]. destruct (P a); simpl; lia. Qed.

Lemma filter_Forall {A} (Q : A -> Prop) (P : A -> bool) (l : list A) :
  Forall Q l -> Forall Q (List.filter P l).
Proof.
  induction 1 as [|a l Ha _ IH]; simpl; [constructor|].
  destruct (P a); [by constructor|done].
Qed.

Lemma cell_pixels_length late lone i j (g : Granule) :
  (length (cell_pixels late lone i j g) <= length g)%nat.
Proof.
  unfold cell_pixels.
  etrans; [apply filter_length_le|apply filter_length_le].
Qed.

Lemma cell_pixels_wf late lone i j (g : Granule) :
  Forall wf_pixel g -> Forall wf_pixel (cell_pixels late lone i j g).
Proof. intros H. unfold cell_pixels. by do 2 apply filter_Forall. Qed.

(** The two bands the loop sums. *)
Definition is_band (band : Pixel -> Z) : Prop := band = redin \/ band = nirin.

Lemma band_bound band (g : list Pixel) :
  is_band band -> Forall wf_pixel g ->
  Forall (fun p => Z.abs (band p) <= 32768) g.
Proof.
  intros Hb Hwf. eapply Forall_impl; [exact Hwf|].
  intros p (Hr & Hn & _).
  unfold int16 in *. destruct Hb as [-> | ->]; lia.
Qed.

Lemma cell_total_bound band late lone i j (g : Granule) :
  is_band band -> Forall wf_pixel g ->
  sum_abs (band <$> cell_pixels late lone i j g)
  <= 32768 * Z.of_nat (length g).
Proof.
  intros Hb Hwf.
  pose proof (sum_abs_bound band 32768 _
                (band_bound band _ Hb (cell_pixels_wf late lone i j g Hwf))).
  pose proof (cell_pixels_length late lone i j g). lia.
Qed.

Lemma gran_sum_exact band late lone i j (g : Granule) :
  is_band band -> Forall wf_pixel g ->
  32768 * Z.of_nat (length g) < 2 ^ 53 ->
  gran_sum band late lone i j g
  = of_Z float64 (cell_total band late lone i j g).
Proof.
  intros Hb Hwf Hsz. unfold gran_sum, cell_total.
  rewrite (list_fmap_compose band (of_Z float64)).
  change zero with (of_Z float64 0).
  rewrite fold_add_int; [done|].
  pose proof (cell_total_bound band late lone i j g Hb Hwf). lia.
Qed.

Lemma total_pixels_cons g grans :
  total_pixels (g :: grans) = Z.of_nat (length g) + total_pixels grans.
Proof. reflexivity. Qed.

Lemma total_pixels_nonneg grans : 0 <= total_pixels grans.
Proof.
  induction grans as [|g grans IH]; [done|]. rewrite total_pixels_cons. lia.
Qed.

Lemma total_pixels_app g1 g2 :
  total_pixels (g1 ++ g2) = total_pixels g1 + total_pixels g2.
Proof. unfold total_pixels. by rewrite fmap_app, sumZ_app. Qed.

Lemma total_pixels_perm g1 g2 : g1 ≡ₚ g2 -> total_pixels g1 = total_pixels g2.
Proof. intros H. unfold total_pixels. apply sumZ_perm. by rewrite H. Qed.

(** What the granules add to a cell, as integers. *)
Lemma cell_totals_exact band late lone i j (grans : list Granule) :
  is_band band -> Forall (Forall wf_pixel) grans ->
  32768 * total_pixels grans < 2 ^ 53 ->
  gran_sum band late lone i j <$> grans
  = of_Z float64 <$> (cell_total band late lone i j <$> grans) /\
  sum_abs (cell_total band late lone i j <$> grans)
  <= 32768 * total_pixels grans.
Proof.
  intros Hb Hwf. induction Hwf as [|g grans Hg _ IH]; intros Hsz.
  - by rewrite !fmap_nil.
  - rewrite total_pixels_cons in Hsz |- *.
    pose proof (total_pixels_nonneg grans).
    destruct IH as [IH1 IH2]; [lia|].
    rewrite !fmap_cons, IH1, gran_sum_exact by (done || lia).
    split; [done|].
    change (sum_abs (?z :: ?zs)) with (Z.abs z + sum_abs zs).
    pose proof (sumZ_abs (band <$> cell_pixels late lone i j g)).
    pose proof (cell_total_bound band late lone i j g Hb Hg).
    unfold cell_total at 1. lia.
Qed.

Lemma cell_counts_bound late lone i j (grans : list Granule) :
  sum_abs (cell_count late lone i j <$> grans) <= total_pixels grans.
Proof.
  induction grans as [|g grans IH]; [done|].
  rewrite fmap_cons, total_pixels_cons.
  change (sum_abs (?z :: ?zs)) with (Z.abs z + sum_abs zs).
  pose proof (cell_pixels_length late lone i j g). unfold cell_count at 1. lia.
Qed.

Lemma fold_sums_exact band late lone i j (grans : list Granule) :
  is_band band -> Forall (Forall wf_pixel) grans ->
  32768 * total_pixels grans < 2 ^ 53 ->
  fold_left (add float64) (gran_sum band late lone i j <$> grans) zero
  = of_Z float64 (sumZ (cell_total band late lone i j <$> grans)).
Proof.
  intros Hb Hwf Hsz.
  destruct (cell_totals_exact band late lone i j grans Hb Hwf Hsz) as [-> Hs].
  change zero with (of_Z float64 0). rewrite fold_add_int; [done|]. lia.
Qed.

Lemma fold_counts_exact late lone i j (grans : list Granule) :
  32768 * total_pixels grans < 2 ^ 53 ->
  fold_left (add float64) (gran_count late lone i j <$> grans) zero
  = of_Z float64 (sumZ (cell_count late lone i j <$> grans)).
Proof.
  intros Hsz.
  assert (He : gran_count late lone i j <$> grans
               = of_Z float64 <$> (cell_count late lone i j <$> grans)).
  { rewrite <- list_fmap_compose. done. }
  rewrite He. change zero with (of_Z float64 0).
  pose proof (cell_counts_bound late lone i j grans).
  pose proof (total_pixels_nonneg grans).
  rewrite fold_add_int; [done|]. lia.
Qed.

(** ** Arrays of one shape with the same cells are equal *)

Lemma dims_length {A} (a : array2 A) n m : dims a = replicate n m -> length a = n.
Proof.
  intros H. apply (f_equal length) in H.
  unfold dims in H. by rewrite length_fmap, length_replicate in H.
Qed.

Lemma dims_row {A} (a : array2 A) n m i row :
  dims a = replicate n m -> a !! i = Some row -> length row = m.
Proof.
  intros H Hi. assert (Hl : dims a !! i = Some (length row)).
  { unfold dims. by rewrite list_lookup_fmap, Hi. }
  rewrite H in Hl. by apply lookup_replicate in Hl as [<- _].
Qed.

Lemma array_ext {A} (a b : array2 A) n m :
  dims a = replicate n m -> dims b = replicate n m ->
  (forall i j, (i < n)%nat -> (j < m)%nat -> cell a i j = cell b i j) ->
  a = b.
Proof.
  intros Ha Hb Hc. apply list_eq. intros i.
  pose proof (dims_length a n m Ha) as La.
  pose proof (dims_length b n m Hb) as Lb.
  destruct (decide (i < n)%nat) as [Hi|Hi].
  - destruct (lookup_lt_is_Some_2 a i ltac:(lia)) as [ra Hra].
    destruct (lookup_lt_is_Some_2 b i ltac:(lia)) as [rb Hrb].
    rewrite Hra, Hrb. f_equal. apply list_eq. intros j.
    pose proof (dims_row a n m i ra Ha Hra) as Lra.
    pose proof (dims_row b n m i rb Hb Hrb) as Lrb.
    destruct (decide (j < m)%nat) as [Hj|Hj].
    + specialize (Hc i j Hi Hj). unfold cell in Hc.
      by rewrite Hra, Hrb in Hc.
    + rewrite !lookup_ge_None_2 by lia. done.
  - rewrite !lookup_ge_None_2 by lia. done.
Qed.

Lemma grid_table_dims nlat nlon f :
  dims (grid_table nlat nlon f) = replicate nlat nlon.
Proof. unfold grid_table. by rewrite dims_table, !length_seq. Qed.

Lemma grid_table_cell nlat nlon f i j :
  (i < nlat)%nat -> (j < nlon)%nat ->
  cell (grid_table nlat nlon f) i j = Some (f i j).
Proof.
  intros Hi Hj. unfold cell, grid_table.
  rewrite list_lookup_fmap, lookup_seq_lt by done. simpl.
  by rewrite list_lookup_fmap, lookup_seq_lt.
Qed.

Lemma grid_table_ext nlat nlon f g :
  (forall i j, f i j = g i j) -> grid_table nlat nlon f = grid_table nlat nlon g.
Proof.
  intros H. unfold grid_table. apply list_fmap_ext. intros _ i _.
  apply list_fmap_ext. intros _ j _. apply H.
Qed.

(** ** Reading a list of files *)

Lemma read_all_unique w flist g1 g2 :
  read_all w flist g1 -> read_all w flist g2 -> g1 = g2.
Proof.
  unfold read_all. intros H1. revert g2.
  induction H1 as [|ff g flist g1 Hg _ IH]; intros g2 H2;
    inversion H2 as [|? g' ? g2' Hg' H2']; subst; [done|].
  rewrite Hg in Hg'. injection Hg' as <-. f_equal. by apply IH.
Qed.

Lemma read_all_perm w flist flist' :
  flist ≡ₚ flist' -> forall grans,
  read_all w flist grans ->
  exists grans', read_all w flist' grans' /\ grans ≡ₚ grans'.
Proof.
  unfold read_all. induction 1 as [|ff l l' _ IH|f1 f2 l|l1 l2 l3 _ IH1 _ IH2];
    intros grans Hr.
  - inversion Hr; subst. exists []. split; [constructor|done].
  - inversion Hr as [|? g ? gs Hg Hgs]; subst.
    destruct (IH gs Hgs) as (gs' & Hr' & Hp).
    exists (g :: gs'). split; [by constructor|by constructor].
  - inversion Hr as [|? g2 ? gs' Hg2 Hr']; subst.
    inversion Hr' as [|? g1 ? gs Hg1 Hgs]; subst.
    exists (g1 :: g2 :: gs). split; [by repeat constructor|by constructor].
  - destruct (IH1 grans Hr) as (g2 & Hr2 & Hp2).
    destruct (IH2 g2 Hr2) as (g3 & Hr3 & Hp3).
    exists g3. split; [done|by etrans].
Qed.

Lemma read_all_app w A B grans :
  read_all w (A ++ B) grans ->
  exists gA gB, grans = gA ++ gB /\ read_all w A gA /\ read_all w B gB.
Proof.
  unfold read_all. intros H. apply Forall2_app_inv_l in H as (gA & gB & ? & ? & ?).
  by exists gA, gB.
Qed.

(** ** The loop computes the exact accumulator *)

Lemma loop_ok w late lone flist grans :
  monotonic late && monotonic lone = true ->
  read_all w flist grans -> forall acc,
  exists acc', foldM (regrid_step w late lone) acc flist = Ok acc'.
Proof.
  intros Hm. unfold read_all. induction 1 as [|ff g flist grans Hg _ IH];
    intros acc; [by eexists|].
  cbn [foldM]. unfold regrid_step at 1, bind. rewrite Hg.
  destruct (bin_granule_ok late lone g Hm) as [gran ->]. apply IH.
Qed.

Lemma loop_fail w late lone ff flist g acc :
  monotonic late && monotonic lone = false ->
  open_rasterio w ff = Ok g ->
  foldM (regrid_step w late lone) acc (ff :: flist) = Raise ValueError.
Proof.
  intros Hm Hg. cbn [foldM]. unfold regrid_step at 1, bind. rewrite Hg.
  by rewrite (bin_granule_fail late lone g Hm).
Qed.

Theorem accumulate_exact w nlat nlon flist grans :
  edges_monotonic w nlat nlon = true ->
  read_all w flist grans ->
  Forall (Forall wf_pixel) grans ->
  32768 * total_pixels grans < 2 ^ 53 ->
  accumulate w nlat nlon flist = Ok (exact_accumulator w nlat nlon grans).
Proof.
  intros Hm Hr Hwf Hsz.
  assert (Hok : exists acc, accumulate w nlat nlon flist = Ok acc).
  { unfold accumulate, edges_monotonic in *.
    destruct (edges w nlat nlon) as [late lone]. by eapply loop_ok. }
  destruct Hok as [[[num red] nir] Hacc]. rewrite Hacc. f_equal.
  apply accumulate_inv in Hacc as ((Dn & Dr & Dq) & grans' & Hr' & Hc).
  rewrite (read_all_unique _ _ _ _ Hr' Hr) in Hc. clear Hr' grans'.
  cbn [fst snd] in Dn, Dr, Dq.
  unfold exact_accumulator.
  f_equal; [f_equal|]; eapply array_ext; try apply grid_table_dims; try done;
    intros i j Hi Hj; destruct (Hc i j Hi Hj) as (Cn & Cr & Cq);
    rewrite grid_table_cell by done.
  - by rewrite Cn, fold_counts_exact.
  - rewrite Cr, fold_sums_exact; try done. by left.
  - rewrite Cq, fold_sums_exact; try done. by right.
Qed.

Lemma accumulate_fail w nlat nlon ff flist g :
  edges_monotonic w nlat nlon = false ->
  open_rasterio w ff = Ok g ->
  accumulate w nlat nlon (ff :: flist) = Raise ValueError.
Proof.
  intros Hm Hg. unfold accumulate, edges_monotonic in *.
  destruct (edges w nlat nlon) as [late lone]. by apply (loop_fail _ _ _ _ _ g).
Qed.

Lemma exact_accumulator_perm w nlat nlon g1 g2 :
  g1 ≡ₚ g2 -> exact_accumulator w nlat nlon g1 = exact_accumulator w nlat nlon g2.
Proof.
  intros Hp. unfold exact_accumulator. cbv zeta.
  f_equal; [f_equal|]; apply grid_table_ext; intros i j; f_equal;
    apply sumZ_perm; by rewrite Hp.
Qed.

Lemma exact_accumulator_merge w nlat nlon g1 g2 :
  32768 * total_pixels (g1 ++ g2) < 2 ^ 53 ->
  Forall (Forall wf_pixel) (g1 ++ g2) ->
  merge (exact_accumulator w nlat nlon g1) (exact_accumulator w nlat nlon g2)
  = exact_accumulator w nlat nlon (g1 ++ g2).
Proof.
  intros Hsz Hwf. rewrite total_pixels_app in Hsz.
  apply Forall_app in Hwf as [Hw1 Hw2].
  pose proof (total_pixels_nonneg g1). pose proof (total_pixels_nonneg g2).
  unfold merge, exact_accumulator. cbv zeta. cbn [fst snd].
  set (late := (edges w nlat nlon).1). set (lone := (edges w nlat nlon).2).
  f_equal; [f_equal|]; eapply array_ext; try apply grid_table_dims;
    try (rewrite dims_map2; rewrite !grid_table_dims; done);
    intros i j Hi Hj; rewrite cell_map2, !grid_table_cell by done;
    f_equal; rewrite fmap_app, sumZ_app.
  - pose proof (cell_counts_bound late lone i j g1).
    pose proof (cell_counts_bound late lone i j g2).
    pose proof (sumZ_abs (cell_count late lone i j <$> g1)).
    pose proof (sumZ_abs (cell_count late lone i j <$> g2)).
    apply add64_int; lia.
  - destruct (cell_totals_exact redin late lone i j g1 ltac:(by left) Hw1 ltac:(lia)) as [_ B1].
    destruct (cell_totals_exact redin late lone i j g2 ltac:(by left) Hw2 ltac:(lia)) as [_ B2].
    pose proof (sumZ_abs (cell_total redin late lone i j <$> g1)).
    pose proof (sumZ_abs (cell_total redin late lone i j <$> g2)).
    apply add64_int; lia.
  - destruct (cell_totals_exact nirin late lone i j g1 ltac:(by right) Hw1 ltac:(lia)) as [_ B1].
    destruct (cell_totals_exact nirin late lone i j g2 ltac:(by right) Hw2 ltac:(lia)) as [_ B2].
    pose proof (sumZ_abs (cell_total nirin late lone i j <$> g1)).
    pose proof (sumZ_abs (cell_total nirin late lone i j <$> g2)).
    apply add64_int; lia.
Qed.

(** ** The value of the loop on readable files *)

Lemma zeros_table nlat nlon :
  zeros nlat nlon = grid_table nlat nlon (fun _ _ => of_Z float64 0).
Proof.
  apply (array_ext _ _ nlat nlon).
  - apply dims_full.
  - apply grid_table_dims.
  - intros i j Hi Hj. by rewrite cell_zeros, grid_table_cell.
Qed.

Lemma accumulate_nil w nlat nlon :
  accumulate w nlat nlon []
  = Ok (zeros nlat nlon, zeros nlat nlon, zeros nlat nlon).
Proof. unfold accumulate. by destruct (edges w nlat nlon). Qed.

Lemma exact_accumulator_nil w nlat nlon :
  exact_accumulator w nlat nlon []
  = (zeros nlat nlon, zeros nlat nlon, zeros nlat nlon).
Proof. unfold exact_accumulator. cbv zeta. by rewrite !zeros_table. Qed.

Lemma accumulate_value w nlat nlon flist grans :
  read_all w flist grans ->
  Forall (Forall wf_pixel) grans ->
  32768 * total_pixels grans < 2 ^ 53 ->
  accumulate w nlat nlon flist
  = if edges_monotonic w nlat nlon || (length flist =? 0)%nat
    then Ok (exact_accumulator w nlat nlon grans)
    else Raise ValueError.
Proof.
  intros Hr Hwf Hsz.
  destruct (edges_monotonic w nlat nlon) eqn:Hm; cbn [orb].
  - by apply accumulate_exact.
  - destruct Hr as [|ff g flist grans Hg Hr]; cbn [length Nat.eqb].
    + by rewrite accumulate_nil, exact_accumulator_nil.
    + by apply (accumulate_fail _ _ _ _ _ g).
Qed.

Lemma accumulate_perm w nlat nlon flist flist' grans :
  read_all w flist grans ->
  Forall (Forall wf_pixel) grans ->
  32768 * total_pixels grans < 2 ^ 53 ->
  flist ≡ₚ flist' ->
  accumulate w nlat nlon flist' = accumulate w nlat nlon flist.
Proof.
  intros Hr Hwf Hsz Hp.
  destruct (read_all_perm w flist flist' Hp grans Hr) as (grans' & Hr' & Hg).
  rewrite (accumulate_value w nlat nlon flist grans) by done.
  rewrite (accumulate_value w nlat nlon flist' grans'); try done.
  - rewrite (exact_accumulator_perm w nlat nlon grans grans' Hg).
    by rewrite (Permutation_length Hp).
  - by rewrite <- Hg.
  - by rewrite <- (total_pixels_perm grans grans').
Qed.

(** An integer below [2^53] in magnitude is a double. *)
Lemma of_Z_exact z :
  Z.abs z < 2 ^ 53 ->
  isfinite (of_Z float64 z) = true /\
  exists q, to_Q (of_Z float64 z) = Some q /\ (q == inject_Z z)%Q.
Proof.
  intros Hz.
  destruct (N_exact 53 1024 ltac:(done) ltac:(done) z Hz) as [[Hf _] Hv].
  change (N 53 1024 z) with (of_Z float64 z) in *.
  split; [done|]. exists (RoundSpec.sval (of_Z float64 z)). split; [|done].
  by destruct (of_Z float64 z).
Qed.

Lemma within_of_Z z :
  Z.abs z < 2 ^ 53 -> within 0 (of_Z float64 z) (inject_Z z) = true.
Proof.
  intros Hz.
  destruct (N_exact 53 1024 ltac:(done) ltac:(done) z Hz) as [[Hf _] Hv].
  change (N 53 1024 z) with (of_Z float64 z) in *.
  unfold within.
  assert (to_Q (of_Z float64 z) = Some (RoundSpec.sval (of_Z float64 z))) as ->
    by (by destruct (of_Z float64 z)).
  apply Qle_bool_iff. rewrite Hv.
  assert (E : (inject_Z z - inject_Z z == 0)%Q) by ring.
  rewrite E. apply Qle_refl.
Qed.

End SumFacts.

(* ===================================================================== *)
(** * [_regrid] on the store                                              *)
(* ===================================================================== *)

Module RegridFacts.
Import Float Py Np Xr Vegind VegIndClass ArrayFacts StoreFacts AggFacts SumFacts.

Lemma foldM_app {A B} (f : A -> B -> result A) (l1 l2 : list B) : forall acc,
  foldM f acc (l1 ++ l2) = bind (foldM f acc l1) (fun a => foldM f a l2).
Proof.
  induction l1 as [|x l1 IH]; intros acc; [done|].
  cbn [app foldM]. destruct (f acc x) as [a|e]; [|done]. apply IH.
Qed.

(** The loop stops at the first file that cannot be opened. *)
Lemma accumulate_unreadable w nlat nlon A ff B gransA e :
  edges_monotonic w nlat nlon = true ->
  read_all w A gransA ->
  open_rasterio w ff = Raise e ->
  accumulate w nlat nlon (A ++ ff :: B) = Raise e.
Proof.
  intros Hm Hr He. unfold accumulate, edges_monotonic in *.
  destruct (edges w nlat nlon) as [late lone]. cbn [fst snd] in Hm.
  rewrite foldM_app.
  destruct (loop_ok w late lone A gransA Hm Hr
              (zeros nlat nlon, zeros nlat nlon, zeros nlat nlon)) as [acc ->].
  cbn [bind foldM]. unfold regrid_step at 1. by rewrite He.
Qed.

End RegridFacts.

(* ===================================================================== *)
(** * The policies: classes of [_ndvi2fpar_los], range of [_ndvi2fpar_lin] *)
(* ===================================================================== *)

Module PolicyRange.
Import Float Py Np Vegind VegIndClass ArrayFacts FloatFacts PolicyFacts LosFacts.
Import RegridFacts.

#[local] Arguments lit : simpl never.
#[local] Arguments scalar : simpl never.
#[local] Arguments add : simpl never.
#[local] Arguments sub : simpl never.
#[local] Arguments mul : simpl never.
#[local] Arguments div : simpl never.

(** ** The loop over the classes *)

Lemma NDVI02P_length : length NDVI02P = 18%nat.
Proof. unfold NDVI02P. by rewrite length_replicate. Qed.

Lemma NDVI98P_length : length NDVI98P = 18%nat.
Proof. reflexivity. Qed.

(** The only exception a turn of the loop raises is [IndexError]. *)
Lemma los_step_raises dt ndvi lctype fpar nn e :
  los_step dt ndvi lctype fpar nn = Raise e -> e = IndexError.
Proof.
  unfold los_step, bind.
  destruct (NDVI02P !! nn); [|congruence].
  destruct (NDVI98P !! nn); [|congruence].
  destruct (index_fits _ _); congruence.
Qed.

Lemma los_loop_raises dt ndvi lctype l : forall fpar e,
  foldM (los_step dt ndvi lctype) fpar l = Raise e -> e = IndexError.
Proof.
  induction l as [|nn l IH]; intros fpar e; cbn [foldM]; [done|].
  destruct (los_step dt ndvi lctype fpar nn) as [fpar'|e'] eqn:E; cbn [bind].
  - apply IH.
  - intros [= <-]. by apply los_step_raises in E.
Qed.

(** Class 18 has no percentiles. *)
Lemma los_step_beyond dt ndvi lctype fpar nn :
  (18 <= nn)%nat -> los_step dt ndvi lctype fpar nn = Raise IndexError.
Proof.
  intros H. unfold los_step.
  rewrite (lookup_ge_None_2 NDVI02P nn); [done|].
  rewrite NDVI02P_length. lia.
Qed.

(** The index of a turn fits when the land cover array does. *)
Lemma ime_fits (lctype : array2 Z) (fpar ndvi : ndarray) nn :
  dims fpar = dims ndvi ->
  index_fits (map1 (fun c => c =? Z.of_nat nn) lctype) fpar
  = index_fits lctype ndvi.
Proof. intros H. apply index_fits_dims; [apply dims_map1|done]. Qed.

(** A class below 18 with a land cover array that fits is converted. *)
Lemma los_step_fits dt ndvi lctype fpar nn :
  (nn < 18)%nat -> dims fpar = dims ndvi -> index_fits lctype ndvi = true ->
  exists fpar',
    los_step dt ndvi lctype fpar nn = Ok fpar' /\ dims fpar' = dims ndvi.
Proof.
  intros Hn Hf Hfit.
  assert (exists fpar', los_step dt ndvi lctype fpar nn = Ok fpar')
    as [fpar' Hstep].
  { unfold los_step, bind.
    destruct (lookup_lt_is_Some_2 NDVI02P nn) as [N0 ->];
      [rewrite NDVI02P_length; lia|].
    destruct (lookup_lt_is_Some_2 NDVI98P nn) as [N1 ->];
      [rewrite NDVI98P_length; lia|].
    rewrite (ime_fits lctype fpar ndvi nn Hf), Hfit. by eexists. }
  exists fpar'. split; [done|].
  by apply los_step_inv in Hstep as [Hd _].
Qed.

Lemma los_step_ok dt ndvi lctype fpar nn :
  (nn < 18)%nat -> dims lctype = dims ndvi -> dims fpar = dims ndvi ->
  exists fpar', los_step dt ndvi lctype fpar nn = Ok fpar'.
Proof.
  intros Hn Hl Hf.
  destruct (los_step_fits dt ndvi lctype fpar nn Hn Hf) as (fpar' & H & _);
    [by apply index_fits_same|by exists fpar'].
Qed.

Lemma los_step_mismatch dt ndvi lctype fpar nn :
  dims fpar = dims ndvi -> index_fits lctype ndvi = false ->
  los_step dt ndvi lctype fpar nn = Raise IndexError.
Proof.
  intros Hf H. unfold los_step, bind.
  destruct (NDVI02P !! nn); [|done].
  destruct (NDVI98P !! nn); [|done].
  by rewrite (ime_fits lctype fpar ndvi nn Hf), H.
Qed.

(** The loop over classes below 18 ends, when the land cover array
    fits. *)
Lemma los_loop_fits dt (ndvi : ndarray) (lctype : array2 Z) l :
  Forall (fun nn => (nn < 18)%nat) l -> index_fits lctype ndvi = true ->
  forall fpar,
    dims fpar = dims ndvi ->
    exists fpar',
      foldM (los_step dt ndvi lctype) fpar l = Ok fpar' /\
      dims fpar' = dims ndvi.
Proof.
  intros Hl Hfit. induction Hl as [|nn l Hn _ IH]; intros fpar Hf.
  - by exists fpar.
  - destruct (los_step_fits dt ndvi lctype fpar nn Hn Hf Hfit)
      as (fpar1 & Hstep & Hd1).
    cbn [foldM]. rewrite Hstep. cbn [bind]. by apply IH.
Qed.

(** With a land cover array without elements no turn changes a cell. *)
Lemma los_loop_size0 dt (ndvi : ndarray) (lctype : array2 Z) fpar l :
  Forall (fun nn => (nn < 18)%nat) l ->
  size0 lctype = true -> index_fits lctype ndvi = true ->
  dims fpar = dims ndvi ->
  foldM (los_step dt ndvi lctype) fpar l = Ok fpar.
Proof.
  intros Hl Hs Hfit Hf. induction Hl as [|nn l Hn _ IH]; [done|].
  cbn [foldM].
  assert (Hstep : los_step dt ndvi lctype fpar nn = Ok fpar).
  { unfold los_step, bind.
    destruct (lookup_lt_is_Some_2 NDVI02P nn) as [N0 ->];
      [rewrite NDVI02P_length; lia|].
    destruct (lookup_lt_is_Some_2 NDVI98P nn) as [N1 ->];
      [rewrite NDVI98P_length; lia|].
    by rewrite (ime_fits lctype fpar ndvi nn Hf), Hfit, size0_map1, Hs. }
  by rewrite Hstep.
Qed.

Lemma below_18 k : (k <= 18)%nat -> Forall (fun nn => (nn < 18)%nat) (seq 0 k).
Proof.
  intros Hk. apply Forall_forall. intros nn Hin.
  apply elem_of_seq in Hin. lia.
Qed.

(** The value of a cell of class [c] after the classes below [k]. *)
Definition los_after (dt : dtype) (k : nat) (c : Z) (x o : spec_float)
  : spec_float :=
  if (0 <=? c) && (c <? Z.of_nat k) then
    match NDVI02P !! Z.to_nat c, NDVI98P !! Z.to_nat c with
    | Some lo, Some hi => los_value dt lo hi x
    | _, _ => o
    end
  else o.

Lemma los_loop_cells dt (ndvi : ndarray) (lctype : array2 Z) fpar k :
  (k <= 18)%nat -> dims lctype = dims ndvi -> dims fpar = dims ndvi ->
  exists fpar',
    foldM (los_step dt ndvi lctype) fpar (seq 0 k) = Ok fpar' /\
    dims fpar' = dims ndvi /\
    forall i j x c o,
      cell ndvi i j = Some x -> cell lctype i j = Some c ->
      cell fpar i j = Some o ->
      cell fpar' i j = Some (los_after dt k c x o).
Proof.
  intros Hk Hl Hf. induction k as [|k IH].
  - exists fpar. split; [done|]. split; [done|].
    intros i j x c o _ _ Ho. unfold los_after.
    destruct (Z.leb_spec 0 c), (Z.ltb_spec c (Z.of_nat 0)); cbn [andb];
      try done; lia.
  - destruct IH as (fpar1 & Hloop & Hd1 & Hc1); [lia|].
    rewrite seq_S, foldM_app, Hloop. cbn [bind foldM Nat.add].
    destruct (los_step_ok dt ndvi lctype fpar1 k) as [fpar2 Hstep]; try done.
    rewrite Hstep. cbn [bind]. exists fpar2. split; [done|].
    apply los_step_inv in Hstep as (Hd2 & N0 & N1 & HN0 & HN1 & Hc2); [|done].
    split; [done|].
    intros i j x c o Hx Hc Ho.
    specialize (Hc1 i j x c o Hx Hc Ho).
    rewrite (Hc2 i j x _ Hx Hc1), Hc. f_equal.
    unfold los_after. destruct (Z.eqb_spec c (Z.of_nat k)) as [->|Hne].
    + rewrite Nat2Z.id, HN0, HN1.
      replace (0 <=? Z.of_nat k) with true by (symmetry; apply Z.leb_le; lia).
      replace (Z.of_nat k <? Z.of_nat (S k)) with true
        by (symmetry; apply Z.ltb_lt; lia).
      done.
    + replace (c <? Z.of_nat (S k)) with (c <? Z.of_nat k); [done|].
      destruct (Z.ltb_spec c (Z.of_nat k)), (Z.ltb_spec c (Z.of_nat (S k)));
        try done; lia.
Qed.

(** ** Comparisons *)

Lemma SFcompare_refl x : isnan x = false -> SFcompare x x = Some Eq.
Proof.
  destruct x as [[]|[]| |[] m e]; cbn; try done; intros _;
    rewrite Z.compare_refl;
    change (Pos.compare_cont Eq m m) with (Pos.compare m m);
    by rewrite Pos.compare_refl.
Qed.

Lemma leb_refl x : isnan x = false -> leb x x = true.
Proof. intros H. unfold leb, SFleb. by rewrite SFcompare_refl. Qed.

Lemma ltb_leb x y : ltb x y = true -> leb x y = true.
Proof. unfold ltb, leb, SFltb, SFleb. by destruct (SFcompare x y) as [[]|]. Qed.

Lemma leb_not_nan_l x y : leb x y = true -> isnan x = false.
Proof. by destruct x. Qed.

Lemma leb_not_nan_r x y : leb x y = true -> isnan y = false.
Proof. destruct y; try done. by rewrite leb_nan_r. Qed.

(** ** [np.maximum(fPMIN, np.minimum(fPMAX, x))] *)

Lemma fPMIN_fPMAX dt :
  ltb zero (scalar dt fPMIN) = true /\
  leb (scalar dt fPMIN) (scalar dt fPMAX) = true.
Proof. by destruct dt; vm_compute. Qed.

Lemma clamp_range dt x :
  isnan x = false ->
  leb (scalar dt fPMIN) (clamp dt x) = true /\
  leb (clamp dt x) (scalar dt fPMAX) = true.
Proof.
  intros Hx. destruct (fPMIN_fPMAX dt) as [_ Hle].
  destruct (scalar_fPMIN dt) as (m0 & e0 & E0).
  destruct (scalar_fPMAX dt) as (m1 & e1 & E1).
  unfold clamp, maximum, minimum, geb.
  change (SFleb ?a ?b) with (leb a b).
  assert (N0 : isnan (scalar dt fPMIN) = false) by (by rewrite E0).
  assert (N1 : isnan (scalar dt fPMAX) = false) by (by rewrite E1).
  rewrite N0, N1, !orb_false_r.
  destruct (leb (scalar dt fPMAX) x) eqn:C1.
  - (* fPMAX <= x: the minimum is fPMAX *)
    destruct (leb (scalar dt fPMAX) (scalar dt fPMIN)) eqn:C2.
    + split; [by apply leb_refl|done].
    + split; [done|by apply leb_refl].
  - (* x < fPMAX *)
    assert (Hlt : ltb x (scalar dt fPMAX) = true) by (by apply leb_false_ltb).
    destruct (leb x (scalar dt fPMIN)) eqn:C2.
    + split; [by apply leb_refl|done].
    + split; [|by apply ltb_leb].
      apply ltb_leb. by apply leb_false_ltb.
Qed.

(** ** The affine map never makes a NaN of a number *)

Lemma sub_finite_not_nan dt x c :
  isnan x = false -> isfinite c = true -> isnan (sub dt x c) = false.
Proof.
  intros Hx Hc. destruct x as [sx|sx| |sx mx ex]; try done.
  - by apply sub_not_nan.
  - by destruct c.
  - by apply sub_not_nan.
Qed.

Lemma add_finite_not_nan dt x c :
  isnan x = false -> isfinite c = true -> isnan (add dt x c) = false.
Proof.
  intros Hx Hc. destruct x as [sx|sx| |sx mx ex]; try done.
  - by apply add_not_nan.
  - by destruct c.
  - by apply add_not_nan.
Qed.

Lemma lin_constants dt :
  isfinite (scalar dt (lit 10 100)) = true /\
  isfinite (scalar dt fPMIN) = true /\
  (exists m e, scalar dt (sub float64 fPMAX fPMIN) = S754_finite false m e) /\
  (exists m e, scalar dt (sub float64 (lit 80 100) (lit 10 100))
               = S754_finite false m e).
Proof. destruct dt; vm_compute; eauto 10. Qed.

Lemma lin_rescale_not_nan dt x :
  isnan x = false -> isnan (rescale dt (lit 10 100) (lit 80 100) x) = false.
Proof.
  intros Hx. destruct (lin_constants dt) as (H0 & Hmin & (mk & ek & Ek) & (mc & ec & Ec)).
  unfold rescale. rewrite Ek, Ec.
  apply add_finite_not_nan; [|done].
  apply div_not_nan, mul_not_nan. by apply sub_finite_not_nan.
Qed.

Lemma lin_cell_range dt x :
  isnan x = false ->
  ltb zero (lin_cell dt x) = true /\
  leb (scalar dt fPMIN) (lin_cell dt x) = true /\
  leb (lin_cell dt x) (scalar dt fPMAX) = true.
Proof.
  intros Hx. unfold lin_cell.
  destruct (clamp_range dt (rescale dt (lit 10 100) (lit 80 100) x)) as [Hlo Hhi];
    [by apply lin_rescale_not_nan|].
  unfold nan_to_zero. rewrite (leb_not_nan_r _ _ Hlo).
  split_and!; try done.
  destruct (fPMIN_fPMAX dt) as [Hpos _].
  by apply (ltb_leb_trans _ (scalar dt fPMIN)).
Qed.

End PolicyRange.

(* ===================================================================== *)
(** * Rounding, continued: the error of a product                        *)
(* ===================================================================== *)

Module RoundMore.
Import Float FloatFacts Rounding RoundSpec ExactInt.

Section Format.
Variables prec emax : Z.
Hypothesis Hprec : 0 < prec.
Hypothesis Hemax : prec < emax.

Abbreviation emin := (SpecFloat.emin prec emax).
Abbreviation fin := (RoundSpec.fin prec emax).

Local Open Scope Q_scope.

Lemma Qabs_signed s x : 0 < x -> Qabs (signed s x) == x.
Proof.
  intros Hx. destruct s; cbn [signed].
  - rewrite Qabs_opp. apply Qabs_pos. lra.
  - apply Qabs_pos. lra.
Qed.

Lemma zero_error v r :
  v == 0 -> r == 0 ->
  Qabs (r - v) <= bpow (1 - prec) * Qabs v + bpow emin.
Proof.
  intros Hv Hr.
  assert (E : r - v == v - v) by (rewrite Hv, Hr; ring).
  rewrite E. apply abs_error_exact.
Qed.

(** The product is within half a unit in the last place, or less than
    the smallest number of the format, of the exact product. *)
Theorem mul_error x y :
  fin x -> fin y -> isfinite (SFmul prec emax x y) = true ->
  Qabs (sval (SFmul prec emax x y) - sval x * sval y)
  <= bpow (1 - prec) * Qabs (sval x * sval y) + bpow emin.
Proof.
  intros Hx Hy Hf.
  destruct x as [sx|sx| |sx mx ex], y as [sy|sy| |sy my ey];
    try (destruct Hx as [? _]; done); try (destruct Hy as [? _]; done);
    cbn [SFmul] in *.
  1-3: apply zero_error; cbn [sval]; ring.
  pose proof (round_correct prec emax Hprec Hemax (xorb sx sy)
                (Z.pos (mx * my)) (ex + ey) loc_Exact
                (mval (Z.pos (mx * my)) (ex + ey)) ltac:(done)
                (mul_shift_nonneg prec emax Hprec Hemax mx ex my ey
                   (fin_grid prec emax Hprec Hemax _ _ _ Hx)
                   (fin_grid prec emax Hprec Hemax _ _ _ Hy))
                ltac:(reflexivity)) as Hr.
  assert (Hpos : 0 < mval (Z.pos (mx * my)) (ex + ey)) by (by apply mval_pos).
  assert (Hs : signed (xorb sx sy) (mval (Z.pos (mx * my)) (ex + ey))
               == sval (S754_finite sx mx ex) * sval (S754_finite sy my ey)).
  { cbn [sval]. rewrite !mval_cond_Zopp, <- signed_xorb.
    rewrite Pos2Z.inj_mul.
    destruct (xorb sx sy); cbn [signed]; rewrite mval_mul; reflexivity. }
  pose proof (rounds_error prec emax Hprec Hemax _ _ _ Hpos Hr Hf) as He.
  rewrite Hs in He. rewrite <- Hs at 2. by rewrite Qabs_signed.
Qed.

(** Conversion to the format keeps a value between two numbers of the
    format. *)
Theorem round_between x L U :
  isfinite x = true -> fin L -> fin U ->
  sval L <= sval x -> sval x <= sval U ->
  let r := match x with
           | S754_finite s m e => binary_round prec emax s m e
           | _ => x
           end in
  fin r /\ sval L <= sval r /\ sval r <= sval U.
Proof.
  intros Hx HL HU H1 H2.
  destruct x as [s|s| |s m e]; try done; cbv zeta.
  pose proof (binary_round_correct prec emax Hprec Hemax s m e) as Hr.
  cbn [sval] in H1, H2. rewrite mval_cond_Zopp in H1, H2.
  eapply (rounds_between prec emax) in Hr; try eassumption.
  by apply mval_pos.
Qed.

End Format.

(** ** The two dtypes *)

Lemma prec_pos dt : (0 < prec dt)%Z.
Proof. by destruct dt. Qed.

Lemma prec_lt_emax dt : (prec dt < emax dt)%Z.
Proof. by destruct dt. Qed.

(** A small integer is a value of either dtype. *)
Lemma of_Z_dt dt z :
  (Z.abs z < 2 ^ 24)%Z ->
  RoundSpec.fin (prec dt) (emax dt) (of_Z dt z) /\
  (sval (of_Z dt z) == inject_Z z)%Q.
Proof.
  intros Hz.
  apply (ExactInt.N_exact (prec dt) (emax dt) (prec_pos dt) (prec_lt_emax dt)).
  assert ((2 ^ 24 <= 2 ^ prec dt)%Z) by (destruct dt; done). lia.
Qed.

Lemma astype_between dt x L U :
  isfinite x = true ->
  RoundSpec.fin (prec dt) (emax dt) L -> RoundSpec.fin (prec dt) (emax dt) U ->
  (sval L <= sval x)%Q -> (sval x <= sval U)%Q ->
  RoundSpec.fin (prec dt) (emax dt) (astype dt x) /\
  (sval L <= sval (astype dt x))%Q /\ (sval (astype dt x) <= sval U)%Q.
Proof.
  intros. by apply (round_between (prec dt) (emax dt) (prec_pos dt)
                      (prec_lt_emax dt) x L U).
Qed.

Lemma leb_dt dt x y :
  RoundSpec.fin (prec dt) (emax dt) x -> RoundSpec.fin (prec dt) (emax dt) y ->
  leb x y = true <-> (sval x <= sval y)%Q.
Proof. apply leb_sval; [apply prec_pos|apply prec_lt_emax]. Qed.

Lemma ltb_dt dt x y :
  RoundSpec.fin (prec dt) (emax dt) x -> RoundSpec.fin (prec dt) (emax dt) y ->
  ltb x y = true <-> (sval x < sval y)%Q.
Proof. apply ltb_sval; [apply prec_pos|apply prec_lt_emax]. Qed.

End RoundMore.

(* ===================================================================== *)
(** * The fifth condition of [iok], in integers                           *)
(* ===================================================================== *)

Module IokFacts.
Import Float Py Np Vegind VegIndClass FloatFacts Rounding RoundSpec ExactInt.
Import SumFacts RoundMore.

(** An integer below [2^53] in magnitude, as a double. *)
Lemma of_Z_fin z :
  Z.abs z < 2 ^ 53 ->
  fin 53 1024 (of_Z float64 z) /\ (sval (of_Z float64 z) == inject_Z z)%Q.
Proof.
  intros Hz. exact (N_exact 53 1024 ltac:(done) ltac:(done) z Hz).
Qed.

Lemma wrap16_range z : -32768 <= wrap16 z <= 32767.
Proof.
  unfold wrap16.
  pose proof (Z.mod_pos_bound (z + 32768) 65536 ltac:(lia)). lia.
Qed.

Lemma wrap16_id z : -32768 <= z <= 32767 -> wrap16 z = z.
Proof.
  intros H. unfold wrap16. rewrite Z.mod_small by lia. lia.
Qed.

(** [NDVIMIN] is the double next to -0.3, a little above it. *)
Lemma NDVIMIN_fin : fin 53 1024 NDVIMIN.
Proof. split; vm_compute; reflexivity. Qed.

Lemma NDVIMIN_value :
  (-3 # 10 <= sval NDVIMIN)%Q /\
  (sval NDVIMIN <= (-3 # 10) + (1 # 10000000000000000))%Q.
Proof. split; apply Qle_bool_iff; vm_compute; reflexivity. Qed.

(** The two error terms of a product in double precision. *)
Lemma double_ulp :
  (bpow (1 - 53) <= 1 # 1000000000000000)%Q /\
  (bpow (emin 53 1024) <= 1 # 1000000000000000)%Q.
Proof. split; apply Qle_bool_iff; vm_compute; reflexivity. Qed.

(** ** The sums that are multiples of ten

    For a positive multiple of ten the exact product is an integer less a
    few parts in 10^17, and the rounding must return the integer for the
    comparison to agree with the inequality of integers.  These 3276
    products are computed. *)
Fixpoint tens_ok (n : nat) (t : Z) : bool :=
  match n with
  | O => true
  | S n' =>
      leb (mul float64 NDVIMIN (of_Z float64 (10 * t))) (of_Z float64 (-3 * t))
      && tens_ok n' (t + 1)
  end.

Lemma tens_ok_all : tens_ok 3276 1 = true.
Proof. vm_cast_no_check (eq_refl true). Qed.

Lemma tens_ok_spec n : forall t0 t,
  tens_ok n t0 = true -> t0 <= t < t0 + Z.of_nat n ->
  leb (mul float64 NDVIMIN (of_Z float64 (10 * t))) (of_Z float64 (-3 * t))
  = true.
Proof.
  induction n as [|n IH]; intros t0 t Hok Ht; [lia|].
  cbn [tens_ok] in Hok. apply andb_prop in Hok as [H0 Hn].
  destruct (Z.eq_dec t t0) as [->|Hne]; [done|].
  apply (IH (t0 + 1)); [done|lia].
Qed.

(** ** The product [NDVIMIN * s] for an [int16] sum *)

Local Open Scope Q_scope.

Lemma product_bounds (k S : Q) :
  -3 # 10 <= k -> k <= (-3 # 10) + (1 # 10000000000000000) ->
  -32768 # 1 <= S -> S <= 32767 # 1 ->
  Qabs (k * S + (3 # 10) * S) <= 1 # 100000000000 /\
  (S <= 0 -> k * S <= - (3 # 10) * S).
Proof.
  intros Hk0 Hk1 Hs0 Hs1. split.
  - apply Qabs_case; intros _; nra.
  - intros Hneg. nra.
Qed.

Lemma int16_as_Q s :
  (-32768 <= s <= 32767)%Z ->
  -32768 # 1 <= inject_Z s /\ inject_Z s <= 32767 # 1.
Proof.
  intros Hs. split.
  - change (-32768 # 1) with (inject_Z (-32768)). rewrite <- Zle_Qle. lia.
  - change (32767 # 1) with (inject_Z 32767). rewrite <- Zle_Qle. lia.
Qed.

Lemma product_spec s :
  (-32768 <= s <= 32767)%Z ->
  let p := mul float64 NDVIMIN (of_Z float64 s) in
  fin 53 1024 p /\
  Qabs (sval p + (3 # 10) * inject_Z s) <= 1 # 10000000000 /\
  (forall d, (-3 * s = 10 * d)%Z -> (s <= 0)%Z -> sval p <= inject_Z d).
Proof.
  intros Hs p.
  destruct (of_Z_fin s) as [Fs Vs]; [lia|].
  destruct NDVIMIN_value as [Hk0 Hk1].
  destruct (int16_as_Q s Hs) as [HS0 HS1].
  destruct (product_bounds _ _ Hk0 Hk1 HS0 HS1) as [Hb Hneg].
  apply Qabs_Qle_condition in Hb as [Hb0 Hb1].
  assert (Hx : sval NDVIMIN * sval (of_Z float64 s)
               == sval NDVIMIN * inject_Z s) by (by rewrite Vs).
  set (k := sval NDVIMIN) in *. set (S := inject_Z s) in *.
  destruct (of_Z_fin (-9831)) as [FL VL]; [done|].
  destruct (of_Z_fin 9831) as [FU VU]; [done|].
  change (inject_Z (-9831)) with (-9831 # 1) in VL.
  change (inject_Z 9831) with (9831 # 1) in VU.
  destruct (mul_between 53 1024 ltac:(done) ltac:(done)
              NDVIMIN (of_Z float64 s) _ _ NDVIMIN_fin Fs FL FU)
    as (Fp & _ & _).
  { fold k. rewrite VL, Hx. lra. }
  { fold k. rewrite VU, Hx. lra. }
  fold p in Fp.
  pose proof (mul_error 53 1024 ltac:(done) ltac:(done)
                NDVIMIN (of_Z float64 s) NDVIMIN_fin Fs (proj1 Fp)) as He.
  fold p in He. fold k in He. rewrite Hx in He.
  destruct double_ulp as [Hu Hm].
  pose proof (bpow_pos (1 - 53)) as Hu0.
  assert (Ha : Qabs (k * S) <= 9831 # 1) by (apply Qabs_case; intros _; lra).
  pose proof (Qabs_nonneg (k * S)) as Ha0.
  assert (He2 : Qabs (sval p - k * S) <= 1 # 100000000000).
  { eapply Qle_trans; [exact He|].
    set (u := bpow (1 - 53)) in *. set (a := Qabs (k * S)) in *.
    set (m := bpow (emin 53 1024)) in *. nra. }
  apply Qabs_Qle_condition in He2 as [He0 He1].
  split_and!.
  - exact Fp.
  - apply Qabs_Qle_condition. split; lra.
  - intros d Hd Hle.
    destruct (of_Z_fin d) as [Fd Vd]; [lia|].
    assert (HD : (10 # 1) * inject_Z d == - (3 # 1) * S).
    { unfold S. change (10 # 1) with (inject_Z 10).
      change (- (3 # 1)) with (inject_Z (-3)).
      rewrite <- !inject_Z_mult. by rewrite Hd. }
    assert (HS : S <= 0).
    { unfold S. change 0 with (inject_Z 0). by rewrite <- Zle_Qle. }
    specialize (Hneg HS).
    destruct (mul_between 53 1024 ltac:(done) ltac:(done)
                NDVIMIN (of_Z float64 s) _ _ NDVIMIN_fin Fs FL Fd)
      as (_ & _ & Hhi).
    { fold k. rewrite VL, Hx. lra. }
    { fold k. rewrite Vd, Hx. lra. }
    fold p in Hhi. by rewrite Vd in Hhi.
Qed.

Local Close Scope Q_scope.

Lemma leb64 x y :
  fin 53 1024 x -> fin 53 1024 y ->
  leb x y = true <-> (sval x <= sval y)%Q.
Proof. apply leb_sval; done. Qed.

(** The comparison of the code decides an inequality of integers. *)
Lemma fifth_int s d :
  -32768 <= s <= 32767 -> -32768 <= d <= 32767 ->
  leb (mul float64 NDVIMIN (of_Z float64 s)) (of_Z float64 d)
  = (-3 * s <=? 10 * d).
Proof.
  intros Hs Hd.
  destruct (product_spec s Hs) as (Fp & Hp & Hneg).
  set (p := mul float64 NDVIMIN (of_Z float64 s)) in *.
  apply Qabs_Qle_condition in Hp as [Hp0 Hp1].
  destruct (of_Z_fin d) as [Fd Vd]; [lia|].
  destruct (Z.leb_spec (-3 * s) (10 * d)) as [Hle|Hgt].
  - destruct (Z.eq_dec (-3 * s) (10 * d)) as [Heq|Hne].
    + destruct (Z_le_gt_dec s 0) as [Hs0|Hs0].
      * apply leb64; [done|done|].
        rewrite Vd. by apply Hneg.
      * assert (Ht : exists t, s = 10 * t /\ d = -3 * t).
        { exists (- (d / 3)).
          pose proof (Z.div_mod d 3 ltac:(lia)) as E.
          pose proof (Z.mod_pos_bound d 3 ltac:(lia)). lia. }
        destruct Ht as (t & -> & ->).
        apply (tens_ok_spec 3276 1); [exact tens_ok_all|lia].
    + apply leb64; [done|done|].
      rewrite Vd.
      assert (H : (inject_Z (-3 * s) <= inject_Z (10 * d + -1))%Q)
        by (rewrite <- Zle_Qle; lia).
      rewrite inject_Z_plus, !inject_Z_mult in H.
      change (inject_Z (-3)) with (-3 # 1)%Q in H.
      change (inject_Z 10) with (10 # 1)%Q in H.
      change (inject_Z (-1)) with (-1 # 1)%Q in H.
      lra.
  - destruct (leb p (of_Z float64 d)) eqn:E; [|done]. exfalso.
    apply leb64 in E; [|done|done].
    rewrite Vd in E.
    assert (H : (inject_Z (10 * d + 1) <= inject_Z (-3 * s))%Q)
      by (rewrite <- Zle_Qle; lia).
    rewrite inject_Z_plus, !inject_Z_mult in H.
    change (inject_Z (-3)) with (-3 # 1)%Q in H.
    change (inject_Z 10) with (10 # 1)%Q in H.
    change (inject_Z 1) with (1 # 1)%Q in H.
    lra.
Qed.

End IokFacts.

(* ===================================================================== *)
(** * The NDVI [_regrid] writes                                           *)
(* ===================================================================== *)

Module NdviFacts.
Import Float Py Np Xr Vegind VegIndClass.
Import ArrayFacts StoreFacts AggFacts RatioFacts ExactInt SumFacts RegridFacts.
Import FloatFacts Rounding RoundSpec RoundMore IokFacts.

Lemma sub64_int a b :
  Z.abs a < 2 ^ 53 -> Z.abs b < 2 ^ 53 -> Z.abs (a - b) < 2 ^ 53 ->
  sub float64 (of_Z float64 a) (of_Z float64 b) = of_Z float64 (a - b).
Proof. intros. by apply (sub_int 53 1024). Qed.

(** The sums of a band over a cell are bounded by the number of pixels. *)
Lemma cell_total_abs band late lone i j (grans : list Granule) :
  is_band band -> Forall (Forall wf_pixel) grans ->
  32768 * total_pixels grans < 2 ^ 53 ->
  Z.abs (sumZ (cell_total band late lone i j <$> grans))
  <= 32768 * total_pixels grans.
Proof.
  intros Hb Hwf Hsz.
  destruct (cell_totals_exact band late lone i j grans Hb Hwf Hsz) as [_ B].
  pose proof (sumZ_abs (cell_total band late lone i j <$> grans)). lia.
Qed.

(** The quotient of the exact sums, in double precision. *)
Definition ratio_of_sums (w : World) (nlat nlon : nat)
    (grans : list Granule) (i j : nat) : spec_float :=
  let late := (edges w nlat nlon).1 in
  let lone := (edges w nlat nlon).2 in
  let rsum := sumZ (cell_total redin late lone i j <$> grans) in
  let qsum := sumZ (cell_total nirin late lone i j <$> grans) in
  div float64 (of_Z float64 (qsum - rsum)) (of_Z float64 (qsum + rsum)).

Lemma ratio_dims (red nir : ndarray) nlat nlon :
  dims red = replicate nlat nlon -> dims nir = replicate nlat nlon ->
  dims (map2 (div float64) (map2 (sub float64) nir red)
                           (map2 (add float64) nir red))
  = replicate nlat nlon.
Proof.
  intros Hr Hn.
  assert (Hs : dims (map2 (sub float64) nir red) = replicate nlat nlon)
    by (rewrite dims_map2; congruence).
  assert (Ha : dims (map2 (add float64) nir red) = replicate nlat nlon)
    by (rewrite dims_map2; congruence).
  rewrite dims_map2; congruence.
Qed.

(** The run of [_regrid] without a mask on a grid dataset, when the
    loop succeeds. *)
Lemma regrid_run_ok w dsout dirin h ds nlat nlon var num red nir :
  h !! dsout = Some ds ->
  sizes ds !! "lat" = Some nlat -> sizes ds !! "lon" = Some nlon ->
  data_vars ds !! "NDVI" = Some var ->
  dims (var_values var) = replicate nlat nlon ->
  glob w (path_join dirin "*.hdf") <> [] ->
  accumulate w nlat nlon (glob w (path_join dirin "*.hdf"))
  = Ok (num, red, nir) ->
  _regrid w dsout dirin None h
  = (<[dsout :=
         {| sizes := sizes ds;
            coords := coords ds;
            data_vars :=
              <["NDVI" :=
                  {| var_dims := var_dims var;
                     var_dtype := var_dtype var;
                     var_values :=
                       map1 (astype (var_dtype var))
                         (map2 (div float64) (map2 (sub float64) nir red)
                                             (map2 (add float64) nir red));
                     var_attrs := var_attrs var |}]>
                (data_vars ds);
            attrs :=
              <["input_files" :=
                  join ", " (basename <$> glob w (path_join dirin "*.hdf"))]>
                (attrs ds) |}]> h,
     Ok dsout).
Proof.
  intros Hds Hlat Hlon Hvar Hdims Hne Hacc.
  rewrite _regrid_run, Hds, Hlat, Hlon. cbv zeta.
  destruct (glob w (path_join dirin "*.hdf")) as [|ff flist] eqn:Hg; [done|].
  cbn [length Nat.eqb]. rewrite Hacc.
  apply accumulate_inv in Hacc as ((_ & Dr & Dn) & _). cbn [fst snd] in Dr, Dn.
  rewrite ndvi_ratio_quiet. cbn [apply_mask]. rewrite Hvar.
  unfold same_shape. rewrite bool_decide_eq_true_2; [done|].
  rewrite (ratio_dims red nir nlat nlon) by done. done.
Qed.

(** ** The mask *)

Lemma blend_cell_nan y : blend_cell nan y = nan.
Proof. reflexivity. Qed.

(** A mask that broadcasts to the grid is applied cell by cell and
    keeps the shape. *)
Lemma apply_mask_fits nlat nlon (ndvi : ndarray) mask :
  dims ndvi = replicate nlat nlon -> mask_fits nlat nlon mask = true ->
  exists ndvi',
    apply_mask nlat nlon ndvi mask = Ok ndvi' /\
    dims ndvi' = replicate nlat nlon /\
    forall i j x,
      cell ndvi i j = Some x ->
      match mask with
      | None => cell ndvi' i j = Some x
      | Some _ => exists y, cell ndvi' i j = Some (blend_cell x y)
      end.
Proof.
  intros Hd Hm. destruct mask as [m|]; cbn [apply_mask mask_fits] in *.
  - apply andb_prop in Hm as [Hm H1]. apply andb_prop in Hm as [Hrect H0].
    apply orb_prop in H0. apply orb_prop in H1.
    rewrite !Nat.eqb_eq in H0, H1.
    destruct (broadcast2_fits blend_cell nlat nlon ndvi m Hd Hrect H0 H1)
      as (r & Hr & Hdr).
    rewrite Hrect, Hr. exists r. split; [done|]. split; [done|].
    intros i j x Hx.
    by apply (broadcast2_cells blend_cell nlat nlon ndvi m r).
  - exists ndvi. by split_and!.
Qed.

(** ** The loop ends *)

Lemma accumulate_ok w nlat nlon flist grans :
  edges_monotonic w nlat nlon = true -> read_all w flist grans ->
  exists num red nir, accumulate w nlat nlon flist = Ok (num, red, nir).
Proof.
  intros Hm Hr. unfold accumulate, edges_monotonic in *.
  destruct (edges w nlat nlon) as [late lone]. cbn [fst snd] in Hm.
  destruct (loop_ok w late lone flist grans Hm Hr
              (zeros nlat nlon, zeros nlat nlon, zeros nlat nlon))
    as [[[num red] nir] ->].
  by exists num, red, nir.
Qed.

(** The run of [_regrid] with a mask, when the loop and the blend
    succeed. *)
Lemma regrid_run_mask w dsout dirin mask h ds nlat nlon var num red nir ndvi' :
  h !! dsout = Some ds ->
  sizes ds !! "lat" = Some nlat -> sizes ds !! "lon" = Some nlon ->
  data_vars ds !! "NDVI" = Some var ->
  glob w (path_join dirin "*.hdf") <> [] ->
  accumulate w nlat nlon (glob w (path_join dirin "*.hdf"))
  = Ok (num, red, nir) ->
  apply_mask nlat nlon
    (map2 (div float64) (map2 (sub float64) nir red)
                        (map2 (add float64) nir red)) mask = Ok ndvi' ->
  dims ndvi' = dims (var_values var) ->
  _regrid w dsout dirin mask h
  = (<[dsout :=
         {| sizes := sizes ds;
            coords := coords ds;
            data_vars :=
              <["NDVI" :=
                  {| var_dims := var_dims var;
                     var_dtype := var_dtype var;
                     var_values := map1 (astype (var_dtype var)) ndvi';
                     var_attrs := var_attrs var |}]>
                (data_vars ds);
            attrs :=
              <["input_files" :=
                  join ", " (basename <$> glob w (path_join dirin "*.hdf"))]>
                (attrs ds) |}]> h,
     Ok dsout).
Proof.
  intros Hds Hlat Hlon Hvar Hne Hacc Hmask Hdims.
  rewrite _regrid_run, Hds, Hlat, Hlon. cbv zeta.
  destruct (glob w (path_join dirin "*.hdf")) as [|ff flist] eqn:Hg; [done|].
  cbn [length Nat.eqb]. rewrite Hacc, ndvi_ratio_quiet, Hmask, Hvar.
  unfold same_shape. by rewrite bool_decide_eq_true_2.
Qed.

(** ** The shape of a conversion *)

Lemma dims_assign_where mask rhs out :
  dims mask = dims out -> dims rhs = dims out ->
  dims (assign_where mask rhs out) = dims out.
Proof.
  intros Hm Hr. unfold assign_where.
  assert (H : dims (map2 pair rhs out) = dims out)
    by (rewrite dims_map2; congruence).
  rewrite dims_map2; congruence.
Qed.

Lemma jojo_dims dt (ndvi : ndarray) : dims (_ndvi2fpar_jojo dt ndvi) = dims ndvi.
Proof.
  unfold _ndvi2fpar_jojo, zeros_like. cbv zeta. rewrite dims_map1.
  assert (H0 : dims (map1 (fun _ : spec_float => zero) ndvi) = dims ndvi)
    by apply dims_map1.
  rewrite dims_assign_where; rewrite dims_assign_where; rewrite ?dims_map1;
    try done.
  all: rewrite dims_map2; by rewrite !dims_map1.
Qed.

(** A variable of the shape of the grid fits the sizes of the dataset. *)
Lemma assign2d_grid ds nlat nlon name dt (data : ndarray) vattrs :
  sizes ds !! "lat" = Some nlat -> sizes ds !! "lon" = Some nlon ->
  dims data = replicate nlat nlon ->
  exists ds', assign2d ds name "lat" "lon" dt data vattrs = Ok ds'.
Proof.
  intros Hlat Hlon Hd. apply dims_replicate in Hd as [Hl Hf].
  unfold assign2d. rewrite Hlat, Hlon.
  rewrite bool_decide_eq_true_2 by done. cbn [andb].
  replace (forallb _ data) with true; [by eexists|].
  symmetry. apply forallb_forall. intros row Hrow.
  apply bool_decide_eq_true_2. symmetry.
  rewrite Forall_forall in Hf. by apply Hf, list_elem_of_In.
Qed.

Lemma ratio_cell w nlat nlon grans i j :
  Forall (Forall wf_pixel) grans ->
  65536 * total_pixels grans < 2 ^ 53 ->
  (i < nlat)%nat -> (j < nlon)%nat ->
  cell (map2 (div float64)
          (map2 (sub float64) (exact_accumulator w nlat nlon grans).2
                              (exact_accumulator w nlat nlon grans).1.2)
          (map2 (add float64) (exact_accumulator w nlat nlon grans).2
                              (exact_accumulator w nlat nlon grans).1.2)) i j
  = Some (ratio_of_sums w nlat nlon grans i j).
Proof.
  intros Hwf Hsz Hi Hj.
  pose proof (total_pixels_nonneg grans) as Hnn.
  unfold exact_accumulator, ratio_of_sums. cbv zeta. cbn [fst snd].
  set (late := (edges w nlat nlon).1). set (lone := (edges w nlat nlon).2).
  rewrite !cell_map2, !grid_table_cell by done.
  pose proof (cell_total_abs redin late lone i j grans ltac:(by left) Hwf
                ltac:(lia)) as Br.
  pose proof (cell_total_abs nirin late lone i j grans ltac:(by right) Hwf
                ltac:(lia)) as Bq.
  rewrite sub64_int, add64_int by lia. done.
Qed.

(** ** Reflectances that are not negative *)

Lemma sumZ_nonneg l : Forall (fun z => 0 <= z) l -> 0 <= sumZ l.
Proof. induction 1 as [|z l Hz _ IH]; cbn; [done|]. unfold sumZ in IH. lia. Qed.

Lemma cell_total_nonneg band late lone i j (grans : list Granule) :
  is_band band ->
  Forall (Forall nonneg_if_eligible) grans ->
  0 <= sumZ (cell_total band late lone i j <$> grans).
Proof.
  intros Hb Hnn. apply sumZ_nonneg. apply Forall_fmap.
  eapply Forall_impl; [exact Hnn|]. intros g Hg. cbn.
  unfold cell_total. apply sumZ_nonneg. apply Forall_fmap.
  unfold cell_pixels. apply Forall_forall. intros p Hp.
  apply list_elem_of_In, filter_In in Hp as [Hp _].
  apply filter_In in Hp as [Hp Hok].
  rewrite Forall_forall in Hg. apply list_elem_of_In in Hp.
  destruct (Hg p Hp Hok) as [Hr Hq]. cbn.
  destruct Hb as [-> | ->]; done.
Qed.

(** The quotient of a difference by a sum that bounds it. *)
Lemma ratio_range a b :
  0 < b -> Z.abs a <= b -> b < 2 ^ 53 ->
  fin 53 1024 (div float64 (of_Z float64 a) (of_Z float64 b)) /\
  (-1 <= sval (div float64 (of_Z float64 a) (of_Z float64 b)))%Q /\
  (sval (div float64 (of_Z float64 a) (of_Z float64 b)) <= 1)%Q.
Proof.
  intros Hb Ha Hlt.
  destruct (of_Z_fin a) as [Fa Va]; [lia|].
  destruct (of_Z_fin b) as [Fb Vb]; [lia|].
  destruct (of_Z_fin (-1)) as [FL VL]; [done|].
  destruct (of_Z_fin 1) as [FU VU]; [done|].
  assert (HB : (0 < inject_Z b)%Q).
  { change 0%Q with (inject_Z 0). by rewrite <- Zlt_Qlt. }
  assert (HA0 : (- inject_Z b <= inject_Z a)%Q).
  { rewrite <- inject_Z_opp, <- Zle_Qle. lia. }
  assert (HA1 : (inject_Z a <= inject_Z b)%Q) by (rewrite <- Zle_Qle; lia).
  destruct (of_Z float64 b) as [sb|sb| |sb mb eb] eqn:Eb;
    try (destruct Fb as [? _]; done).
  { cbn [sval] in Vb. rewrite <- Vb in HB. by apply Qlt_irrefl in HB. }
  unfold div.
  destruct (div_between 53 1024 ltac:(done) ltac:(done)
              (of_Z float64 a) sb mb eb _ _ Fa Fb FL FU) as (Fv & Hlo & Hhi).
  { rewrite VL, Va, Vb. change (inject_Z (-1)) with (-1 # 1)%Q.
    apply Qle_shift_div_l; [done|]. lra. }
  { rewrite VU, Va, Vb. change (inject_Z 1) with (1 # 1)%Q.
    apply Qle_shift_div_r; [done|]. lra. }
  rewrite VL in Hlo. rewrite VU in Hhi. done.
Qed.

(** Converted to the dtype of the variable, it is still in [-1, 1]. *)
Lemma ratio_astype_range dt a b :
  0 < b -> Z.abs a <= b -> b < 2 ^ 53 ->
  leb (of_Z dt (-1))
      (astype dt (div float64 (of_Z float64 a) (of_Z float64 b))) = true /\
  leb (astype dt (div float64 (of_Z float64 a) (of_Z float64 b)))
      (of_Z dt 1) = true.
Proof.
  intros Hb Ha Hlt.
  destruct (ratio_range a b Hb Ha Hlt) as ((Hf & _) & Hlo & Hhi).
  destruct (of_Z_dt dt (-1)) as [FL VL]; [done|].
  destruct (of_Z_dt dt 1) as [FU VU]; [done|].
  destruct (astype_between dt _ _ _ Hf FL FU) as (Fr & H0 & H1).
  { by rewrite VL. }
  { by rewrite VU. }
  split; apply (leb_dt dt); done.
Qed.

End NdviFacts.

(* ===================================================================== *)
(** * The properties of the design, one by one                            *)
(* ===================================================================== *)

Import Float Py Np Xr Vegind VegIndClass Examples MoreExamples.
Import ArrayFacts FloatFacts PolicyFacts StoreFacts AggFacts LosFacts RatioFacts.
Import RegridFacts PolicyRange NdviFacts.

(** C1, as the design states it, fails on its boundary sequence: at NDVI
    0.5 the code gives exactly 0.4375, the value of the ramp formula, which
    is not within 1e-6 of the printed 0.4667. *)
Lemma C1_printed_sequence_fails :
  exists row x,
    _ndvi2fpar_jojo float64 (boundary_ndvi float64) = [row] /\
    all_within (1 # 1000000) row boundary_fpar_printed = false /\
    row !! 3%nat = Some x /\
    within 0 x (4375 # 10000) = true /\
    within (1 # 1000000) x (4667 # 10000) = false.
Proof. eexists _, _. vm_compute. repeat split; reflexivity. Qed.

(** C1 (amended): [_ndvi2fpar_jojo], the policy [VegInd.ndvi2fpar] calls,
    is the reference piecewise map with N0 = 0.15 and N1 = 0.75 on every
    cell, at either dtype: 0 up to N0, the ramp [(ndvi - N0)/(N1 - N0)*N1]
    up to N1, the identity above, 0 on an undefined cell.  On the boundary
    sequence [-0.2, 0.10, 0.15, 0.5, 0.75, 0.9] it yields
    [0, 0, 0, 0.4375, 0.75, 0.9] within 1e-6. *)
Theorem C1_policy_C_reference :
  (forall dt (ndvi : ndarray) i j,
      cell (_ndvi2fpar_jojo dt ndvi) i j = policy_C_spec dt <$> cell ndvi i j) /\
  (forall dt, exists row,
      _ndvi2fpar_jojo dt (boundary_ndvi dt) = [row] /\
      all_within (1 # 1000000) row boundary_fpar_formula = true) /\
  (forall self lctype h h' r,
      ndvi2fpar self lctype h = (h', Ok r) ->
      exists ds ds' var fp,
        h !! self = Some ds /\ data_vars ds !! "NDVI" = Some var /\
        h' !! r = Some ds' /\ data_vars ds' !! "fPAR" = Some fp /\
        var_values fp = _ndvi2fpar_jojo (var_dtype var) (var_values var)).
Proof.
  split; [|split].
  - intros dt ndvi i j. rewrite jojo_cells.
    destruct (cell ndvi i j) as [x|]; [|done].
    simpl. by rewrite jojo_cell_spec.
  - intros []; eexists; vm_compute; split; reflexivity.
  - intros self lctype h h' r H. rewrite ndvi2fpar_run in H.
    destruct (h !! self) as [ds|] eqn:Hs; [|done].
    destruct (data_vars ds !! "NDVI") as [var|] eqn:Hvar; [|done].
    destruct (assign2d _ _ _ _ _ _ _) as [ds'|e] eqn:E; [|done].
    injection H as <- <-. apply assign2d_ok in E as (_ & _ & Hv).
    eexists ds, ds', var, _. split_and!; [done|done| | |].
    + by rewrite lookup_insert_eq.
    + rewrite Hv. by rewrite lookup_insert_eq.
    + done.
Qed.

(** C4: when the glob of the input directory matches no file, [_regrid]
    fails and leaves the store, and so the output dataset and its NDVI
    field, exactly as they were; on a dataset with [lat] and [lon] sizes
    the exception is the [EOFError('no files to open')] by which the code
    reports that there is no input data. *)
Theorem C4_no_input_is_fatal (w : World) (dsout : ref) (dirin : string)
    (mask : option ndarray) (h : store) :
  glob w (path_join dirin "*.hdf") = [] ->
  (exists e, _regrid w dsout dirin mask h = (h, Raise e)) /\
  (forall ds,
      h !! dsout = Some ds ->
      is_Some (sizes ds !! "lat") -> is_Some (sizes ds !! "lon") ->
      _regrid w dsout dirin mask h = (h, Raise (EOFError "no files to open"))) /\
  regrid w dsout dirin mask h = _regrid w dsout dirin mask h.
Proof.
  intros Hglob. unfold regrid. rewrite _regrid_run, Hglob. cbn [length Nat.eqb].
  split; [|split; [|done]].
  - destruct (h !! dsout) as [ds|]; [|eauto].
    destruct (sizes ds !! "lat"); [|eauto].
    destruct (sizes ds !! "lon"); eauto.
  - intros ds -> [nlat ->] [nlon ->]. done.
Qed.

Lemma C4_no_input_is_fatal_witness :
  glob world_empty (path_join "/data" "*.hdf") = [] /\
  _regrid world_empty 1%positive "/data" None store0
  = (store0, Raise (EOFError "no files to open")).
Proof.
  split; [reflexivity|].
  apply (C4_no_input_is_fatal world_empty 1%positive "/data" None store0
           eq_refl) with (ds := blank).
  - reflexivity.
  - by eexists.
  - by eexists.
Defined.

(** C6: a pixel is eligible exactly when the five conditions hold; a red
    magnitude of 32767, or a red or near-infrared quality flag of 255,
    makes it ineligible whatever its other fields are; and an ineligible
    pixel adds nothing to the bins of its granule. *)
Theorem C6_eligibility :
  (forall p,
      iok p = true <->
      abs16 (redin p) <> 32767 /\ abs16 (nirin p) <> 32767 /\
      redqc p <> 255 /\ nirqc p <> 255 /\
      leb (mul float64 NDVIMIN (of_Z float64 (add16 (nirin p) (redin p))))
          (of_Z float64 (sub16 (nirin p) (redin p))) = true) /\
  (forall p, Z.abs (redin p) = 32767 -> iok p = false) /\
  (forall p, redqc p = 255 \/ nirqc p = 255 -> iok p = false) /\
  (forall late lone g1 p g2,
      iok p = false ->
      bin_granule late lone (g1 ++ p :: g2) = bin_granule late lone (g1 ++ g2)).
Proof.
  split_and!.
  - intros p. unfold iok.
    rewrite !andb_true_iff, !negb_true_iff, !Z.eqb_neq. tauto.
  - intros p H. unfold iok, abs16. rewrite H. reflexivity.
  - intros p [H|H]; unfold iok; rewrite H; cbn [Z.eqb Pos.eqb negb andb];
      [by rewrite andb_false_r|by rewrite !andb_false_r].
  - intros late lone g1 p g2 H. unfold bin_granule.
    by rewrite !List.filter_app; cbn [List.filter]; rewrite H.
Qed.

(** C9, as the design states it, fails: the names are joined in the order
    of [glob], which need not be sorted, and with a comma and a blank. *)
Lemma C9_input_files_not_sorted :
  exists h' ds',
    _regrid world_two 1%positive "/data" None store0 = (h', Ok 1%positive) /\
    h' !! 1%positive = Some ds' /\
    attrs ds' !! "input_files" = Some "b.hdf, a.hdf"%string /\
    sorted (basename <$> glob world_two (path_join "/data" "*.hdf"))
    = ["a.hdf"; "b.hdf"]%string /\
    attrs ds' !! "input_files"
    <> Some (join ","
               (sorted (basename <$> glob world_two (path_join "/data" "*.hdf")))) /\
    attrs ds' !! "input_files"
    <> Some (join ", "
               (sorted (basename <$> glob world_two (path_join "/data" "*.hdf")))).
Proof.
  eexists _, _. split; [vm_compute; reflexivity|].
  split; [vm_compute; reflexivity|].
  vm_compute. repeat split; discriminate.
Qed.

(** C9 (amended): after a successful aggregation the [input_files]
    attribute of the output dataset is the base names of the files [glob]
    matched, in the order [glob] returned them, joined by [", "]. *)
Theorem C9_input_files (w : World) (dsout : ref) (dirin : string)
    (mask : option ndarray) (h h' : store) (r : ref) :
  _regrid w dsout dirin mask h = (h', Ok r) ->
  r = dsout /\
  exists ds',
    h' !! r = Some ds' /\
    attrs ds' !! "input_files"
    = Some (join ", " (basename <$> glob w (path_join dirin "*.hdf"))).
Proof.
  rewrite _regrid_run.
  destruct (h !! dsout) as [ds|]; [|done].
  destruct (sizes ds !! "lat") as [nlat|]; [|done].
  destruct (sizes ds !! "lon") as [nlon|]; [|done].
  cbv zeta.
  destruct (length _ =? 0)%nat; [done|].
  destruct (accumulate w nlat nlon _) as [[[num red] nir]|e]; [|done].
  destruct (ndvi_ratio red nir) as [ndvi ws|f]; [|done].
  destruct (apply_mask nlat nlon ndvi mask) as [ndvi'|e]; [|done].
  destruct (data_vars ds !! "NDVI") as [var|]; [|done].
  destruct (negb _); [done|].
  intros [= <- <-]. split; [done|].
  eexists. rewrite lookup_insert_eq. split; [done|].
  cbn [attrs]. by rewrite lookup_insert_eq.
Qed.

Lemma C9_input_files_witness :
  exists ds',
    (_regrid world_two 1%positive "/data" None store0).1 !! 1%positive
    = Some ds' /\
    attrs ds' !! "input_files" = Some "b.hdf, a.hdf"%string.
Proof.
  destruct (C9_input_files world_two 1%positive "/data" None store0
              (_regrid world_two 1%positive "/data" None store0).1
              1%positive) as (_ & ds' & H1 & H2).
  - vm_compute. reflexivity.
  - exists ds'. split; [exact H1|]. rewrite H2. vm_compute. reflexivity.
Defined.

(** C10: [ndvi2fpar] leaves its receiver as it was.  When it succeeds the
    result is a new object, whose variables are those of the receiver with
    [fPAR] added, computed from NDVI by the active policy; its NDVI
    variable, coordinates and attributes are those of the receiver.  When
    it fails nothing changes.  And it succeeds on every receiver that is
    a grid with an NDVI variable of the shape of the grid, whatever the
    land cover array. *)
Theorem C10_ndvi2fpar_frame :
  (forall (self : ref) (lctype : array2 Z) (h : store),
    (ndvi2fpar self lctype h).1 !! self = h !! self /\
    match (ndvi2fpar self lctype h).2 with
    | Raise _ => (ndvi2fpar self lctype h).1 = h
    | Ok r =>
        h !! r = None /\
        exists ds ds' var fp,
          h !! self = Some ds /\
          (ndvi2fpar self lctype h).1 = <[r := ds']> h /\
          data_vars ds !! "NDVI" = Some var /\
          data_vars ds' = <["fPAR" := fp]> (data_vars ds) /\
          var_values fp = _ndvi2fpar_jojo (var_dtype var) (var_values var) /\
          data_vars ds' !! "NDVI" = Some var /\
          coords ds' = coords ds /\
          attrs ds' = attrs ds
    end) /\
  (forall (self : ref) (lctype : array2 Z) (h : store) (ds : Dataset)
          (nlat nlon : nat),
    h !! self = Some ds -> grid_dataset ds nlat nlon ->
    exists r, (ndvi2fpar self lctype h).2 = Ok r).
Proof.
  split.
  - intros self lctype h. rewrite ndvi2fpar_run.
    destruct (h !! self) as [ds|] eqn:Hs; [|done].
    destruct (data_vars ds !! "NDVI") as [var|] eqn:Hv; [|done].
    destruct (assign2d _ _ _ _ _ _ _) as [ds'|e] eqn:E; [|done].
    apply assign2d_ok in E as (Hc & Ha & Hd).
    cbn [fst snd]. split.
    + rewrite lookup_insert_ne; [done|].
      intros <-. by rewrite fresh_ref_unused in Hs.
    + split; [apply fresh_ref_unused|].
      eexists ds, ds', var, _. repeat split; try done.
      rewrite Hd. by rewrite lookup_insert_ne.
  - intros self lctype h ds nlat nlon Hs (Hlat & Hlon & var & Hv & Hd).
    rewrite ndvi2fpar_run, Hs, Hv.
    destruct (assign2d_grid ds nlat nlon "fPAR" (var_dtype var)
                (_ndvi2fpar_jojo (var_dtype var) (var_values var)) fPAR_attrs
                Hlat Hlon) as [ds' ->]; [by rewrite jojo_dims|].
    by eexists.
Qed.

Lemma C10_ndvi2fpar_frame_witness :
  exists r ds',
    (ndvi2fpar 1%positive [[7]] store0).2 = Ok r /\
    (ndvi2fpar 1%positive [[7]] store0).1 = <[r := ds']> store0 /\
    store0 !! r = None /\
    (ndvi2fpar 1%positive [[7]] store0).1 !! 1%positive = Some blank /\
    data_vars ds' !! "NDVI" = data_vars blank !! "NDVI" /\
    is_Some (data_vars ds' !! "fPAR").
Proof.
  destruct C10_ndvi2fpar_frame as [Hframe Hok].
  destruct (Hok 1%positive [[7]] store0 blank 1%nat 1%nat) as [r Hr].
  - reflexivity.
  - split; [reflexivity|]. split; [reflexivity|].
    eexists. split; reflexivity.
  - destruct (Hframe 1%positive [[7]] store0) as [Hself Hres].
    rewrite Hr in Hres.
    destruct Hres as (Hnew & ds & ds' & var & fp & Hds & Hh & Hvar & Hdv &
                      _ & Hndvi & _ & _).
    exists r, ds'. split; [exact Hr|]. split; [exact Hh|].
    split; [exact Hnew|]. split; [rewrite Hself; reflexivity|].
    assert (ds = blank) as -> by (by injection Hds).
    split; [by rewrite Hndvi, Hvar|].
    rewrite Hdv, lookup_insert_eq. by eexists.
Defined.

(** C2: the ratio is taken with divisions by zero and invalid operations
    ignored, so it neither raises nor warns.  On a grid dataset, with
    files that can all be read, bin edges [np.histogram2d] accepts and no
    mask or a mask that broadcasts to the grid, [_regrid] succeeds, and a
    cell no eligible pixel falls into has count 0 and sums 0 and its NDVI
    in the output dataset is NaN.  Each of the three policies maps an NaN
    cell to 0: [_ndvi2fpar_jojo] and [_ndvi2fpar_lin] always, and
    [_ndvi2fpar_los] whenever it returns, which it does with at most 18
    classes and a land cover array that fits the NDVI array. *)
Theorem C2_undefined_propagation :
  (forall red nir,
      ndvi_ratio red nir
      = FPok (map2 (div float64) (map2 (sub float64) nir red)
                                 (map2 (add float64) nir red)) []) /\
  (forall w dsout dirin mask h ds nlat nlon grans i j,
      h !! dsout = Some ds ->
      grid_dataset ds nlat nlon ->
      glob w (path_join dirin "*.hdf") <> [] ->
      read_all w (glob w (path_join dirin "*.hdf")) grans ->
      edges_monotonic w nlat nlon = true ->
      mask_fits nlat nlon mask = true ->
      (i < nlat)%nat -> (j < nlon)%nat ->
      no_coverage w nlat nlon (glob w (path_join dirin "*.hdf")) i j ->
      (exists num red nir,
          accumulate w nlat nlon (glob w (path_join dirin "*.hdf"))
          = Ok (num, red, nir) /\
          cell num i j = Some zero /\ cell red i j = Some zero /\
          cell nir i j = Some zero) /\
      exists h' ds' var,
        _regrid w dsout dirin mask h = (h', Ok dsout) /\
        h' !! dsout = Some ds' /\ data_vars ds' !! "NDVI" = Some var /\
        dims (var_values var) = replicate nlat nlon /\
        cell (var_values var) i j = Some nan) /\
  (forall dt (ndvi : ndarray) i j,
      cell ndvi i j = Some nan ->
      cell (_ndvi2fpar_jojo dt ndvi) i j = Some zero /\
      cell (_ndvi2fpar_lin dt ndvi) i j = Some zero /\
      (forall w lctype fpar,
          _ndvi2fpar_los w dt ndvi lctype = Ok fpar ->
          cell fpar i j = Some zero) /\
      (forall w lctype,
          (NTYPE w <= 18)%nat -> index_fits lctype ndvi = true ->
          exists fpar,
            _ndvi2fpar_los w dt ndvi lctype = Ok fpar /\
            cell fpar i j = Some zero)).
Proof.
  assert (Hlos : forall dt (ndvi : ndarray) i j w lctype fpar,
             cell ndvi i j = Some nan ->
             _ndvi2fpar_los w dt ndvi lctype = Ok fpar ->
             cell fpar i j = Some zero).
  { intros dt ndvi i j w lctype fpar Hx Hrun.
    apply los_cells in Hrun as (_ & Hc).
    destruct (Hc i j nan Hx) as (v & -> & [->|(nn & N0 & N1 & _ & _ & _ & ->)]).
    - reflexivity.
    - by rewrite los_value_nan. }
  split_and!.
  - intros red nir. apply ndvi_ratio_quiet.
  - intros w dsout dirin mask h ds nlat nlon grans i j
      Hds (Hlat & Hlon & var & Hvar & Hdv) Hne Hread Hmono Hmask Hi Hj Hno.
    destruct (accumulate_ok w nlat nlon _ grans Hmono Hread)
      as (num & red & nir & Hacc).
    pose proof Hacc as Hinv.
    apply accumulate_inv in Hinv as ((_ & Dr & Dn) & grans' & Hread' & Hc).
    cbn [fst snd] in Dr, Dn.
    destruct (Hc i j Hi Hj) as (Cn & Cr & Cq).
    destruct (no_coverage_zero w nlat nlon _ grans' i j Hread' Hno)
      as (Zn & Zr & Zq).
    rewrite (fold_add_zeros _ Zn) in Cn.
    rewrite (fold_add_zeros _ Zr) in Cr.
    rewrite (fold_add_zeros _ Zq) in Cq.
    split; [by eexists num, red, nir|].
    set (ratio := map2 (div float64) (map2 (sub float64) nir red)
                                     (map2 (add float64) nir red)).
    assert (Hratio : cell ratio i j = Some nan).
    { unfold ratio. rewrite !cell_map2, Cr, Cq. reflexivity. }
    destruct (apply_mask_fits nlat nlon ratio mask) as (ndvi' & Hm & Hd' & Hcell);
      [by apply ratio_dims|done|].
    assert (Hnan : cell ndvi' i j = Some nan).
    { specialize (Hcell i j nan Hratio). destruct mask as [m|]; [|done].
      by destruct Hcell as [y ->]. }
    eexists _, _, _. split.
    { apply (regrid_run_mask w dsout dirin mask h ds nlat nlon var num red nir
               ndvi'); try done. congruence. }
    split; [apply lookup_insert_eq|].
    cbn [data_vars]. split; [apply lookup_insert_eq|].
    cbn [var_values]. split; [by rewrite dims_map1|].
    by rewrite cell_map1, Hnan.
  - intros dt ndvi i j Hx. split_and!.
    + by rewrite jojo_cells, Hx, <- (jojo_cell_nan dt).
    + by rewrite lin_cells, Hx, <- (lin_cell_nan dt).
    + intros w lctype fpar. by apply Hlos.
    + intros w lctype Hk Hfit.
      destruct (los_loop_fits dt ndvi lctype (seq 0 (NTYPE w)))
        with (fpar := zeros_like ndvi) as (fp & Hloop & _).
      { apply Forall_forall. intros nn Hin. apply elem_of_seq in Hin. lia. }
      { done. }
      { unfold zeros_like. apply dims_map1. }
      assert (Hrun : _ndvi2fpar_los w dt ndvi lctype = Ok (map1 nan_to_zero fp)).
      { unfold _ndvi2fpar_los. by rewrite Hloop. }
      eexists. split; [exact Hrun|]. by apply (Hlos dt ndvi i j w lctype).
Qed.

(** C2 on a grid of two cells of which the second gets no pixel, with a
    mask of one element. *)
Lemma C2_undefined_propagation_witness :
  exists h' ds' var fpar,
    _regrid world_two 1%positive "/data" (Some [[one]]) store_wide
    = (h', Ok 1%positive) /\
    h' !! 1%positive = Some ds' /\
    data_vars ds' !! "NDVI" = Some var /\
    cell (var_values var) 0 1 = Some nan /\
    cell (_ndvi2fpar_jojo float32 (var_values var)) 0 1 = Some zero /\
    cell (_ndvi2fpar_lin float32 (var_values var)) 0 1 = Some zero /\
    _ndvi2fpar_los world_two float32 (var_values var) [[7; 7]] = Ok fpar /\
    cell fpar 0 1 = Some zero.
Proof.
  destruct C2_undefined_propagation as (_ & Hregrid & Hpolicies).
  destruct (Hregrid world_two 1%positive "/data" (Some [[one]]) store_wide
              wide 1%nat 2%nat grans_two 0%nat 1%nat)
    as (_ & h' & ds' & var & Hrun & Hh & Hvar & Hdims & Hnan).
  - reflexivity.
  - split; [reflexivity|]. split; [reflexivity|].
    eexists. split; reflexivity.
  - discriminate.
  - repeat constructor.
  - vm_compute. reflexivity.
  - vm_compute. reflexivity.
  - lia.
  - lia.
  - intros ff dsin Hin Hopen.
    apply elem_of_cons in Hin as [->|Hin];
      [|apply elem_of_cons in Hin as [->|Hin]; [|by apply elem_of_nil in Hin]];
      vm_compute in Hopen; injection Hopen as <-; vm_compute; reflexivity.
  - destruct (Hpolicies float32 (var_values var) 0%nat 1%nat Hnan)
      as (Hjojo & Hlin & _ & Hlos).
    destruct (Hlos world_two [[7; 7]]) as (fpar & Hfpar & Hzero).
    + cbn. lia.
    + apply index_fits_same. by rewrite Hdims.
    + exists h', ds', var, fpar. by split_and!.
Defined.

(* ===================================================================== *)
(** * Further properties of the code                                      *)
(* ===================================================================== *)

Import VegIndClass MoreExamples ExactInt SumFacts RegridFacts PolicyRange.
Import RoundMore IokFacts NdviFacts.

(** ** The accumulation loop of [_regrid] *)

(** X1: the accumulators hold exact integers.  Let every file of the
    list be readable, the bands be [int16] and the granules have fewer
    than 2^53 / 32768 pixels in all.  When [np.histogram2d] accepts the
    bin edges (neither array of edges decreases), or the list is empty,
    the loop of [_regrid] ends with, in every cell, the number of
    eligible pixels the cell received and the integer sums of their red
    and near-infrared reflectances, each converted to double precision
    without any rounding error.  Otherwise the loop raises
    [ValueError]. *)
Theorem accumulators_are_exact (w : World) (nlat nlon : nat)
    (flist : list string) (grans : list Granule) :
  read_all w flist grans ->
  Forall (Forall wf_pixel) grans ->
  32768 * total_pixels grans < 2 ^ 53 ->
  (edges_monotonic w nlat nlon = true \/ flist = [] ->
   exists num red nir,
     accumulate w nlat nlon flist = Ok (num, red, nir) /\
     acc_dims nlat nlon (num, red, nir) /\
     forall i j,
       (i < nlat)%nat -> (j < nlon)%nat ->
       let late := (edges w nlat nlon).1 in
       let lone := (edges w nlat nlon).2 in
       let count := sumZ (cell_count late lone i j <$> grans) in
       let rsum := sumZ (cell_total redin late lone i j <$> grans) in
       let qsum := sumZ (cell_total nirin late lone i j <$> grans) in
       cell num i j = Some (of_Z float64 count) /\
       cell red i j = Some (of_Z float64 rsum) /\
       cell nir i j = Some (of_Z float64 qsum) /\
       within 0 (of_Z float64 count) (inject_Z count) = true /\
       within 0 (of_Z float64 rsum) (inject_Z rsum) = true /\
       within 0 (of_Z float64 qsum) (inject_Z qsum) = true) /\
  (edges_monotonic w nlat nlon = false -> flist <> [] ->
   accumulate w nlat nlon flist = Raise ValueError).
Proof.
  intros Hr Hwf Hsz.
  pose proof (accumulate_value w nlat nlon flist grans Hr Hwf Hsz) as Hacc.
  split.
  - intros Hm.
    assert (Hc : edges_monotonic w nlat nlon || (length flist =? 0)%nat = true).
    { destruct Hm as [->| ->]; [done|]. by rewrite orb_true_r. }
    rewrite Hc in Hacc. clear Hc Hm.
    unfold exact_accumulator in Hacc. cbv zeta in Hacc.
    eexists _, _, _. split; [exact Hacc|]. split.
    { unfold acc_dims. cbn [fst snd]. by rewrite !grid_table_dims. }
    intros i j Hi Hj late lone count rsum qsum.
    rewrite !grid_table_cell by done.
    pose proof (total_pixels_nonneg grans) as Hnn.
    assert (Hc : Z.abs count < 2 ^ 53).
    { pose proof (cell_counts_bound late lone i j grans).
      pose proof (sumZ_abs (cell_count late lone i j <$> grans)).
      subst count. lia. }
    assert (Hrs : Z.abs rsum < 2 ^ 53).
    { destruct (cell_totals_exact redin late lone i j grans
                  ltac:(by left) Hwf Hsz) as [_ B].
      pose proof (sumZ_abs (cell_total redin late lone i j <$> grans)).
      subst rsum. lia. }
    assert (Hqs : Z.abs qsum < 2 ^ 53).
    { destruct (cell_totals_exact nirin late lone i j grans
                  ltac:(by right) Hwf Hsz) as [_ B].
      pose proof (sumZ_abs (cell_total nirin late lone i j <$> grans)).
      subst qsum. lia. }
    split_and!; try done.
    + by apply within_of_Z.
    + by apply within_of_Z.
    + by apply within_of_Z.
  - intros Hm Hne. rewrite Hacc, Hm. by destruct flist.
Qed.

Lemma accumulators_are_exact_witness :
  exists num red nir,
    accumulate world_two 1 1 flist_two = Ok (num, red, nir) /\
    cell num 0 0 = Some (of_Z float64 2) /\
    cell red 0 0 = Some (of_Z float64 300) /\
    cell nir 0 0 = Some (of_Z float64 700).
Proof.
  destruct (accumulators_are_exact world_two 1 1 flist_two grans_two)
    as [Hexact _].
  - repeat constructor.
  - repeat constructor; cbn; lia.
  - vm_compute. reflexivity.
  - destruct Hexact as (num & red & nir & Hacc & _ & Hc).
    { left. vm_compute. reflexivity. }
    exists num, red, nir. split; [exact Hacc|].
    destruct (Hc 0%nat 0%nat ltac:(lia) ltac:(lia)) as (Hn & Hr & Hq & _).
    rewrite Hn, Hr, Hq. vm_compute. repeat split; reflexivity.
Defined.

(** X2: the output of [_regrid] does not depend on the order in which
    [glob] lists the files.  When every listed file can be read, the
    bands are [int16] and the granules have fewer than 2^53 / 32768
    pixels in all, listing the same files in another order gives the same
    accumulators bit for bit, and [_regrid] then fails with the same
    exception or writes the same dataset, up to the [input_files]
    attribute, which names the files in the order of the listing. *)
Theorem regrid_independent_of_listing_order (w : World)
    (listing : string -> list string) (dsout : ref) (dirin : string)
    (mask : option ndarray) (h : store) (grans : list Granule) :
  read_all w (glob w (path_join dirin "*.hdf")) grans ->
  Forall (Forall wf_pixel) grans ->
  32768 * total_pixels grans < 2 ^ 53 ->
  glob w (path_join dirin "*.hdf") ≡ₚ listing (path_join dirin "*.hdf") ->
  (forall nlat nlon,
      accumulate w nlat nlon (listing (path_join dirin "*.hdf"))
      = accumulate w nlat nlon (glob w (path_join dirin "*.hdf"))) /\
  match _regrid w dsout dirin mask h,
        _regrid (with_glob w listing) dsout dirin mask h with
  | (h1, Ok r1), (h2, Ok r2) =>
      r1 = dsout /\ r2 = dsout /\
      exists ds1 ds2,
        h1 = <[dsout := ds1]> h /\ h2 = <[dsout := ds2]> h /\
        sizes ds1 = sizes ds2 /\ coords ds1 = coords ds2 /\
        data_vars ds1 = data_vars ds2 /\
        delete "input_files" (attrs ds1) = delete "input_files" (attrs ds2)
  | (h1, Raise e1), (h2, Raise e2) => e1 = e2 /\ h1 = h /\ h2 = h
  | _, _ => False
  end.
Proof.
  intros Hr Hwf Hsz Hp.
  assert (Hacc : forall nlat nlon,
      accumulate w nlat nlon (listing (path_join dirin "*.hdf"))
      = accumulate w nlat nlon (glob w (path_join dirin "*.hdf"))).
  { intros nlat nlon. by apply (accumulate_perm _ _ _ _ _ grans). }
  split; [exact Hacc|].
  rewrite !_regrid_run.
  destruct (h !! dsout) as [ds|]; [|done].
  destruct (sizes ds !! "lat") as [nlat|]; [|done].
  destruct (sizes ds !! "lon") as [nlon|]; [|done].
  cbv zeta. cbn [glob with_glob].
  rewrite <- (Permutation_length Hp).
  destruct (length _ =? 0)%nat; [done|].
  change (accumulate (with_glob w listing)) with (accumulate w).
  rewrite Hacc.
  destruct (accumulate w nlat nlon _) as [[[num red] nir]|e]; [|done].
  destruct (ndvi_ratio red nir) as [ndvi ws|f]; [|done].
  destruct (apply_mask nlat nlon ndvi mask) as [ndvi'|e]; [|done].
  destruct (data_vars ds !! "NDVI") as [var|]; [|done].
  destruct (negb _); [done|].
  split; [done|]. split; [done|].
  eexists _, _. split; [done|]. split; [done|].
  cbn [sizes coords data_vars attrs]. split_and!; try done.
  by rewrite !delete_insert_eq.
Qed.

(** On the two files of the example world, listed in the other order,
    with a mask of one element: both runs succeed. *)
Lemma regrid_independent_of_listing_order_witness :
  accumulate world_two 1 1 (sorted_listing "/data/*.hdf")
  = accumulate world_two 1 1 flist_two /\
  (_regrid world_two 1%positive "/data" (Some [[one]]) store0).2
  = Ok 1%positive /\
  (_regrid (with_glob world_two sorted_listing) 1%positive "/data"
     (Some [[one]]) store0).2 = Ok 1%positive /\
  match _regrid world_two 1%positive "/data" (Some [[one]]) store0,
        _regrid (with_glob world_two sorted_listing) 1%positive "/data"
          (Some [[one]]) store0 with
  | (h1, Ok r1), (h2, Ok r2) =>
      r1 = 1%positive /\ r2 = 1%positive /\
      exists ds1 ds2,
        h1 = <[1%positive := ds1]> store0 /\
        h2 = <[1%positive := ds2]> store0 /\
        sizes ds1 = sizes ds2 /\ coords ds1 = coords ds2 /\
        data_vars ds1 = data_vars ds2 /\
        delete "input_files" (attrs ds1) = delete "input_files" (attrs ds2)
  | (h1, Raise e1), (h2, Raise e2) => e1 = e2 /\ h1 = store0 /\ h2 = store0
  | _, _ => False
  end.
Proof.
  destruct (regrid_independent_of_listing_order world_two sorted_listing
              1%positive "/data" (Some [[one]]) store0 grans_two)
    as [Hacc Hrun].
  - repeat constructor.
  - repeat constructor; cbn; lia.
  - vm_compute. reflexivity.
  - apply perm_swap.
  - split; [apply Hacc|].
    split; [vm_compute; reflexivity|].
    split; [vm_compute; reflexivity|].
    exact Hrun.
Defined.

(** X3: partial accumulators merge.  Under the same conditions, when the
    list of files is split in two and each part is accumulated on its
    own, the element-wise sum of the two partial accumulators is, bit
    for bit, what the loop gives on the whole list. *)
Theorem partial_accumulators_merge (w : World) (nlat nlon : nat)
    (A B : list string) (grans : list Granule) (accA accB : Accumulator) :
  read_all w (A ++ B) grans ->
  Forall (Forall wf_pixel) grans ->
  32768 * total_pixels grans < 2 ^ 53 ->
  accumulate w nlat nlon A = Ok accA ->
  accumulate w nlat nlon B = Ok accB ->
  accumulate w nlat nlon (A ++ B) = Ok (merge accA accB).
Proof.
  intros Hr Hwf Hsz HA HB.
  destruct (read_all_app w A B grans Hr) as (gA & gB & -> & HrA & HrB).
  pose proof Hwf as Hwf'. apply Forall_app in Hwf' as [HwA HwB].
  pose proof Hsz as Hsz'. rewrite total_pixels_app in Hsz'.
  pose proof (total_pixels_nonneg gA). pose proof (total_pixels_nonneg gB).
  rewrite (accumulate_value w nlat nlon A gA) in HA by (done || lia).
  rewrite (accumulate_value w nlat nlon B gB) in HB by (done || lia).
  rewrite (accumulate_value w nlat nlon (A ++ B) (gA ++ gB)) by done.
  destruct (edges_monotonic w nlat nlon); cbn [orb] in *.
  - injection HA as <-. injection HB as <-.
    by rewrite exact_accumulator_merge.
  - destruct A; [|done]. destruct B; [|done]. cbn [app length Nat.eqb] in *.
    injection HA as <-. injection HB as <-.
    by rewrite exact_accumulator_merge.
Qed.

Lemma partial_accumulators_merge_witness :
  exists accA accB,
    accumulate world_two 1 1 ["/data/b.hdf"%string] = Ok accA /\
    accumulate world_two 1 1 ["/data/a.hdf"%string] = Ok accB /\
    accumulate world_two 1 1 flist_two = Ok (merge accA accB).
Proof.
  eexists _, _. split; [vm_compute; reflexivity|].
  split; [vm_compute; reflexivity|].
  apply (partial_accumulators_merge world_two 1 1
           ["/data/b.hdf"%string] ["/data/a.hdf"%string] grans_two).
  - repeat constructor.
  - repeat constructor; cbn; lia.
  - vm_compute. reflexivity.
  - vm_compute. reflexivity.
  - vm_compute. reflexivity.
Defined.

(** ** [_regrid] and the output dataset *)

(** X4: [_regrid] is all or nothing.  Whatever makes it fail (a missing
    dimension, an empty directory, an unreadable file, bin edges
    [np.histogram2d] refuses, a mask or an NDVI variable of another
    shape), it fails before its first write: the store, and so the
    dataset it was to fill, is exactly as it was. *)
Theorem regrid_failure_writes_nothing (w : World) (dsout : ref)
    (dirin : string) (mask : option ndarray) (h h' : store) (e : exn) :
  _regrid w dsout dirin mask h = (h', Raise e) -> h' = h.
Proof.
  rewrite _regrid_run.
  destruct (h !! dsout) as [ds|]; [|congruence].
  destruct (sizes ds !! "lat") as [nlat|]; [|congruence].
  destruct (sizes ds !! "lon") as [nlon|]; [|congruence].
  cbv zeta.
  destruct (length _ =? 0)%nat; [congruence|].
  destruct (accumulate w nlat nlon _) as [[[num red] nir]|e']; [|congruence].
  destruct (ndvi_ratio red nir) as [ndvi ws|f]; [|congruence].
  destruct (apply_mask nlat nlon ndvi mask) as [ndvi'|e']; [|congruence].
  destruct (data_vars ds !! "NDVI") as [var|]; [|congruence].
  destruct (negb _); congruence.
Qed.

Lemma regrid_failure_writes_nothing_witness :
  (_regrid world_two 1%positive "/data" (Some []) store0).2
  = Raise ValueError /\
  (_regrid world_two 1%positive "/data" (Some []) store0).1 = store0.
Proof.
  split; [vm_compute; reflexivity|].
  apply (regrid_failure_writes_nothing world_two 1%positive "/data" (Some [])
           store0 _ ValueError).
  vm_compute. reflexivity.
Defined.

(** X5: [_regrid] fills its receiver in place.  When it succeeds it
    returns the reference it was given; no other object of the store
    changes; and in the receiver only two things change: the values of
    NDVI, which keep their shape (the variable keeps its dimensions,
    dtype and attributes), and the [input_files] attribute. *)
Theorem regrid_fills_receiver_in_place (w : World) (dsout : ref)
    (dirin : string) (mask : option ndarray) (h h' : store) (r : ref) :
  _regrid w dsout dirin mask h = (h', Ok r) ->
  r = dsout /\
  (forall r', r' <> dsout -> h' !! r' = h !! r') /\
  exists ds ds' var var',
    h !! dsout = Some ds /\ h' !! dsout = Some ds' /\
    data_vars ds !! "NDVI" = Some var /\
    data_vars ds' !! "NDVI" = Some var' /\
    sizes ds' = sizes ds /\ coords ds' = coords ds /\
    (forall name, name <> "NDVI"%string ->
                  data_vars ds' !! name = data_vars ds !! name) /\
    (forall key, key <> "input_files"%string ->
                 attrs ds' !! key = attrs ds !! key) /\
    var_dims var' = var_dims var /\ var_dtype var' = var_dtype var /\
    var_attrs var' = var_attrs var /\
    dims (var_values var') = dims (var_values var).
Proof.
  rewrite _regrid_run.
  destruct (h !! dsout) as [ds|] eqn:Hds; [|done].
  destruct (sizes ds !! "lat") as [nlat|]; [|done].
  destruct (sizes ds !! "lon") as [nlon|]; [|done].
  cbv zeta.
  destruct (length _ =? 0)%nat; [done|].
  destruct (accumulate w nlat nlon _) as [[[num red] nir]|e']; [|done].
  destruct (ndvi_ratio red nir) as [ndvi ws|f]; [|done].
  destruct (apply_mask nlat nlon ndvi mask) as [ndvi'|e']; [|done].
  destruct (data_vars ds !! "NDVI") as [var|] eqn:Hvar; [|done].
  destruct (same_shape ndvi' (var_values var)) eqn:Hs; [|done].
  cbn [negb]. intros [= <- <-]. split; [done|]. split.
  { intros r' Hr'. by rewrite lookup_insert_ne. }
  eexists ds, _, var, _.
  split; [done|]. split; [apply lookup_insert_eq|].
  cbn [sizes coords data_vars attrs].
  split; [done|]. split; [apply lookup_insert_eq|].
  split_and!; try done.
  - intros name Hn. by rewrite lookup_insert_ne.
  - intros key Hk. by rewrite lookup_insert_ne.
  - cbn [var_values]. rewrite dims_map1.
    unfold same_shape in Hs. by case_bool_decide.
Qed.

(** On a grid of two cells, with a mask of one element. *)
Lemma regrid_fills_receiver_in_place_witness :
  exists h' ds' var',
    _regrid world_two 1%positive "/data" (Some [[one]]) store_wide
    = (h', Ok 1%positive) /\
    h' !! 1%positive = Some ds' /\
    data_vars ds' !! "NDVI" = Some var' /\
    sizes ds' = sizes wide /\
    var_dtype var' = float32 /\
    dims (var_values var') = [2%nat].
Proof.
  destruct (regrid_fills_receiver_in_place world_two 1%positive "/data"
              (Some [[one]]) store_wide
              (_regrid world_two 1%positive "/data" (Some [[one]]) store_wide).1
              1%positive)
    as (_ & _ & ds & ds' & var & var' & Hds & Hds' & Hvar & Hvar' & Hsz & _ &
        _ & _ & _ & Hdt & _ & Hdims).
  - vm_compute. reflexivity.
  - assert (ds = wide) as -> by (by injection Hds).
    assert (var = {| var_dims := ["lat"; "lon"]%string;
                     var_dtype := float32;
                     var_values := [[nan; nan]];
                     var_attrs := ∅ |}) as -> by (by injection Hvar).
    exists (_regrid world_two 1%positive "/data" (Some [[one]]) store_wide).1,
      ds', var'.
    split; [vm_compute; reflexivity|]. by split_and!.
Defined.

(** X6: the loop stops at the first file that cannot be opened.  When
    the files listed before it can be read and the bin edges are
    accepted, [_regrid] raises the exception [open_rasterio] raised for
    that file, whatever files come after it, and writes nothing. *)
Theorem regrid_stops_at_unreadable_file (w : World) (dsout : ref)
    (dirin : string) (mask : option ndarray) (h : store) (ds : Dataset)
    (nlat nlon : nat) (A B : list string) (ff : string)
    (gransA : list Granule) (e : exn) :
  h !! dsout = Some ds ->
  sizes ds !! "lat" = Some nlat -> sizes ds !! "lon" = Some nlon ->
  edges_monotonic w nlat nlon = true ->
  glob w (path_join dirin "*.hdf") = A ++ ff :: B ->
  read_all w A gransA ->
  open_rasterio w ff = Raise e ->
  _regrid w dsout dirin mask h = (h, Raise e).
Proof.
  intros Hds Hlat Hlon Hm Hglob Hr He.
  rewrite _regrid_run, Hds, Hlat, Hlon. cbv zeta. rewrite Hglob.
  rewrite length_app. cbn [length].
  replace (length A + S (length B) =? 0)%nat with false
    by (symmetry; apply Nat.eqb_neq; lia).
  by rewrite (accumulate_unreadable w nlat nlon A ff B gransA e).
Qed.

Lemma regrid_stops_at_unreadable_file_witness :
  _regrid world_broken 1%positive "/data" None store0
  = (store0, Raise OSError).
Proof.
  apply (regrid_stops_at_unreadable_file world_broken 1%positive "/data" None
           store0 Examples.blank 1 1 ["/data/a.hdf"%string]
           ["/data/b.hdf"%string] "/data/bad.hdf"
           [[px 10 20 100 0 300 0]] OSError).
  - reflexivity.
  - reflexivity.
  - reflexivity.
  - vm_compute. reflexivity.
  - reflexivity.
  - repeat constructor.
  - reflexivity.
Defined.

(** ** The conversion policies *)

(** X7: [_ndvi2fpar_los] raises no exception but [IndexError], and it
    raises it exactly when the configuration has more land cover classes
    than the 18 entries of [NDVI02P] and [NDVI98P], or there is a class
    at all and the land cover array does not fit the NDVI array as a
    boolean index: one of its axes has a size that is neither 0 nor the
    size of that axis of the NDVI array.  NumPy does not compare an axis
    of size 0: with at most 18 classes and a land cover array without
    elements that fits, the result is 0 everywhere. *)
Theorem los_raises_IndexError (w : World) (dt : dtype) (ndvi : ndarray)
    (lctype : array2 Z) :
  (forall e, _ndvi2fpar_los w dt ndvi lctype = Raise e -> e = IndexError) /\
  (_ndvi2fpar_los w dt ndvi lctype = Raise IndexError <->
   (18 < NTYPE w)%nat \/
   ((0 < NTYPE w)%nat /\ index_fits lctype ndvi = false)) /\
  ((NTYPE w <= 18)%nat -> size0 lctype = true ->
   index_fits lctype ndvi = true ->
   _ndvi2fpar_los w dt ndvi lctype = Ok (zeros_like ndvi)).
Proof.
  assert (Hz : dims (zeros_like ndvi) = dims ndvi)
    by (unfold zeros_like; apply dims_map1).
  split_and!.
  - intros e. unfold _ndvi2fpar_los.
    destruct (foldM _ _ _) as [fpar|e'] eqn:E; cbn [bind]; [done|].
    intros [= <-]. by apply los_loop_raises in E.
  - split.
    + intros Hraise.
      destruct (le_lt_dec (NTYPE w) 18) as [Hk|Hk]; [|by left]. right.
      destruct (index_fits lctype ndvi) eqn:Hfit.
      * destruct (los_loop_fits dt ndvi lctype (seq 0 (NTYPE w))
                    (below_18 _ Hk) Hfit (zeros_like ndvi) Hz)
          as (fpar & Hloop & _).
        unfold _ndvi2fpar_los in Hraise. by rewrite Hloop in Hraise.
      * split; [|done]. destruct (NTYPE w) as [|k] eqn:En; [|lia].
        unfold _ndvi2fpar_los in Hraise. by rewrite En in Hraise.
    + intros [H|[H Hd]]; unfold _ndvi2fpar_los.
      * replace (NTYPE w) with (18 + S (NTYPE w - 19))%nat by lia.
        rewrite seq_app, foldM_app.
        destruct (foldM _ _ (seq 0 18)) as [acc|e] eqn:E; cbn [bind].
        -- cbn [seq foldM]. rewrite los_step_beyond by lia. done.
        -- by apply los_loop_raises in E as ->.
      * destruct (NTYPE w) as [|k]; [lia|]. cbn [seq foldM].
        by rewrite los_step_mismatch.
  - intros Hk Hs Hfit. unfold _ndvi2fpar_los.
    rewrite (los_loop_size0 dt ndvi lctype (zeros_like ndvi) _
               (below_18 _ Hk) Hs Hfit Hz).
    cbn [bind]. f_equal. unfold zeros_like, map1.
    rewrite <- list_fmap_compose. apply list_fmap_ext. intros _ row _.
    cbn. rewrite <- list_fmap_compose. by apply list_fmap_ext.
Qed.

(** More classes than percentiles; a land cover array of another shape;
    and an empty land cover array, which NumPy accepts. *)
Lemma los_raises_IndexError_witness :
  _ndvi2fpar_los world_19 float32 [[zero]] [[7]] = Raise IndexError /\
  _ndvi2fpar_los world_two float32 [[zero]] [[7; 8]] = Raise IndexError /\
  _ndvi2fpar_los world_two float32 [[zero]] [] = Ok [[zero]].
Proof.
  split_and!.
  - apply (los_raises_IndexError world_19 float32 [[zero]] [[7]]).
    left. cbn. lia.
  - apply (los_raises_IndexError world_two float32 [[zero]] [[7; 8]]).
    right. split; [cbn; lia|reflexivity].
  - apply (los_raises_IndexError world_two float32 [[zero]] []).
    + cbn. lia.
    + reflexivity.
    + reflexivity.
Defined.

(** X8: with at most 18 classes and a land cover array of the shape of
    the NDVI array, [_ndvi2fpar_los] succeeds and keeps the shape; a cell
    whose class is not in [range(NTYPE)] gets fPAR 0, and a cell of class
    [c] gets the value the formula gives with the percentiles of [c], an
    undefined one replaced by 0. *)
Theorem los_converts_class_by_class (w : World) (dt : dtype)
    (ndvi : ndarray) (lctype : array2 Z) :
  (NTYPE w <= 18)%nat -> dims lctype = dims ndvi ->
  exists fpar,
    _ndvi2fpar_los w dt ndvi lctype = Ok fpar /\
    dims fpar = dims ndvi /\
    forall i j x c,
      cell ndvi i j = Some x -> cell lctype i j = Some c ->
      (c < 0 \/ Z.of_nat (NTYPE w) <= c -> cell fpar i j = Some zero) /\
      (0 <= c < Z.of_nat (NTYPE w) ->
       exists lo hi,
         NDVI02P !! Z.to_nat c = Some lo /\ NDVI98P !! Z.to_nat c = Some hi /\
         cell fpar i j = Some (nan_to_zero (los_value dt lo hi x))).
Proof.
  intros Hk Hd. unfold _ndvi2fpar_los.
  destruct (los_loop_cells dt ndvi lctype (zeros_like ndvi) (NTYPE w))
    as (fpar & Hloop & Hdims & Hcells); try done.
  { unfold zeros_like. by rewrite dims_map1. }
  rewrite Hloop. cbn [bind]. eexists. split; [done|].
  split; [by rewrite dims_map1|].
  intros i j x c Hx Hc.
  assert (Ho : cell (zeros_like ndvi) i j = Some zero).
  { unfold zeros_like. by rewrite cell_map1, Hx. }
  rewrite cell_map1, (Hcells i j x c zero Hx Hc Ho).
  cbn [fmap option_fmap option_map]. unfold los_after. split.
  - intros Hout.
    destruct (Z.leb_spec 0 c), (Z.ltb_spec c (Z.of_nat (NTYPE w)));
      cbn [andb]; try done; lia.
  - intros [H0 H1].
    destruct (lookup_lt_is_Some_2 NDVI02P (Z.to_nat c)) as [lo Hlo];
      [rewrite NDVI02P_length; lia|].
    destruct (lookup_lt_is_Some_2 NDVI98P (Z.to_nat c)) as [hi Hhi];
      [rewrite NDVI98P_length; lia|].
    exists lo, hi. rewrite Hlo, Hhi. split_and!; try done.
    destruct (Z.leb_spec 0 c), (Z.ltb_spec c (Z.of_nat (NTYPE w)));
      cbn [andb]; try done; lia.
Qed.

Lemma los_converts_class_by_class_witness :
  exists fpar,
    _ndvi2fpar_los world_two float32 [[zero; zero]] [[7; 99]] = Ok fpar /\
    cell fpar 0 1 = Some zero.
Proof.
  destruct (los_converts_class_by_class world_two float32
              [[zero; zero]] [[7; 99]]) as (fpar & Hrun & _ & Hc).
  - cbn. lia.
  - reflexivity.
  - exists fpar. split; [exact Hrun|].
    destruct (Hc 0%nat 1%nat zero 99 eq_refl eq_refl) as [Hout _].
    apply Hout. right. cbn. lia.
Defined.

(** X9: [_ndvi2fpar_lin] keeps the shape of its argument, and its result
    is 0 exactly where NDVI is undefined: everywhere else, infinite NDVI
    included, it lies between [fPMIN] and [fPMAX], and so above 0. *)
Theorem lin_is_zero_or_clamped :
  forall (dt : dtype) (ndvi : ndarray),
    dims (_ndvi2fpar_lin dt ndvi) = dims ndvi /\
    forall i j x,
      cell ndvi i j = Some x ->
      exists v,
        cell (_ndvi2fpar_lin dt ndvi) i j = Some v /\
        if isnan x then v = zero
        else ltb zero v = true /\
             leb (scalar dt fPMIN) v = true /\
             leb v (scalar dt fPMAX) = true.
Proof.
  intros dt ndvi. split.
  - unfold _ndvi2fpar_lin. by rewrite !dims_map1.
  - intros i j x Hx. exists (lin_cell dt x).
    rewrite lin_cells, Hx. split; [done|].
    destruct (isnan x) eqn:Hn.
    + destruct x; try done. apply lin_cell_nan.
    + by apply lin_cell_range.
Qed.

(** ** The eligibility test *)

(** X10: the floating-point comparison in [iok] decides an inequality of
    integers.  For every pixel, [NDVIMIN*(nirin + redin) <= nirin - redin],
    computed in double precision with the double nearest to -0.3 on the
    [int16] sum and difference (which wrap around), holds exactly when
    [-3*(nirin + redin) <= 10*(nirin - redin)] does: neither the rounding
    of the constant nor that of the product ever changes the outcome. *)
Theorem iok_is_an_integer_test :
  forall p : Pixel,
    iok p =
    negb (abs16 (redin p) =? 32767) && negb (redqc p =? 255) &&
    negb (abs16 (nirin p) =? 32767) && negb (nirqc p =? 255) &&
    (-3 * add16 (nirin p) (redin p) <=? 10 * sub16 (nirin p) (redin p)).
Proof.
  intros p. unfold iok. f_equal.
  apply fifth_int.
  - apply wrap16_range.
  - apply wrap16_range.
Qed.

(** X11: what the fifth condition says about the NDVI of a pixel.  For a
    pixel that passes the four fill and quality conditions and whose sum
    and difference of reflectances fit [int16], the pixel is eligible
    exactly when: its NDVI [(nir - red)/(nir + red)] is at least -3/10, if
    the sum is positive; its NDVI is at most -3/10, if the sum is
    negative; [red <= nir], if the sum is zero and the NDVI undefined. *)
Theorem eligibility_and_pixel_ndvi (p : Pixel) :
  abs16 (redin p) <> 32767 -> abs16 (nirin p) <> 32767 ->
  redqc p <> 255 -> nirqc p <> 255 ->
  -32768 <= nirin p + redin p <= 32767 ->
  -32768 <= nirin p - redin p <= 32767 ->
  (0 < nirin p + redin p ->
   (iok p = true <->
    (-3 # 10 <= (nirin p - redin p) # Z.to_pos (nirin p + redin p))%Q)) /\
  (nirin p + redin p < 0 ->
   (iok p = true <->
    ((redin p - nirin p) # Z.to_pos (- (nirin p + redin p)) <= -3 # 10)%Q)) /\
  (nirin p + redin p = 0 -> (iok p = true <-> redin p <= nirin p)).
Proof.
  intros Hr Hn Hrq Hnq Hs Hd.
  assert (E : iok p = (-3 * (nirin p + redin p) <=? 10 * (nirin p - redin p))).
  { unfold iok.
    rewrite (proj2 (Z.eqb_neq _ _) Hr), (proj2 (Z.eqb_neq _ _) Hn),
      (proj2 (Z.eqb_neq _ _) Hrq), (proj2 (Z.eqb_neq _ _) Hnq).
    cbn [negb andb]. rewrite fifth_int by apply wrap16_range.
    unfold add16, sub16. by rewrite !wrap16_id. }
  rewrite E, Z.leb_le. split_and!.
  - intros Hpos. unfold Qle. cbn [Qnum Qden].
    rewrite Z2Pos.id by done. lia.
  - intros Hneg. unfold Qle. cbn [Qnum Qden].
    rewrite Z2Pos.id by lia. lia.
  - intros Hzero. lia.
Qed.

Lemma eligibility_and_pixel_ndvi_witness :
  iok (px 10 20 700 0 400 0) = true.
Proof.
  destruct (eligibility_and_pixel_ndvi (px 10 20 700 0 400 0)) as [H _].
  - vm_compute. discriminate.
  - vm_compute. discriminate.
  - vm_compute. discriminate.
  - vm_compute. discriminate.
  - cbn. lia.
  - cbn. lia.
  - apply H; [cbn; lia|]. vm_compute. discriminate.
Defined.

(** ** The NDVI that [_regrid] writes *)

(** X12: what [_regrid] computes.  On a grid dataset, without a mask,
    when the directory is not empty, every file can be read, the bin
    edges are accepted, the bands are [int16] and the granules have fewer
    than 2^53 / 65536 pixels in all, [_regrid] succeeds, the dataset is
    still a grid dataset, and every NDVI cell holds, converted to the
    dtype of the variable, the double-precision quotient of the exact
    integers [(sum of nir) - (sum of red)] and [(sum of nir) + (sum of
    red)] over the eligible pixels binned into the cell. *)
Theorem regrid_writes_ratio_of_sums (w : World) (dsout : ref)
    (dirin : string) (h : store) (ds : Dataset) (nlat nlon : nat)
    (grans : list Granule) :
  h !! dsout = Some ds ->
  grid_dataset ds nlat nlon ->
  glob w (path_join dirin "*.hdf") <> [] ->
  edges_monotonic w nlat nlon = true ->
  read_all w (glob w (path_join dirin "*.hdf")) grans ->
  Forall (Forall wf_pixel) grans ->
  65536 * total_pixels grans < 2 ^ 53 ->
  exists h' ds' var',
    _regrid w dsout dirin None h = (h', Ok dsout) /\
    h' !! dsout = Some ds' /\
    data_vars ds' !! "NDVI" = Some var' /\
    grid_dataset ds' nlat nlon /\
    forall i j,
      (i < nlat)%nat -> (j < nlon)%nat ->
      let late := (edges w nlat nlon).1 in
      let lone := (edges w nlat nlon).2 in
      let rsum := sumZ (cell_total redin late lone i j <$> grans) in
      let qsum := sumZ (cell_total nirin late lone i j <$> grans) in
      cell (var_values var') i j
      = Some (astype (var_dtype var')
                (div float64 (of_Z float64 (qsum - rsum))
                             (of_Z float64 (qsum + rsum)))).
Proof.
  intros Hds (Hlat & Hlon & var & Hvar & Hdims) Hne Hm Hr Hwf Hsz.
  pose proof (total_pixels_nonneg grans) as Hnn.
  pose proof (accumulate_exact w nlat nlon _ grans Hm Hr Hwf ltac:(lia)) as Hacc.
  destruct (exact_accumulator w nlat nlon grans) as [[num red] nir] eqn:Eacc.
  rewrite (regrid_run_ok w dsout dirin h ds nlat nlon var num red nir);
    try done.
  eexists _, _, _. split; [done|].
  split; [apply lookup_insert_eq|]. cbn [data_vars].
  split; [apply lookup_insert_eq|].
  pose proof Hacc as Hinv.
  apply accumulate_inv in Hinv as ((_ & Dr & Dn) & _). cbn [fst snd] in Dr, Dn.
  split.
  { unfold grid_dataset. cbn [sizes data_vars].
    split; [done|]. split; [done|].
    eexists. split; [apply lookup_insert_eq|]. cbn [var_values].
    by rewrite dims_map1, (ratio_dims red nir nlat nlon). }
  intros i j Hi Hj. cbv zeta. cbn [var_values var_dtype].
  rewrite cell_map1.
  pose proof (ratio_cell w nlat nlon grans i j Hwf Hsz Hi Hj) as Hc.
  rewrite Eacc in Hc. cbn [fst snd] in Hc. rewrite Hc. done.
Qed.

Lemma regrid_writes_ratio_of_sums_witness :
  exists h' ds' var',
    _regrid world_two 1%positive "/data" None store0 = (h', Ok 1%positive) /\
    h' !! 1%positive = Some ds' /\
    data_vars ds' !! "NDVI" = Some var' /\
    grid_dataset ds' 1 1.
Proof.
  destruct (regrid_writes_ratio_of_sums world_two 1%positive "/data" store0
              Examples.blank 1 1 grans_two)
    as (h' & ds' & var' & Hrun & Hh & Hv & Hg & _).
  - vm_compute. reflexivity.
  - split; [vm_compute; reflexivity|]. split; [vm_compute; reflexivity|].
    eexists. split; vm_compute; reflexivity.
  - vm_compute. discriminate.
  - vm_compute. reflexivity.
  - repeat constructor.
  - repeat constructor; cbn; lia.
  - vm_compute. reflexivity.
  - exists h', ds', var'. exact (conj Hrun (conj Hh (conj Hv Hg))).
Defined.

(** X13: with reflectances that are not negative, NDVI lies in [-1, 1].
    Under the conditions of X12, if no eligible pixel has a negative red
    or near-infrared reflectance, every NDVI cell [_regrid] writes is
    either undefined (the sums of the cell are zero) or between -1 and
    1. *)
Theorem regrid_ndvi_in_unit_interval (w : World) (dsout : ref)
    (dirin : string) (h : store) (ds : Dataset) (nlat nlon : nat)
    (grans : list Granule) :
  h !! dsout = Some ds ->
  grid_dataset ds nlat nlon ->
  glob w (path_join dirin "*.hdf") <> [] ->
  edges_monotonic w nlat nlon = true ->
  read_all w (glob w (path_join dirin "*.hdf")) grans ->
  Forall (Forall wf_pixel) grans ->
  Forall (Forall nonneg_if_eligible) grans ->
  65536 * total_pixels grans < 2 ^ 53 ->
  exists h' ds' var',
    _regrid w dsout dirin None h = (h', Ok dsout) /\
    h' !! dsout = Some ds' /\
    data_vars ds' !! "NDVI" = Some var' /\
    forall i j x,
      cell (var_values var') i j = Some x ->
      isnan x = true \/
      (leb (of_Z (var_dtype var') (-1)) x = true /\
       leb x (of_Z (var_dtype var') 1) = true).
Proof.
  intros Hds (Hlat & Hlon & var & Hvar & Hdims) Hne Hm Hr Hwf Hpos Hsz.
  pose proof (total_pixels_nonneg grans) as Hnn.
  pose proof (accumulate_exact w nlat nlon _ grans Hm Hr Hwf ltac:(lia)) as Hacc.
  destruct (exact_accumulator w nlat nlon grans) as [[num red] nir] eqn:Eacc.
  rewrite (regrid_run_ok w dsout dirin h ds nlat nlon var num red nir);
    try done.
  eexists _, _, _. split; [done|].
  split; [apply lookup_insert_eq|]. cbn [data_vars].
  split; [apply lookup_insert_eq|].
  pose proof Hacc as Hinv.
  apply accumulate_inv in Hinv as ((_ & Dr & Dn) & _). cbn [fst snd] in Dr, Dn.
  intros i j x. cbn [var_values var_dtype]. rewrite cell_map1. intros Hx.
  assert (Hi : (i < nlat)%nat /\ (j < nlon)%nat).
  { destruct (cell _ i j) as [v|] eqn:Ev; [|done].
    unfold cell in Ev.
    destruct (_ !! i) as [row|] eqn:Erow; [|done]. cbn in Ev.
    pose proof (ratio_dims red nir nlat nlon Dr Dn) as Hd.
    pose proof (dims_length _ _ _ Hd) as Hl.
    pose proof (dims_row _ _ _ _ _ Hd Erow) as Hrow.
    apply lookup_lt_Some in Erow. apply lookup_lt_Some in Ev. lia. }
  destruct Hi as [Hi Hj].
  pose proof (ratio_cell w nlat nlon grans i j Hwf Hsz Hi Hj) as Hc.
  rewrite Eacc in Hc. cbn [fst snd] in Hc. rewrite Hc in Hx.
  injection Hx as <-. unfold ratio_of_sums. cbv zeta.
  set (late := (edges w nlat nlon).1). set (lone := (edges w nlat nlon).2).
  set (rsum := sumZ (cell_total redin late lone i j <$> grans)).
  set (qsum := sumZ (cell_total nirin late lone i j <$> grans)).
  pose proof (cell_total_nonneg redin late lone i j grans ltac:(by left) Hpos)
    as Hr0.
  pose proof (cell_total_nonneg nirin late lone i j grans ltac:(by right) Hpos)
    as Hq0.
  fold rsum in Hr0. fold qsum in Hq0.
  pose proof (cell_total_abs redin late lone i j grans ltac:(by left) Hwf
                ltac:(lia)) as Br.
  pose proof (cell_total_abs nirin late lone i j grans ltac:(by right) Hwf
                ltac:(lia)) as Bq.
  fold rsum in Br. fold qsum in Bq.
  destruct (Z.eq_dec (qsum + rsum) 0) as [Hz|Hnz].
  - left. assert (rsum = 0) as -> by lia. assert (qsum = 0) as -> by lia.
    reflexivity.
  - right. apply ratio_astype_range; lia.
Qed.

Lemma regrid_ndvi_in_unit_interval_witness :
  exists h' ds' var',
    _regrid world_two 1%positive "/data" None store0 = (h', Ok 1%positive) /\
    h' !! 1%positive = Some ds' /\
    data_vars ds' !! "NDVI" = Some var' /\
    forall i j x,
      cell (var_values var') i j = Some x ->
      isnan x = true \/
      (leb (of_Z (var_dtype var') (-1)) x = true /\
       leb x (of_Z (var_dtype var') 1) = true).
Proof.
  apply (regrid_ndvi_in_unit_interval world_two 1%positive "/data" store0
           Examples.blank 1 1 grans_two).
  - vm_compute. reflexivity.
  - split; [vm_compute; reflexivity|]. split; [vm_compute; reflexivity|].
    eexists. split; vm_compute; reflexivity.
  - vm_compute. discriminate.
  - vm_compute. reflexivity.
  - repeat constructor.
  - repeat constructor; cbn; lia.
  - repeat (apply List.Forall_cons || apply List.Forall_nil);
      intros _; cbn; lia.
  - vm_compute. reflexivity.
Defined.
